(** * LoanLens AI: the session engine of [index.js]

    A shallow embedding of the parts of [src/index.js] that own the
    conversation state and talk to the completions endpoint:

    - [MessageContent] (lines 73-93): splitting a message into text and
      fenced-code segments;
    - [createNewChat], [deleteChat] (lines 512-530): the chat collection
      and the active-chat pointer;
    - [sendMessage] (lines 532-688): one user turn, with the request
      construction and the reading of a streamed (SSE) response;
    - the HTML of a text segment (lines 100-108), [detectHtmlCode] and
      [extractHtmlContent] (lines 16-23), the request of
      [testConnection] (lines 129-151), the condition of the send
      button (line 899);
    - the text that [JSON.stringify] gives for the chats, as the save
      effect (line 493) and [exportAsJson] (line 374) call it.

    JavaScript strings are sequences of 16-bit code units and are
    modelled as [list N]; byte chunks of a response body are [list N]
    too.  Values produced by [JSON.parse] are the inductive [jsval].
    Everything that the source obtains from the outside world (random
    identifiers, timestamps, the network's answer) is an explicit input
    of the model.  Code that can throw lives in the [outcome] monad, and
    [try]/[catch] is a function on outcomes.

    React state is the record [app_state]; an event handler is a
    function on it.  A call of [sendMessage] is run to completion as
    one step.  The React elements, the settings form, the Markdown
    export and the load effect that reads [localStorage] are not
    modelled: runs start from the empty [App]. *)

From Stdlib Require Import DecimalString.
From stdpp Require Import base decidable option list numbers strings.

Local Open Scope N_scope.

(** ** Strings *)

Abbreviation jsstring := (list N) (only parsing).

(** A string literal of the source (ASCII only). *)
Definition js (s : string) : jsstring :=
  map Ascii.N_of_ascii (String.list_ascii_of_string s).

(** A literal that contains double quotes, written with an apostrophe
    in the place of each double quote. *)
Definition dq (s : string) : jsstring :=
  map (fun c => if c =? 39 then 34 else c) (js s).

(** ECMAScript [WhiteSpace] and [LineTerminator] code units, the ones
    that [String.prototype.trim] removes. *)
Definition isWhiteSpace (c : N) : bool :=
  ((9 <=? c) && (c <=? 13)) || (c =? 32) || (c =? 160) || (c =? 0x1680)
  || ((0x2000 <=? c) && (c <=? 0x200A)) || (c =? 0x2028) || (c =? 0x2029)
  || (c =? 0x202F) || (c =? 0x205F) || (c =? 0x3000) || (c =? 0xFEFF).

Fixpoint trimStart (s : jsstring) : jsstring :=
  match s with
  | [] => []
  | c :: r => if isWhiteSpace c then trimStart r else s
  end.

Definition trimEnd (s : jsstring) : jsstring := rev (trimStart (rev s)).

Definition trim (s : jsstring) : jsstring := trimEnd (trimStart s).

(** [s.split(sep)] for a separator of one code unit. *)
Fixpoint split (sep : N) (s : jsstring) : list jsstring :=
  match s with
  | [] => [[]]
  | c :: r =>
      if c =? sep then [] :: split sep r
      else match split sep r with
           | l :: ls => (c :: l) :: ls
           | [] => [[c]]
           end
  end.

(** [s.startsWith(p)] *)
Fixpoint startsWith (s p : jsstring) {struct p} : bool :=
  match p, s with
  | [], _ => true
  | _ :: _, [] => false
  | a :: p', b :: s' => (a =? b) && startsWith s' p'
  end.

(** [s.includes(p)] *)
Fixpoint includes (s p : jsstring) : bool :=
  startsWith s p ||
  match s with
  | [] => false
  | _ :: r => includes r p
  end.

(** [s.slice(n)] and [s.slice(0, n)] for a literal [n >= 0]. *)
Definition slice_from (n : nat) (s : jsstring) : jsstring := drop n s.
Definition slice_to (n : nat) (s : jsstring) : jsstring := take n s.

(** Decimal digits of a non-negative integer, the way a template
    literal prints an integer-valued number. *)
Definition decimal (n : N) : jsstring :=
  js (NilEmpty.string_of_uint (N.to_uint n)).

(** ** [TextDecoder.decode]: UTF-8 bytes to UTF-16 code units

    The decoder of the WHATWG Encoding standard in replacement mode.  A
    pending sequence is [(code point, bytes still needed, lower bound,
    upper bound of the next byte)]. *)

Definition REPLACEMENT : N := 0xFFFD.

Definition utf16_encode (cp : N) : jsstring :=
  if cp <? 0x10000 then [cp]
  else let c := cp - 0x10000 in
       [0xD800 + N.shiftr c 10; 0xDC00 + N.land c 0x3FF].

Definition pending : Type := N * nat * N * N.

Definition utf8_lead (b : N) : jsstring * option pending :=
  if b <=? 0x7F then ([b], None)
  else if (0xC2 <=? b) && (b <=? 0xDF) then
    ([], Some (N.land b 0x1F, 1%nat, 0x80, 0xBF))
  else if (0xE0 <=? b) && (b <=? 0xEF) then
    ([], Some (N.land b 0xF, 2%nat,
               if b =? 0xE0 then 0xA0 else 0x80,
               if b =? 0xED then 0x9F else 0xBF))
  else if (0xF0 <=? b) && (b <=? 0xF4) then
    ([], Some (N.land b 0x7, 3%nat,
               if b =? 0xF0 then 0x90 else 0x80,
               if b =? 0xF4 then 0x8F else 0xBF))
  else ([REPLACEMENT], None).

Fixpoint utf8_decode (st : option pending) (bs : list N) : jsstring :=
  match bs with
  | [] => match st with None => [] | Some _ => [REPLACEMENT] end
  | b :: r =>
      match st with
      | None => let '(out, st') := utf8_lead b in out ++ utf8_decode st' r
      | Some (cp, n, lo, hi) =>
          if (lo <=? b) && (b <=? hi) then
            let cp' := N.lor (N.shiftl cp 6) (N.land b 0x3F) in
            match n with
            | S (S n') => utf8_decode (Some (cp', S n', 0x80, 0xBF)) r
            | _ => utf16_encode cp' ++ utf8_decode None r
            end
          else
            (* the offending byte is put back and read as a lead byte *)
            let '(out, st') := utf8_lead b in
            REPLACEMENT :: out ++ utf8_decode st' r
      end
  end.

(** [new TextDecoder().decode(value)]: every call decodes its chunk on
    its own (no [stream: true] option is passed) and drops a leading
    byte order mark. *)
Definition TextDecoder_decode (value : list N) : jsstring :=
  match utf8_decode None value with
  | c :: r => if c =? 0xFEFF then r else c :: r
  | [] => []
  end.

(** ** JavaScript values and [JSON.parse] *)

(** The values [JSON.parse] can build.  A number keeps the literal it
    was read from: its double value is the engine's business (see
    [engine] below).  An object keeps its members in source order; a
    later member with the same key overrides an earlier one. *)
#[warnings="-register-all"]
Inductive jsval :=
| JNull
| JBool (b : bool)
| JNum (literal : jsstring)
| JStr (s : jsstring)
| JArr (items : list jsval)
| JObj (members : list (jsstring * jsval)).

(** JSON white space: tab, line feed, carriage return, space. *)
Definition isJsonWs (c : N) : bool :=
  (c =? 9) || (c =? 10) || (c =? 13) || (c =? 32).

Fixpoint skip_ws (s : jsstring) : jsstring :=
  match s with
  | [] => []
  | c :: r => if isJsonWs c then skip_ws r else s
  end.

Definition isDigit (c : N) : bool := (48 <=? c) && (c <=? 57).

Definition hexval (c : N) : option N :=
  if isDigit c then Some (c - 48)
  else if (65 <=? c) && (c <=? 70) then Some (c - 55)
  else if (97 <=? c) && (c <=? 102) then Some (c - 87)
  else None.

(** The code unit denoted by [\c] for a single-character escape. *)
Definition escape (c : N) : option N :=
  if c =? 34 then Some 34          (* quotation mark *)
  else if c =? 92 then Some 92     (* reverse solidus *)
  else if c =? 47 then Some 47     (* solidus *)
  else if c =? 98 then Some 8      (* b: backspace *)
  else if c =? 102 then Some 12    (* f: form feed *)
  else if c =? 110 then Some 10    (* n: line feed *)
  else if c =? 114 then Some 13    (* r: carriage return *)
  else if c =? 116 then Some 9     (* t: tab *)
  else None.

Definition push_unit (c : N) (r : option (jsstring * jsstring))
  : option (jsstring * jsstring) :=
  match r with
  | Some (str, rest) => Some (c :: str, rest)
  | None => None
  end.

(** The characters of a string literal after its opening quote, up to
    and including the closing quote: the decoded string and the rest of
    the input. *)
Fixpoint scan_string (s : jsstring) : option (jsstring * jsstring) :=
  match s with
  | [] => None
  | c :: r =>
      if c =? 34 then Some ([], r)
      else if c =? 92 then
        match r with
        | [] => None
        | e :: r1 =>
            if e =? 117 then
              match r1 with
              | h1 :: h2 :: h3 :: h4 :: r2 =>
                  match hexval h1, hexval h2, hexval h3, hexval h4 with
                  | Some a, Some b, Some c', Some d =>
                      push_unit (((a * 16 + b) * 16 + c') * 16 + d)
                                (scan_string r2)
                  | _, _, _, _ => None
                  end
              | _ => None
              end
            else
              match escape e with
              | Some u => push_unit u (scan_string r1)
              | None => None
              end
        end
      else if c <? 32 then None
      else push_unit c (scan_string r)
  end.

Fixpoint span_digits (s : jsstring) : jsstring * jsstring :=
  match s with
  | [] => ([], [])
  | c :: r =>
      if isDigit c then let '(ds, rest) := span_digits r in (c :: ds, rest)
      else ([], s)
  end.

(** A number literal [-? int frac? exp?]: the literal and the rest. *)
Definition scan_number (s : jsstring) : option (jsstring * jsstring) :=
  let '(sign, s1) :=
    match s with
    | c :: r => if c =? 45 then ([c], r) else ([], s)
    | [] => ([], s)
    end in
  match s1 with
  | [] => None
  | d :: r =>
      if negb (isDigit d) then None
      else
        let '(int, s2) :=
          if d =? 48 then ([d], r)
          else let '(ds, rest) := span_digits r in (d :: ds, rest) in
        let frac :=
          match s2 with
          | p :: r2 =>
              if p =? 46 then
                match span_digits r2 with
                | ([], _) => None
                | (ds, rest) => Some (p :: ds, rest)
                end
              else Some ([], s2)
          | [] => Some ([], s2)
          end in
        match frac with
        | None => None
        | Some (fr, s3) =>
            let exp :=
              match s3 with
              | e :: r3 =>
                  if (e =? 101) || (e =? 69) then
                    let '(sg, r4) :=
                      match r3 with
                      | g :: r' =>
                          if (g =? 43) || (g =? 45) then ([g], r')
                          else ([], r3)
                      | [] => ([], r3)
                      end in
                    match span_digits r4 with
                    | ([], _) => None
                    | (ds, rest) => Some (e :: sg ++ ds, rest)
                    end
                  else Some ([], s3)
              | [] => Some ([], s3)
              end in
            match exp with
            | None => None
            | Some (ex, s4) => Some (sign ++ int ++ fr ++ ex, s4)
            end
        end
  end.

(** Recursive descent over the JSON grammar.  [fuel] bounds the depth
    of the calls; [JSON_parse] supplies more than any input can use. *)
Fixpoint parse_value (fuel : nat) (s : jsstring) : option (jsval * jsstring) :=
  match fuel with
  | O => None
  | S f =>
      match skip_ws s with
      | [] => None
      | c :: r =>
          if c =? 123 then
            match skip_ws r with
            | c' :: r' =>
                if c' =? 125 then Some (JObj [], r')
                else parse_members f (c' :: r') []
            | [] => None
            end
          else if c =? 91 then
            match skip_ws r with
            | c' :: r' =>
                if c' =? 93 then Some (JArr [], r')
                else parse_elements f (c' :: r') []
            | [] => None
            end
          else if c =? 34 then
            match scan_string r with
            | Some (str, rest) => Some (JStr str, rest)
            | None => None
            end
          else if startsWith (c :: r) (js "true") then
            Some (JBool true, drop 4 (c :: r))
          else if startsWith (c :: r) (js "false") then
            Some (JBool false, drop 5 (c :: r))
          else if startsWith (c :: r) (js "null") then
            Some (JNull, drop 4 (c :: r))
          else
            match scan_number (c :: r) with
            | Some (lit, rest) => Some (JNum lit, rest)
            | None => None
            end
      end
  end
with parse_elements (fuel : nat) (s : jsstring) (acc : list jsval)
  : option (jsval * jsstring) :=
  match fuel with
  | O => None
  | S f =>
      match parse_value f s with
      | None => None
      | Some (v, r) =>
          match skip_ws r with
          | c :: r' =>
              if c =? 44 then parse_elements f r' (v :: acc)
              else if c =? 93 then Some (JArr (rev (v :: acc)), r')
              else None
          | [] => None
          end
      end
  end
with parse_members (fuel : nat) (s : jsstring) (acc : list (jsstring * jsval))
  : option (jsval * jsstring) :=
  match fuel with
  | O => None
  | S f =>
      match skip_ws s with
      | q :: r =>
          if q =? 34 then
            match scan_string r with
            | None => None
            | Some (k, r1) =>
                match skip_ws r1 with
                | col :: r2 =>
                    if col =? 58 then
                      match parse_value f r2 with
                      | None => None
                      | Some (v, r3) =>
                          match skip_ws r3 with
                          | c :: r4 =>
                              if c =? 44 then
                                parse_members f r4 ((k, v) :: acc)
                              else if c =? 125 then
                                Some (JObj (rev ((k, v) :: acc)), r4)
                              else None
                          | [] => None
                          end
                      end
                    else None
                | [] => None
                end
            end
          else None
      | [] => None
      end
  end.

(** [JSON.parse(text)]: [None] stands for the [SyntaxError]. *)
Definition JSON_parse (text : jsstring) : option jsval :=
  match parse_value (2 * length text + 2) text with
  | Some (v, rest) =>
      match skip_ws rest with
      | [] => Some v
      | _ :: _ => None
      end
  | None => None
  end.

(** ** Exceptions and the engine

    What a statement of the source can do besides returning: throw.
    The texts of the errors the engine itself raises, and the double
    arithmetic behind a JSON number, are parameters of the model. *)

Inductive fault :=
| JsonSyntax            (* JSON.parse / response.json() on malformed text *)
| ReadOfNull            (* property read on null or undefined *)
| NoPrimitiveValue.     (* an object that cannot be converted to a string *)

Inductive js_error :=
| JsError (message : jsstring)   (* [new Error(message)], or a rejection *)
| EngineError (f : fault).

Inductive outcome (A : Type) :=
| Returned (a : A)
| Thrown (e : js_error).
Arguments Returned {A} a.
Arguments Thrown {A} e.

#[global] Instance outcome_ret : MRet outcome := fun A a => Returned a.
#[global] Instance outcome_bind : MBind outcome := fun A B k m =>
  match m with
  | Returned a => k a
  | Thrown e => Thrown e
  end.

Record engine := {
  (* ToBoolean of the number a literal denotes: false for zeros *)
  number_truthy : jsstring -> bool;
  (* Number::toString of the number a literal denotes *)
  number_toString : jsstring -> jsstring;
  (* the [message] of an error raised by the engine *)
  fault_message : fault -> jsstring
}.

Definition error_message (E : engine) (e : js_error) : jsstring :=
  match e with
  | JsError m => m
  | EngineError f => fault_message E f
  end.

(** ** Reading values *)

(** Own property [k] of an object literal: the last member wins. *)
Fixpoint obj_get (members : list (jsstring * jsval)) (k : jsstring)
  : option jsval :=
  match members with
  | [] => None
  | (k', v) :: r =>
      match obj_get r k with
      | Some v' => Some v'
      | None => if decide (k' = k) then Some v else None
      end
  end.

(** [v.name] for a value [v] that is neither null nor undefined and a
    name that is not an index, not [length] and not on a prototype
    ([choices], [delta], [content], [message]); [None] is
    [undefined]. *)
Definition get_named (name : jsstring) (v : jsval) : option jsval :=
  match v with
  | JObj members => obj_get members name
  | _ => None
  end.

(** [v[0]] for a value [v] that is neither null nor undefined. *)
Definition get_index0 (v : jsval) : option jsval :=
  match v with
  | JArr items => head items
  | JStr (c :: _) => Some (JStr [c])
  | JObj members => obj_get members (js "0")
  | _ => None
  end.

(** [v?.p]: undefined when [v] is null or undefined. *)
Definition optional (get : jsval -> option jsval) (v : option jsval)
  : option jsval :=
  match v with
  | None | Some JNull => None
  | Some x => get x
  end.

(** [v.p]: a TypeError when [v] is null or undefined. *)
Definition member (get : jsval -> option jsval) (v : option jsval)
  : outcome (option jsval) :=
  match v with
  | None | Some JNull => Thrown (EngineError ReadOfNull)
  | Some x => Returned (get x)
  end.

Section Engine.

Variable E : engine.

(** ToBoolean *)
Definition truthy (v : jsval) : bool :=
  match v with
  | JNull => false
  | JBool b => b
  | JNum lit => number_truthy E lit
  | JStr s => negb (bool_decide (s = []))
  | JArr _ | JObj _ => true
  end.

(** [v || d] where [d] is a value *)
Definition or_else (v : option jsval) (d : jsval) : jsval :=
  match v with
  | Some x => if truthy x then x else d
  | None => d
  end.

(** ToString, as applied by [+] to its right operand.  A plain object
    prints through [Object.prototype.toString] unless a member named
    [toString] shadows it with something that is not callable; an array
    prints through [join], where null elements print as nothing. *)
Fixpoint ToString (v : jsval) : outcome jsstring :=
  match v with
  | JNull => Returned (js "null")
  | JBool b => Returned (if b then js "true" else js "false")
  | JNum lit => Returned (number_toString E lit)
  | JStr s => Returned s
  | JArr items =>
      (fix join (l : list jsval) : outcome jsstring :=
         match l with
         | [] => Returned []
         | x :: r =>
             a ← match x with JNull => Returned [] | _ => ToString x end;
             match r with
             | [] => Returned a
             | _ :: _ => b ← join r; Returned (a ++ js "," ++ b)
             end
         end) items
  | JObj members =>
      match obj_get members (js "toString") with
      | Some _ => Thrown (EngineError NoPrimitiveValue)
      | None => Returned (js "[object Object]")
      end
  end.

(** ** The streaming reader (lines 612-640) *)

(** [parsed.choices?.[0]?.delta?.content] *)
Definition delta_content (parsed : jsval) : outcome (option jsval) :=
  choices ← member (get_named (js "choices")) (Some parsed);
  Returned (optional (get_named (js "content"))
             (optional (get_named (js "delta"))
               (optional get_index0 choices))).

(** The body of the [try] block for one payload: the new value of
    [assistantContent], or what was thrown. *)
Definition try_payload (assistantContent data : jsstring) : outcome jsstring :=
  match JSON_parse data with
  | None => Thrown (EngineError JsonSyntax)
  | Some parsed =>
      content ← delta_content parsed;
      text ← ToString (or_else content (JStr []));
      Returned (assistantContent ++ text)
  end.

(** The local [assistantContent] and the successive arguments of
    [setStreamingMessage], oldest first. *)
Record reader_state := {
  assistantContent : jsstring;
  emitted : list jsstring
}.

(** One iteration of [for (const line of lines)]. *)
Definition on_line (st : reader_state) (line : jsstring) : reader_state :=
  if startsWith line (js "data: ") then
    let data := slice_from 6 line in
    if decide (data = js "[DONE]") then st
    else
      match try_payload (assistantContent st) data with
      | Returned content' =>
          {| assistantContent := content';
             emitted := emitted st ++ [content'] |}
      | Thrown _ => st   (* catch (e): skip malformed JSON *)
      end
  else st.

(** [chunk.split('\n').filter(line => line.trim() !== '')] *)
Definition lines_of (chunk : jsstring) : list jsstring :=
  filter (fun line => trim line <> []) (split 10 chunk).

(** One iteration of [while (true)] for a chunk [value] that was read. *)
Definition on_chunk (st : reader_state) (value : list N) : reader_state :=
  foldl on_line st (lines_of (TextDecoder_decode value)).

(** A response body: the chunks [reader.read()] delivers, and how the
    stream ends: [done], or a rejected read. *)
Record body := {
  chunks : list (list N);
  failure : option js_error
}.

Definition read_stream (st : reader_state) (b : body)
  : reader_state * option js_error :=
  (foldl on_chunk st (chunks b), failure b).

Definition start : reader_state :=
  {| assistantContent := []; emitted := [] |}.

End Engine.

(** ** [MessageContent] (lines 73-93)

    The regular expression, with the global flag, reads: an opening
    fence of three backticks, a greedy run of word characters (group
    1), a line feed, a lazy run of arbitrary characters (group 2), a
    closing fence of three backticks.  The model follows the remaining
    suffix of [content] where the source follows [lastIndex]. *)

Inductive part :=
| Text (content : jsstring)
| Code (language : jsstring) (content : jsstring).

Definition fence : jsstring := js "```".

Definition isWordChar (c : N) : bool :=
  isDigit c || ((65 <=? c) && (c <=? 90)) || ((97 <=? c) && (c <=? 122))
  || (c =? 95).

(** Group 1: the longest run of word characters, and the rest. *)
Fixpoint span_word (s : jsstring) : jsstring * jsstring :=
  match s with
  | [] => ([], [])
  | c :: r =>
      if isWordChar c then let '(w, rest) := span_word r in (c :: w, rest)
      else ([], s)
  end.

(** Group 2 followed by the closing fence: the text before the first
    fence, and the text after it. *)
Fixpoint until_fence (s : jsstring) : option (jsstring * jsstring) :=
  if startsWith s fence then Some ([], drop 3 s)
  else match s with
       | [] => None
       | c :: r => push_unit c (until_fence r)
       end.

(** A match that starts at the head of [s]: the two groups and the
    text after the match. *)
Definition match_here (s : jsstring)
  : option (jsstring * jsstring * jsstring) :=
  if startsWith s fence then
    let '(lang, r) := span_word (drop 3 s) in
    match r with
    | c :: r' =>
        if c =? 10 then
          match until_fence r' with
          | Some (code, rest) => Some (lang, code, rest)
          | None => None
          end
        else None
    | [] => None
    end
  else None.

(** [codeRegex.exec(content)] on the suffix [s] that starts at
    [lastIndex]: the text skipped before the leftmost match, the two
    groups, and the suffix after the match. *)
Fixpoint regex_exec (s : jsstring)
  : option (jsstring * jsstring * jsstring * jsstring) :=
  match match_here s with
  | Some (lang, code, rest) => Some ([], lang, code, rest)
  | None =>
      match s with
      | [] => None
      | c :: r =>
          match regex_exec r with
          | Some (skipped, lang, code, rest) =>
              Some (c :: skipped, lang, code, rest)
          | None => None
          end
      end
  end.

(** The [while] loop and the [if] after it; [s] is
    [content.slice(lastIndex)]. *)
Fixpoint scan_parts (fuel : nat) (s : jsstring) : list part :=
  match fuel with
  | O => []
  | S f =>
      match regex_exec s with
      | Some (skipped, lang, code, rest) =>
          (match skipped with [] => [] | _ :: _ => [Text skipped] end)
          ++ Code (match lang with [] => js "code" | _ :: _ => lang end) code
          :: scan_parts f rest
      | None =>
          match s with [] => [] | _ :: _ => [Text s] end
      end
  end.

(** The [parts] array that [MessageContent] renders. *)
Definition MessageContent (content : jsstring) : list part :=
  match scan_parts (S (length content)) content with
  | [] => [Text content]
  | parts => parts
  end.

(** ** The state of [App] (lines 448-469) *)

Inductive role := user | assistant.

#[global] Instance role_eq_dec : EqDecision role.
Proof. solve_decision. Defined.

Definition role_name (r : role) : jsstring :=
  match r with
  | user => js "user"
  | assistant => js "assistant"
  end.

(** A message.  [content] is a value, not a string: the non-streaming
    path stores whatever truthy value the response carries. *)
Record message := {
  msg_id : jsstring;
  msg_role : role;
  content : jsval;
  timestamp : jsstring
}.

Record chat := {
  chat_id : jsstring;
  title : jsstring;
  messages : list message;
  createdAt : jsstring
}.

Record Settings := {
  connectionType : jsstring;
  cloudEndpoint : jsstring;
  apiKey : jsstring;
  model : jsstring;
  localEndpoint : jsstring;
  localModel : jsstring;
  temperature : jsval;
  topP : jsval;
  maxTokens : jsval;
  streaming : bool;
  systemPrompt : jsstring
}.

Record app_state := {
  chats : list chat;
  activeChat : option jsstring;   (* [None] is null *)
  inputValue : jsstring;
  isLoading : bool;
  streamingMessage : jsstring;
  settings : Settings
}.

(** The first message of a chat that the user wrote. *)
Definition first_user_message (c : chat) : option message :=
  snd <$> list_find (fun m => msg_role m = user) (messages c).

(** [chats.find(c => c.id === activeChat)] *)
Definition currentChat (s : app_state) : option chat :=
  match activeChat s with
  | Some a => snd <$> list_find (fun c => chat_id c = a) (chats s)
  | None => None
  end.

(** ** [createNewChat] and [deleteChat] (lines 512-530)

    [id] and [now] are the results of [generateId()] and of
    [new Date().toISOString()]. *)

Definition createNewChat (id now : jsstring) (s : app_state) : app_state :=
  let newChat :=
    {| chat_id := id; title := js "New Chat"; messages := [];
       createdAt := now |} in
  {| chats := newChat :: chats s;
     activeChat := Some (chat_id newChat);
     inputValue := [];
     isLoading := isLoading s;
     streamingMessage := streamingMessage s;
     settings := settings s |}.

Definition deleteChat (chatId : jsstring) (s : app_state) : app_state :=
  let remaining := filter (fun c => chat_id c <> chatId) (chats s) in
  {| chats := remaining;
     activeChat :=
       if decide (activeChat s = Some chatId) then
         match remaining with
         | c :: _ => Some (chat_id c)
         | [] => None
         end
       else activeChat s;
     inputValue := inputValue s;
     isLoading := isLoading s;
     streamingMessage := streamingMessage s;
     settings := settings s |}.

(** ** The completion request (lines 574-606) *)

Record api_message := {
  api_role : jsstring;
  api_content : jsval
}.

(** The object handed to [JSON.stringify]. *)
Record request_body := {
  body_model : jsstring;
  body_messages : list api_message;
  body_temperature : jsval;
  body_top_p : jsval;
  body_max_tokens : jsval;
  body_stream : bool
}.

Record http_request := {
  url : jsstring;
  method : jsstring;
  headers : list (jsstring * jsstring);
  payload : request_body
}.

Definition build_request (cfg : Settings) (history : list message)
  : http_request :=
  let cloud := bool_decide (connectionType cfg = js "cloud") in
  let endpoint := if cloud then cloudEndpoint cfg else localEndpoint cfg in
  let model := if cloud then model cfg else localModel cfg in
  let messages :=
    {| api_role := js "system"; api_content := JStr (systemPrompt cfg) |}
    :: map (fun m => {| api_role := role_name (msg_role m);
                        api_content := content m |}) history in
  let headers :=
    [(js "Content-Type", js "application/json")]
    ++ (if cloud && negb (bool_decide (apiKey cfg = []))
        then [(js "Authorization", js "Bearer " ++ apiKey cfg)]
        else []) in
  {| url := endpoint ++ js "/chat/completions";
     method := js "POST";
     headers := headers;
     payload :=
       {| body_model := model;
          body_messages := messages;
          body_temperature := temperature cfg;
          body_top_p := topP cfg;
          body_max_tokens := maxTokens cfg;
          body_stream := streaming cfg |} |}.

(** ** [sendMessage] (lines 532-688) *)

(** What [fetch] and the response body deliver. *)
Record response := {
  status : N;
  stream : option body   (* [response.body]; [None] is null *)
}.

(** [response.ok] *)
Definition ok (r : response) : bool := (200 <=? status r) && (status r <=? 299).

Inductive fetch_result :=
| FetchRejected (e : js_error)
| FetchResponse (r : response).

(** The inputs of one turn that come from outside: three calls of
    [generateId()], three of [new Date().toISOString()], and the
    network's answer to the request. *)
Record turn_env := {
  new_chat_id : jsstring;
  new_chat_time : jsstring;
  user_msg_id : jsstring;
  user_msg_time : jsstring;
  reply_msg_id : jsstring;
  reply_msg_time : jsstring;
  network : http_request -> fetch_result
}.

(** [inputValue.slice(0, 50) + (inputValue.length > 50 ? '...' : '')] *)
Definition title_of (inputValue : jsstring) : jsstring :=
  slice_to 50 inputValue
  ++ (if bool_decide (50 < length inputValue)%nat then js "..." else []).

(** [!chatId]: null and the empty string are falsy. *)
Definition falsy_id (chatId : option jsstring) : bool :=
  match chatId with
  | None | Some [] => true
  | Some (_ :: _) => false
  end.

(** [updatedChats.findIndex(c => c.id === chatId)]; [None] is -1. *)
Definition findIndex (chatId : jsstring) (l : list chat) : option nat :=
  fst <$> list_find (fun c => chat_id c = chatId) l.

(** [{ ...c, messages, title }] *)
Definition update_chat (c : chat) (title' : jsstring)
    (messages' : list message) : chat :=
  {| chat_id := chat_id c; title := title'; messages := messages';
     createdAt := createdAt c |}.

(** Lines 557-566: the user message is appended to the chat at
    [chatIndex], and the title is set when that chat had no message.
    The block has no statement that throws. *)
Definition append_user (updatedChats : list chat) (chatId : jsstring)
    (userMessage : message) (inputValue : jsstring)
  : outcome (list chat * option nat) :=
  let chatIndex := findIndex chatId updatedChats in
  match chatIndex with
  | Some i =>
      match updatedChats !! i with
      | Some c =>
          Returned
            (<[i := update_chat c
                      (if bool_decide (length (messages c) = 0%nat)
                       then title_of inputValue else title c)
                      (messages c ++ [userMessage])]> updatedChats,
             chatIndex)
      | None => Returned (updatedChats, chatIndex)
      end
  | None => Returned (updatedChats, chatIndex)
  end.

(** Lines 653-663 and 673-683: the updater given to [setChats] for the
    assistant's message and for the error message. *)
Definition append_reply (prev : list chat) (chatId : jsstring) (m : message)
  : outcome (list chat) :=
  let newChats := prev in
  match findIndex chatId newChats with
  | Some idx =>
      match newChats !! idx with
      | Some c =>
          Returned
            (<[idx := update_chat c (title c) (messages c ++ [m])]> newChats)
      | None => Returned newChats
      end
  | None => Returned newChats
  end.

(** [try { ... } catch (error) { ... }] *)
Definition try_catch {A} (block : outcome A) (handler : js_error -> outcome A)
  : outcome A :=
  match block with
  | Returned a => Returned a
  | Thrown e => handler e
  end.

(** The warning text of line 669. *)
Definition error_text (reason : jsstring) : jsstring :=
  [0x26A0; 0xFE0F] ++ js " Error: " ++ reason ++ [10; 10]
  ++ js "Please check your API settings and try again.".

Section Turn.

Variable E : engine.

(** [await response.json()] *)
Definition response_json (r : response) : outcome jsval :=
  match stream r with
  | None => Thrown (EngineError JsonSyntax)
  | Some b =>
      match failure b with
      | Some e => Thrown e
      | None =>
          match JSON_parse (TextDecoder_decode (concat (chunks b))) with
          | Some data => Returned data
          | None => Thrown (EngineError JsonSyntax)
          end
      end
  end.

(** Lines 608-644, from the check of the status to the final value of
    [assistantContent]; with it, the arguments of the calls of
    [setStreamingMessage] made on the way. *)
Definition receive (cfg : Settings) (r : response)
  : list jsstring * outcome jsval :=
  if negb (ok r) then
    ([], Thrown (JsError (js "API Error: " ++ decimal (status r))))
  else if streaming cfg then
    match stream r with
    | None => ([], Thrown (EngineError ReadOfNull))
    | Some b =>
        let '(st, end_of_stream) := read_stream E start b in
        (emitted st,
         match end_of_stream with
         | Some e => Thrown e
         | None => Returned (JStr (assistantContent st))
         end)
    end
  else
    ([],
     data ← response_json r;
     choices ← member (get_named (js "choices")) (Some data);
     Returned
       (or_else E
          (optional (get_named (js "content"))
             (optional (get_named (js "message"))
                (optional get_index0 choices)))
          (JStr (js "No response received.")))).

(** The [try] block up to the value of [assistantContent] (lines
    574-644): the request if one was sent, the snapshots shown while
    streaming, and the value or what was thrown. *)
Record attempt := {
  sent : option http_request;
  shown : list jsstring;
  result : outcome jsval
}.

Definition complete (env : turn_env) (cfg : Settings)
    (updatedChats : list chat) (chatIndex : option nat) : attempt :=
  match chatIndex ≫= (updatedChats !!.) with
  | None =>
      (* [updatedChats[-1].messages] *)
      {| sent := None; shown := [];
         result := Thrown (EngineError ReadOfNull) |}
  | Some c =>
      let req := build_request cfg (messages c) in
      match network env req with
      | FetchRejected e =>
          {| sent := Some req; shown := []; result := Thrown e |}
      | FetchResponse r =>
          let '(snapshots, value) := receive cfg r in
          {| sent := Some req; shown := snapshots; result := value |}
      end
  end.

(** What a turn leaves behind: the state after it, the request that was
    sent if one was, and the snapshots shown while streaming. *)
Record turn := {
  final : app_state;
  request : option http_request;
  deltas : list jsstring
}.

(** One call of [sendMessage], run to completion: no other handler of
    [App] runs while the request is outstanding. *)
Definition sendMessage (env : turn_env) (s : app_state) : outcome turn :=
  if bool_decide (trim (inputValue s) = []) || isLoading s then
    Returned {| final := s; request := None; deltas := [] |}
  else
    let '(chatId, updatedChats, active) :=
      match activeChat s with
      | Some (u :: id) => (u :: id, chats s, activeChat s)
      | Some [] | None =>
          let newChat :=
            {| chat_id := new_chat_id env;
               title := title_of (inputValue s);
               messages := [];
               createdAt := new_chat_time env |} in
          (chat_id newChat, newChat :: chats s, Some (chat_id newChat))
      end in
    let userMessage :=
      {| msg_id := user_msg_id env; msg_role := user;
         content := JStr (inputValue s); timestamp := user_msg_time env |} in
    '(updatedChats, chatIndex) ←
      append_user updatedChats chatId userMessage (inputValue s);
    let a := complete env (settings s) updatedChats chatIndex in
    newChats ←
      try_catch
        (assistantContent ← result a;
         append_reply updatedChats chatId
           {| msg_id := reply_msg_id env; msg_role := assistant;
              content := assistantContent;
              timestamp := reply_msg_time env |})
        (fun error =>
           append_reply updatedChats chatId
             {| msg_id := reply_msg_id env; msg_role := assistant;
                content := JStr (error_text (error_message E error));
                timestamp := reply_msg_time env |});
    Returned
      {| final :=
           {| chats := newChats;
              activeChat := active;
              inputValue := [];
              isLoading := false;
              streamingMessage := [];
              settings := settings s |};
         request := sent a;
         deltas := shown a |}.

End Turn.

(** ** Sequences of user actions *)

Inductive store_op :=
| Create (id now : jsstring)
| Delete (chatId : jsstring).

Definition apply_op (s : app_state) (op : store_op) : app_state :=
  match op with
  | Create id now => createNewChat id now s
  | Delete chatId => deleteChat chatId s
  end.

(** What the user can do to [App]: the two operations above, a click
    on the [i]-th chat of the side bar ([setActiveChat(chat.id)]),
    typing ([setInputValue]), and sending. *)
Inductive action :=
| Store (op : store_op)
| Select (i : nat)
| Input (text : jsstring)
| Send (env : turn_env).

Definition select (i : nat) (s : app_state) : app_state :=
  match chats s !! i with
  | Some c =>
      {| chats := chats s; activeChat := Some (chat_id c);
         inputValue := inputValue s; isLoading := isLoading s;
         streamingMessage := streamingMessage s; settings := settings s |}
  | None => s
  end.

Definition setInputValue (text : jsstring) (s : app_state) : app_state :=
  {| chats := chats s; activeChat := activeChat s;
     inputValue := text; isLoading := isLoading s;
     streamingMessage := streamingMessage s; settings := settings s |}.

Definition step (E : engine) (s : app_state) (a : action) : outcome app_state :=
  match a with
  | Store op => Returned (apply_op s op)
  | Select i => Returned (select i s)
  | Input text => Returned (setInputValue text s)
  | Send env => t ← sendMessage E env s; Returned (final t)
  end.

Fixpoint run (E : engine) (s : app_state) (l : list action)
  : outcome app_state :=
  match l with
  | [] => Returned s
  | a :: l' => s' ← step E s a; run E s' l'
  end.

(** The state [App] starts from when nothing was saved. *)
Definition initial (cfg : Settings) : app_state :=
  {| chats := []; activeChat := None; inputValue := [];
     isLoading := false; streamingMessage := []; settings := cfg |}.

(** ** The text parts as HTML (lines 100-108)

    A text part is set as [innerHTML] after three replacements: a pair
    of double asterisks around a lazy run of characters other than line
    terminators becomes [strong], a pair of single asterisks becomes
    [em], and every line feed becomes [br]. *)

(** The characters the dot of a regular expression does not match. *)
Definition isLineTerminator (c : N) : bool :=
  (c =? 10) || (c =? 13) || (c =? 0x2028) || (c =? 0x2029).

(** The lazy group and the closing delimiter: the shortest run without
    a line terminator that [delim] follows, and the text after
    [delim]. *)
Fixpoint lazy_until (delim s : jsstring) : option (jsstring * jsstring) :=
  if startsWith s delim then Some ([], drop (length delim) s)
  else match s with
       | [] => None
       | c :: r =>
           if isLineTerminator c then None
           else push_unit c (lazy_until delim r)
       end.

(** A match of [delim], group, [delim] that starts at the head of [s]. *)
Definition match_wrapped (delim s : jsstring)
  : option (jsstring * jsstring) :=
  if startsWith s delim then lazy_until delim (drop (length delim) s)
  else None.

(** [s.replace(re, open + '$1' + close)] for the global expression
    [re] of [delim], group, [delim]: the matches are looked for from
    left to right, each after the end of the one before. *)
Fixpoint replace_wrapped (fuel : nat) (delim open close s : jsstring)
  : jsstring :=
  match fuel with
  | O => []
  | S f =>
      match s with
      | [] => []
      | c :: r =>
          match match_wrapped delim s with
          | Some (group, rest) =>
              open ++ group ++ close ++ replace_wrapped f delim open close rest
          | None => c :: replace_wrapped f delim open close r
          end
      end
  end.

Definition replace_strong (s : jsstring) : jsstring :=
  replace_wrapped (S (length s)) (js "**") (js "<strong>") (js "</strong>") s.

Definition replace_em (s : jsstring) : jsstring :=
  replace_wrapped (S (length s)) (js "*") (js "<em>") (js "</em>") s.

(** [s.replace(/\n/g, '<br>')] *)
Fixpoint replace_newlines (s : jsstring) : jsstring :=
  match s with
  | [] => []
  | c :: r =>
      if c =? 10 then js "<br>" ++ replace_newlines r
      else c :: replace_newlines r
  end.

(** The [__html] of a text part. *)
Definition text_html (content : jsstring) : jsstring :=
  replace_newlines (replace_em (replace_strong content)).

(** ** [detectHtmlCode] and [extractHtmlContent] (lines 16-23) *)

(** The opening of an HTML block: a fence, the word html, a line
    feed. *)
Definition html_open : jsstring := fence ++ js "html" ++ [10].

(** A match of the expression of [detectHtmlCode] that starts at the
    head of [s]: the matched text and the text after it.  The lazy group
    ends at the first fence. *)
Definition html_match_here (s : jsstring) : option (jsstring * jsstring) :=
  if startsWith s html_open then
    match until_fence (drop (length html_open) s) with
    | Some (code, rest) => Some (html_open ++ code ++ fence, rest)
    | None => None
    end
  else None.

(** The matches of the global expression, from left to right, each
    looked for after the end of the one before. *)
Fixpoint html_matches (fuel : nat) (s : jsstring) : list jsstring :=
  match fuel with
  | O => []
  | S f =>
      match s with
      | [] => []
      | _ :: r =>
          match html_match_here s with
          | Some (m, rest) => m :: html_matches f rest
          | None => html_matches f r
          end
      end
  end.

(** [text.match(htmlRegex)]: the matched texts; [None] is the null of a
    text without a match. *)
Definition detectHtmlCode (text : jsstring) : option (list jsstring) :=
  match html_matches (S (length text)) text with
  | [] => None
  | blocks => Some blocks
  end.

(** [s.replace(p, '')] for a pattern [p] of literal characters without
    the global flag: the first occurrence is removed. *)
Fixpoint remove_first (p s : jsstring) : jsstring :=
  if startsWith s p then drop (length p) s
  else match s with
       | [] => []
       | c :: r => c :: remove_first p r
       end.

(** [s.replace(/```$/, '')]: a fence that ends the string is removed. *)
Fixpoint remove_final_fence (s : jsstring) : jsstring :=
  match s with
  | [] => []
  | c :: r => if decide (s = fence) then [] else c :: remove_final_fence r
  end.

Definition extractHtmlContent (codeBlock : jsstring) : jsstring :=
  remove_final_fence (remove_first html_open codeBlock).

(** ** [testConnection] (lines 129-151) *)

(** The request of the connection test: a GET without body. *)
Record probe_request := {
  probe_url : jsstring;
  probe_headers : list (jsstring * jsstring)
}.

Definition probe (localSettings : Settings) : probe_request :=
  let cloud := bool_decide (connectionType localSettings = js "cloud") in
  let endpoint :=
    if cloud then cloudEndpoint localSettings
    else localEndpoint localSettings in
  {| probe_url := endpoint ++ js "/models";
     probe_headers :=
       if cloud && negb (bool_decide (apiKey localSettings = []))
       then [(js "Authorization", js "Bearer " ++ apiKey localSettings)]
       else [] |}.

(** The [testStatus] that the test leaves until the timer clears it. *)
Definition testConnection (localSettings : Settings)
    (fetch : probe_request -> fetch_result) : jsstring :=
  match fetch (probe localSettings) with
  | FetchResponse r => if ok r then js "success" else js "error"
  | FetchRejected _ => js "error"
  end.

(** ** The send button (line 899) *)

(** [disabled: isLoading || !inputValue.trim()] *)
Definition send_disabled (s : app_state) : bool :=
  isLoading s || bool_decide (trim (inputValue s) = []).

(** ** [JSON.stringify] (lines 374 and 493)

    The serialization of ECMA-262 for the values [JSON.parse] can
    build; [gap] is the indentation unit, empty when no third argument
    is given. *)

(** A lowercase hexadecimal digit. *)
Definition hexdigit (n : N) : N := if n <? 10 then 48 + n else 87 + n.

(** UnicodeEscape: a reverse solidus, the letter u and four digits. *)
Definition unicode_escape (c : N) : jsstring :=
  [92; 117; hexdigit (c / 4096 mod 16); hexdigit (c / 256 mod 16);
   hexdigit (c / 16 mod 16); hexdigit (c mod 16)].

Definition isHighSurrogate (c : N) : bool := (0xD800 <=? c) && (c <=? 0xDBFF).
Definition isLowSurrogate (c : N) : bool := (0xDC00 <=? c) && (c <=? 0xDFFF).

(** A code unit that is not a surrogate, as QuoteJSONString writes
    it. *)
Definition quote_unit (c : N) : jsstring :=
  if c =? 8 then [92; 98]
  else if c =? 9 then [92; 116]
  else if c =? 10 then [92; 110]
  else if c =? 12 then [92; 102]
  else if c =? 13 then [92; 114]
  else if c =? 34 then [92; 34]
  else if c =? 92 then [92; 92]
  else if c <? 32 then unicode_escape c
  else [c].

(** The code points of a string, one after the other: a surrogate pair
    is copied, a surrogate on its own is escaped. *)
Fixpoint quote_units (s : jsstring) : jsstring :=
  match s with
  | [] => []
  | c :: r =>
      if isHighSurrogate c then
        match r with
        | d :: r' =>
            if isLowSurrogate d then c :: d :: quote_units r'
            else unicode_escape c ++ quote_units r
        | [] => unicode_escape c
        end
      else if isLowSurrogate c then unicode_escape c ++ quote_units r
      else quote_unit c ++ quote_units r
  end.

Definition QuoteJSONString (s : jsstring) : jsstring :=
  34 :: quote_units s ++ [34].

(** [partial.join(separator)] *)
Fixpoint join_with (separator : jsstring) (partial : list jsstring)
  : jsstring :=
  match partial with
  | [] => []
  | x :: r =>
      match r with
      | [] => x
      | _ :: _ => x ++ separator ++ join_with separator r
      end
  end.

Section Stringify.

Variable E : engine.
Variable gap : jsstring.

(** A number prints as [ToString] has it when it is finite, and as
    null otherwise. *)
Definition number_json (lit : jsstring) : jsstring :=
  let t := number_toString E lit in
  if bool_decide (t = js "Infinity" \/ t = js "-Infinity" \/ t = js "NaN")
  then js "null" else t.

(** The text of an array or of an object from the texts of its
    elements or members: [stepback] is the indentation around it. *)
Definition wrap (open close : N) (stepback : jsstring)
    (partial : list jsstring) : jsstring :=
  match partial with
  | [] => [open; close]
  | _ :: _ =>
      match gap with
      | [] => open :: join_with [44] partial ++ [close]
      | _ :: _ =>
          let indent := stepback ++ gap in
          open :: 10 :: indent ++ join_with (44 :: 10 :: indent) partial
          ++ 10 :: stepback ++ [close]
      end
  end.

(** SerializeJSONProperty for a value without [toJSON]; the members of
    an object are written in the order of the list, which is the order
    of its properties when no key is an array index. *)
Fixpoint SerializeJSONProperty (indent : jsstring) (v : jsval) : jsstring :=
  match v with
  | JNull => js "null"
  | JBool b => if b then js "true" else js "false"
  | JNum lit => number_json lit
  | JStr s => QuoteJSONString s
  | JArr items =>
      wrap 91 93 indent (map (SerializeJSONProperty (indent ++ gap)) items)
  | JObj members =>
      wrap 123 125 indent
        (map (fun '(k, x) =>
                QuoteJSONString k ++ [58]
                ++ (match gap with [] => [] | _ :: _ => [32] end)
                ++ SerializeJSONProperty (indent ++ gap) x)
             members)
  end.

End Stringify.

(** [JSON.stringify(value)] and [JSON.stringify(value, null, 2)] *)
Definition JSON_stringify (E : engine) (value : jsval) : jsstring :=
  SerializeJSONProperty E [] [] value.

Definition JSON_stringify_2 (E : engine) (value : jsval) : jsstring :=
  SerializeJSONProperty E (js "  ") [] value.

(** ** Chats as values (lines 513-518, 539-565, 646-671)

    The objects behind the records, with their properties in the order
    in which the object literals of the source create them. *)

Definition message_value (m : message) : jsval :=
  JObj [(js "id", JStr (msg_id m));
        (js "role", JStr (role_name (msg_role m)));
        (js "content", content m);
        (js "timestamp", JStr (timestamp m))].

Definition chat_value (c : chat) : jsval :=
  JObj [(js "id", JStr (chat_id c));
        (js "title", JStr (title c));
        (js "messages", JArr (map message_value (messages c)));
        (js "createdAt", JStr (createdAt c))].

(** What the effect of line 493 stores under [loanlens-chats], and the
    [data] of [exportAsJson] (line 374). *)
Definition saved_chats (E : engine) (l : list chat) : jsstring :=
  JSON_stringify E (JArr (map chat_value l)).

Definition exportAsJson (E : engine) (c : chat) : jsstring :=
  JSON_stringify_2 E (chat_value c).

(** A value that holds no number. *)
Fixpoint number_free (v : jsval) : bool :=
  match v with
  | JNum _ => false
  | JArr items => forallb number_free items
  | JObj members => forallb (fun '(_, x) => number_free x) members
  | _ => true
  end.

(** ** Predicates of the properties *)

(** The active chat, when there is one, is a chat of the collection. *)
Definition pointer_valid (s : app_state) : Prop :=
  match activeChat s with
  | None => True
  | Some a => exists c, c ∈ chats s /\ chat_id c = a
  end.

(** The messages of the chat a turn will write to: those of the active
    chat, or none when the turn has to create the chat. *)
Definition prior_messages (s : app_state) : list message :=
  if falsy_id (activeChat s) then []
  else from_option messages [] (currentChat s).

(** A chat that has messages starts with a message of the user, and
    is titled after the text of that message. *)
Definition titled (c : chat) : Prop :=
  match messages c with
  | [] => True
  | m :: _ =>
      msg_role m = user
      /\ exists text, content m = JStr text /\ title c = title_of text
  end.

(** What a later turn may do to a chat: add messages, and set the title
    only if there was no message. *)
Definition extends (c c' : chat) : Prop :=
  chat_id c' = chat_id c
  /\ messages c `prefix_of` messages c'
  /\ (messages c <> [] -> title c' = title c).

(** The snapshots of a reader grow: each one is a prefix of the later
    ones and of the text accumulated, and the text accumulated is the
    last snapshot as soon as there is one. *)
Definition coherent (st : reader_state) : Prop :=
  (forall i j x y,
     emitted st !! i = Some x -> emitted st !! j = Some y -> (i <= j)%nat ->
     x `prefix_of` y)
  /\ (forall x, x ∈ emitted st -> x `prefix_of` assistantContent st)
  /\ (emitted st <> [] -> last (emitted st) = Some (assistantContent st)).

(** One reader state continues another: more text, more snapshots. *)
Definition continues (st st' : reader_state) : Prop :=
  assistantContent st `prefix_of` assistantContent st'
  /\ emitted st `prefix_of` emitted st'.

(** A pending sequence never accepts a byte below 0x80. *)
Definition pending_ok (st : option pending) : Prop :=
  match st with
  | Some (_, _, lo, _) => 0x80 <= lo
  | None => True
  end.

(** The message of the user in a turn (lines 550-555). *)
Definition user_message (env : turn_env) (s : app_state) : message :=
  {| msg_id := user_msg_id env; msg_role := user;
     content := JStr (inputValue s); timestamp := user_msg_time env |}.

(** What comes back for a request: the snapshots shown, and the value
    of [assistantContent] or what was thrown. *)
Definition answer (E : engine) (env : turn_env) (cfg : Settings)
    (req : http_request) : list jsstring * outcome jsval :=
  match network env req with
  | FetchRejected e => ([], Thrown e)
  | FetchResponse r => receive E cfg r
  end.

(** The assistant message a turn commits for such an outcome (lines
    646-651 and 666-671). *)
Definition reply_message (E : engine) (env : turn_env) (o : outcome jsval)
  : message :=
  {| msg_id := reply_msg_id env; msg_role := assistant;
     content := match o with
                | Returned assistantContent => assistantContent
                | Thrown error => JStr (error_text (error_message E error))
                end;
     timestamp := reply_msg_time env |}.

(** A turn that the guard of line 533 lets through, in a state where
    it finds the chat to write to. *)
Definition accepted (s : app_state) : Prop :=
  trim (inputValue s) <> []
  /\ isLoading s = false
  /\ (falsy_id (activeChat s) = true \/ pointer_valid s).

(** The request of an accepted turn. *)
Definition turn_request (env : turn_env) (s : app_state) : http_request :=
  build_request (settings s) (prior_messages s ++ [user_message env s]).

(** Turns alternate: the messages at even positions are the user's,
    those at odd positions the assistant's, and they come in pairs. *)
Definition alternating (l : list message) : Prop :=
  Nat.even (length l) = true
  /\ forall i m, l !! i = Some m ->
       msg_role m = if Nat.even i then user else assistant.

(** There is an active chat as soon as there is a chat. *)
Definition some_active (s : app_state) : Prop :=
  activeChat s = None -> chats s = [].

(** The piece of the message a part was cut from: a text part is its
    text; a code part is an opening fence, the language as written (the
    one shown, or nothing when [code] is shown for a missing language),
    a line feed, the code, and a closing fence. *)
Definition part_source (p : part) (src : jsstring) : Prop :=
  match p with
  | Text t => src = t
  | Code lang code =>
      exists written,
        src = fence ++ written ++ 10 :: code ++ fence
        /\ (written = lang \/ written = [] /\ lang = js "code")
  end.

(** What every part of a non-empty message looks like. *)
Definition part_ok (p : part) : Prop :=
  match p with
  | Text t => t <> []
  | Code lang code =>
      lang <> []
      /\ Forall (fun c => isWordChar c = true) lang
      /\ includes code fence = false
  end.

(** The content of the message is a string. *)
Definition is_text (m : message) : Prop := exists t, content m = JStr t.

Definition all_text (l : list chat) : Prop :=
  Forall (fun c => Forall is_text (messages c)) l.

(** No message of the chats holds a number, at any depth. *)
Definition number_free_chat (c : chat) : Prop :=
  Forall (fun m => number_free (content m) = true) (messages c).

(** What [JSON.stringify] writes before an element, a member or a
    closing bracket, and after a colon: nothing when [gap] is empty. *)
Definition line_break (gap indent : jsstring) : jsstring :=
  match gap with [] => [] | _ :: _ => 10 :: indent end.

Definition colon_space (gap : jsstring) : jsstring :=
  match gap with [] => [] | _ :: _ => [32] end.

(** The text of a member of an object. *)
Definition member_text (E : engine) (gap indent : jsstring)
  : jsstring * jsval -> jsstring :=
  fun '(k, x) =>
    QuoteJSONString k ++ [58] ++ colon_space gap
    ++ SerializeJSONProperty E gap indent x.

(** The text of a value without number, followed by anything, parses
    back to the value and leaves what follows. *)
Definition parses_back (E : engine) (gap : jsstring) (v : jsval) : Prop :=
  number_free v = true ->
  forall indent rest f,
    Forall (fun c => isJsonWs c = true) indent ->
    (2 * length (SerializeJSONProperty E gap indent v ++ rest) + 1 <= f)%nat ->
    parse_value f (SerializeJSONProperty E gap indent v ++ rest)
    = Some (v, rest).

(** ** Data of the examples *)

(** The three lines of the accumulation example.  They are ASCII, so
    their code units are their UTF-8 bytes as well. *)
Definition line_A : jsstring :=
  dq "data: {'choices':[{'delta':{'content':'A'}}]}".
Definition line_B : jsstring :=
  dq "data: {'choices':[{'delta':{'content':'B'}}]}".
Definition line_DONE : jsstring := js "data: [DONE]".

(** A line with the prefix and a payload that is not JSON. *)
Definition line_bad : jsstring := js "data: {oops".

(** The same lines as one chunk of bytes, each line ended by a line
    feed, and as one chunk per line. *)
Definition one_chunk : body :=
  {| chunks := [line_A ++ [10] ++ line_B ++ [10] ++ line_DONE ++ [10]];
     failure := None |}.
Definition chunk_per_line : body :=
  {| chunks := [line_A ++ [10]; line_B ++ [10]; line_DONE ++ [10]];
     failure := None |}.

(** The line that carries "A", cut after 25 bytes. *)
Definition fragment_1 : list N := dq "data: {'choices':[{'delta".
Definition fragment_2 : list N := dq "':{'content':'A'}}]}" ++ [10].

(** An engine for the examples: a number prints as it was written. *)
Definition plain_engine : engine :=
  {| number_truthy := fun _ => true;
     number_toString := fun literal => literal;
     fault_message := fun _ => js "TypeError" |}.

(** The default settings of line 456, with a key and a short prompt. *)
Definition cloud_settings : Settings :=
  {| connectionType := js "cloud";
     cloudEndpoint := js "https://text.pollinations.ai/openai";
     apiKey := js "sk-1";
     model := js "openai";
     localEndpoint := js "http://localhost:11434/v1";
     localModel := js "llama2";
     temperature := JNum (js "0.7");
     topP := JNum (js "0.95");
     maxTokens := JNum (js "2048");
     streaming := true;
     systemPrompt := js "You are LoanLens AI." |}.

(** Outside inputs for the examples: the endpoint answers [r]. *)
Definition answering (r : response) : turn_env :=
  {| new_chat_id := js "k3v9x2"; new_chat_time := js "2024-01-01T00:00:00Z";
     user_msg_id := js "u7"; user_msg_time := js "2024-01-01T00:00:01Z";
     reply_msg_id := js "r8"; reply_msg_time := js "2024-01-01T00:00:02Z";
     network := fun _ => FetchResponse r |}.

(** A fresh [App] in which the user typed [text]. *)
Definition typed (text : jsstring) : app_state :=
  setInputValue text (initial cloud_settings).

(** A message and a chat that holds it. *)
Definition sample_message : message :=
  {| msg_id := js "m1"; msg_role := user;
     content := JStr (js "What is APR?");
     timestamp := js "2024-01-01T00:00:01Z" |}.

Definition sample_chat : chat :=
  {| chat_id := js "c1"; title := js "What is APR?";
     messages := [sample_message];
     createdAt := js "2024-01-01T00:00:00Z" |}.

(** Outside inputs for the examples: [fetch] is rejected with [reason]. *)
Definition failing (reason : jsstring) : turn_env :=
  {| new_chat_id := js "k3v9x2"; new_chat_time := js "2024-01-01T00:00:00Z";
     user_msg_id := js "u7"; user_msg_time := js "2024-01-01T00:00:01Z";
     reply_msg_id := js "r8"; reply_msg_time := js "2024-01-01T00:00:02Z";
     network := fun _ => FetchRejected (JsError reason) |}.

(** A body that delivers the line carrying "A" and then fails. *)
Definition broken_stream : body :=
  {| chunks := [line_A ++ [10]];
     failure := Some (JsError (js "network error")) |}.

(** The settings of the examples with streaming switched off. *)
Definition plain_settings : Settings :=
  {| connectionType := connectionType cloud_settings;
     cloudEndpoint := cloudEndpoint cloud_settings;
     apiKey := apiKey cloud_settings;
     model := model cloud_settings;
     localEndpoint := localEndpoint cloud_settings;
     localModel := localModel cloud_settings;
     temperature := temperature cloud_settings;
     topP := topP cloud_settings;
     maxTokens := maxTokens cloud_settings;
     streaming := false;
     systemPrompt := systemPrompt cloud_settings |}.

(** * Properties *)

(** ** The model at work *)

Example parse_delta :
  JSON_parse (dq "{'choices':[{'delta':{'content':'A'}}]}")
  = Some (JObj [(js "choices",
                 JArr [JObj [(js "delta",
                              JObj [(js "content", JStr (js "A"))])]])]).
Proof. reflexivity. Qed.

Example parse_rejects :
  JSON_parse (js "[DONE]") = None
  /\ JSON_parse (js "{oops") = None
  /\ JSON_parse (js "[1,]") = None
  /\ JSON_parse (js "01") = None
  /\ JSON_parse [] = None.
Proof. by repeat split. Qed.

Example decode_example :
  TextDecoder_decode [0xEF; 0xBB; 0xBF; 0x41; 0xE2; 0x9A; 0xA0; 0xC0; 0x42]
  = [0x41; 0x26A0; 0xFFFD; 0x42].
Proof. reflexivity. Qed.

Example lines_example :
  lines_of (js "data: x" ++ [13; 10; 10] ++ js "  " ++ [10] ++ js ": ping")
  = [js "data: x" ++ [13]; js ": ping"].
Proof. reflexivity. Qed.

Example fenced_example :
  MessageContent (js "Try:" ++ [10] ++ js "```html" ++ [10] ++ js "<b>5%</b>"
                  ++ [10] ++ js "```" ++ js " and ```" ++ [10] ++ js "x```")
  = [Text (js "Try:" ++ [10]);
     Code (js "html") (js "<b>5%</b>" ++ [10]);
     Text (js " and ");
     Code (js "code") (js "x")].
Proof. reflexivity. Qed.

Example title_example :
  title_of (js "What does an APR of 5% mean for a 30-year fixed mortgage?")
  = js "What does an APR of 5% mean for a 30-year fixed mo...".
Proof. reflexivity. Qed.

(** ** Strings *)

Lemma startsWith_app s p : startsWith s p = true -> s = p ++ drop (length p) s.
Proof.
  revert s. induction p as [|a p IH]; intros [|b s] H; simpl in *; try done.
  apply andb_true_iff in H as [Hab H]. apply N.eqb_eq in Hab. subst.
  f_equal. by apply IH.
Qed.

Lemma startsWith_prefix p r : startsWith (p ++ r) p = true.
Proof.
  induction p as [|a p IH]; simpl; [done|].
  rewrite N.eqb_refl. exact IH.
Qed.

Lemma startsWith_length s p : startsWith s p = true -> (length p <= length s)%nat.
Proof.
  intros H. apply startsWith_app in H. rewrite H, length_app. lia.
Qed.

Lemma split_nonempty sep s : split sep s <> [].
Proof.
  destruct s as [|c s]; simpl; [done|].
  destruct (c =? sep); [done|]. by destruct (split sep s).
Qed.

Lemma split_app sep a b :
  split sep (a ++ sep :: b) = split sep a ++ split sep b.
Proof.
  induction a as [|c a IH]; simpl.
  - by rewrite N.eqb_refl.
  - destruct (c =? sep); [by rewrite IH|].
    rewrite IH. pose proof (split_nonempty sep a).
    by destruct (split sep a).
Qed.

Lemma split_line sep l : sep ∉ l -> split sep l = [l].
Proof.
  induction l as [|c l IH]; intros H; simpl; [done|].
  apply not_elem_of_cons in H as [Hc Hl].
  rewrite (proj2 (N.eqb_neq c sep)) by done. by rewrite IH.
Qed.

Lemma trimStart_nil s :
  trimStart s = [] -> Forall (fun c => isWhiteSpace c = true) s.
Proof.
  induction s as [|c s IH]; simpl; [done|].
  destruct (isWhiteSpace c) eqn:Hc; [|done]. intros H. constructor; auto.
Qed.

Lemma trimStart_suffix s :
  exists ws, s = ws ++ trimStart s
             /\ Forall (fun c => isWhiteSpace c = true) ws.
Proof.
  induction s as [|c s (ws & IH & Hws)]; simpl; [by exists []|].
  destruct (isWhiteSpace c) eqn:Hc; [|by exists []].
  exists (c :: ws). split; [by rewrite IH at 1|by constructor].
Qed.

(** [trim] leaves nothing exactly of the strings made of white space. *)
Lemma trim_nil s :
  trim s = [] -> Forall (fun c => isWhiteSpace c = true) s.
Proof.
  unfold trim, trimEnd. intros H.
  apply (f_equal (@rev N)) in H. rewrite rev_involutive in H. simpl in H.
  apply trimStart_nil, Forall_rev in H. rewrite rev_involutive in H.
  destruct (trimStart_suffix s) as (ws & Hs & Hws).
  rewrite Hs. by apply Forall_app.
Qed.

Lemma decode_ascii bs :
  Forall (fun b => b <= 0x7F) bs -> utf8_decode None bs = bs.
Proof.
  induction 1 as [|b bs Hb _ IH]; simpl; [done|].
  unfold utf8_lead. rewrite (proj2 (N.leb_le b 0x7F)) by done.
  simpl. by rewrite IH.
Qed.

Lemma TextDecoder_decode_ascii bs :
  Forall (fun b => b <= 0x7F) bs -> TextDecoder_decode bs = bs.
Proof.
  intros H. unfold TextDecoder_decode. rewrite decode_ascii by done.
  destruct H as [|b bs Hb _]; [done|].
  rewrite (proj2 (N.eqb_neq b 0xFEFF)); [done|]. lia.
Qed.

(** ** [JSON.parse] never runs out of fuel *)

Lemma skip_ws_length s : (length (skip_ws s) <= length s)%nat.
Proof.
  induction s as [|c s IH]; simpl; [done|].
  destruct (isJsonWs c); simpl; lia.
Qed.

Lemma push_unit_Some c r str rest :
  push_unit c r = Some (str, rest) ->
  exists str', r = Some (str', rest) /\ str = c :: str'.
Proof. destruct r as [[??]|]; simpl; intros; simplify_eq; eauto. Qed.

Lemma scan_string_length s str rest :
  scan_string s = Some (str, rest) -> (length rest < length s)%nat.
Proof.
  remember (length s) as n eqn:Hn. revert s str rest Hn.
  induction n as [n IH] using lt_wf_ind. intros s str rest -> H.
  destruct s as [|c r]; simpl in H; [done|].
  destruct (c =? 34); [simplify_eq; simpl; lia|].
  destruct (c =? 92).
  - destruct r as [|e r1]; [done|].
    destruct (e =? 117).
    + destruct r1 as [|h1 [|h2 [|h3 [|h4 r2]]]]; try done.
      destruct (hexval h1), (hexval h2), (hexval h3), (hexval h4); try done.
      apply push_unit_Some in H as (str' & H & _).
      match type of H with scan_string ?t = _ =>
        specialize (IH (length t) ltac:(simpl; lia) _ _ _ eq_refl H) end.
      simpl in *; lia.
    + destruct (escape e); [|done].
      apply push_unit_Some in H as (str' & H & _).
      match type of H with scan_string ?t = _ =>
        specialize (IH (length t) ltac:(simpl; lia) _ _ _ eq_refl H) end.
      simpl in *; lia.
  - destruct (c <? 32); [done|].
    apply push_unit_Some in H as (str' & H & _).
    match type of H with scan_string ?t = _ =>
        specialize (IH (length t) ltac:(simpl; lia) _ _ _ eq_refl H) end.
      simpl in *; lia.
Qed.

Lemma span_digits_length s ds rest :
  span_digits s = (ds, rest) -> length s = (length ds + length rest)%nat.
Proof.
  revert ds rest. induction s as [|c s IH]; intros ds rest H; simpl in H.
  - by simplify_eq.
  - destruct (isDigit c); [|by simplify_eq].
    destruct (span_digits s) as [ds' rest'] eqn:Hs. simplify_eq.
    simpl. by rewrite (IH _ _ eq_refl).
Qed.

Lemma scan_number_length s lit rest :
  scan_number s = Some (lit, rest) -> (length rest < length s)%nat.
Proof.
  unfold scan_number. intros H.
  repeat (case_match; simplify_eq; try done);
    repeat match goal with
    | H : span_digits _ = _ |- _ => apply span_digits_length in H
    end; simpl in *; lia.
Qed.

Lemma drop_startsWith_length s p :
  p <> [] -> startsWith s p = true ->
  (length (drop (length p) s) < length s)%nat.
Proof.
  intros Hp H. apply startsWith_length in H. rewrite length_drop.
  destruct p; [done|]. simpl in *. lia.
Qed.

Local Opaque js.

Local Ltac scanned :=
  repeat match goal with
    | H : scan_string _ = Some _ |- _ => apply scan_string_length in H
    | H : scan_number _ = Some _ |- _ => apply scan_number_length in H
    | H : skip_ws ?s = _ |- _ =>
        let L := fresh "L" in
        pose proof (skip_ws_length s) as L; rewrite H in L; clear H
    end.

Lemma parse_consumes f :
  (forall s v r, parse_value f s = Some (v, r) -> (length r < length s)%nat)
  /\ (forall s acc v r,
        parse_elements f s acc = Some (v, r) -> (length r < length s)%nat)
  /\ (forall s acc v r,
        parse_members f s acc = Some (v, r) -> (length r < length s)%nat).
Proof.
  induction f as [|f (IHv & IHe & IHm)]; [by repeat split|].
  repeat split.
  - intros s v r H. simpl in H.
    repeat case_match; simplify_eq;
      repeat match goal with
        | H : parse_members _ _ _ = Some _ |- _ => apply IHm in H
        | H : parse_elements _ _ _ = Some _ |- _ => apply IHe in H
        end;
      scanned; rewrite ?length_drop; simpl in *; lia.
  - intros s acc v r H. simpl in H.
    repeat case_match; simplify_eq;
      repeat match goal with
        | H : parse_value _ _ = Some _ |- _ => apply IHv in H
        | H : parse_elements _ _ _ = Some _ |- _ => apply IHe in H
        end;
      scanned; simpl in *; lia.
  - intros s acc v r H. simpl in H.
    repeat case_match; simplify_eq;
      repeat match goal with
        | H : parse_value _ _ = Some _ |- _ => apply IHv in H
        | H : parse_members _ _ _ = Some _ |- _ => apply IHm in H
        end;
      scanned; simpl in *; lia.
Qed.

(** With fuel above twice the length of the input, the result does not
    depend on the fuel. *)
Lemma parse_fuel f1 :
  forall f2,
  (forall s, (2 * length s + 1 <= f1)%nat -> (2 * length s + 1 <= f2)%nat ->
     parse_value f1 s = parse_value f2 s)
  /\ (forall s acc,
        (2 * length s + 2 <= f1)%nat -> (2 * length s + 2 <= f2)%nat ->
        parse_elements f1 s acc = parse_elements f2 s acc)
  /\ (forall s acc,
        (2 * length s + 2 <= f1)%nat -> (2 * length s + 2 <= f2)%nat ->
        parse_members f1 s acc = parse_members f2 s acc).
Proof.
  induction f1 as [|f1 IH]; intros f2; [repeat split; intros; lia|].
  destruct f2 as [|f2]; [repeat split; intros; lia|].
  destruct (IH f2) as (IHv & IHe & IHm). clear IH.
  repeat split.
  - intros s H1 H2. simpl.
    destruct (skip_ws s) as [|c t] eqn:Ht; [done|].
    destruct (skip_ws t) as [|c' t'] eqn:Ht'.
    + by repeat case_match.
    + scanned. simpl in *.
      repeat case_match; try done.
      * apply IHm; simpl; lia.
      * apply IHe; simpl; lia.
  - intros s acc H1 H2. simpl.
    rewrite <- (IHv s) by lia.
    destruct (parse_value f1 s) as [[v r]|] eqn:Hv; [|done].
    apply (proj1 (parse_consumes f1)) in Hv.
    destruct (skip_ws r) as [|c r'] eqn:Hr; [done|]. scanned. simpl in *.
    repeat case_match; try done. apply IHe; lia.
  - intros s acc H1 H2. simpl.
    destruct (skip_ws s) as [|q r] eqn:Hs; [done|].
    destruct (q =? 34); [|done].
    destruct (scan_string r) as [[k r1]|] eqn:Hk; [|done].
    destruct (skip_ws r1) as [|col r2] eqn:Hr1; [done|].
    destruct (col =? 58); [|done].
    scanned. simpl in *.
    rewrite <- (IHv r2) by lia.
    destruct (parse_value f1 r2) as [[v r3]|] eqn:Hv; [|done].
    apply (proj1 (parse_consumes f1)) in Hv.
    destruct (skip_ws r3) as [|c r4] eqn:Hr3; [done|]. scanned. simpl in *.
    repeat case_match; try done. apply IHm; lia.
Qed.

(** [JSON_parse] has all the fuel it can use: more changes nothing, so
    [None] is a syntax error and never an exhausted bound. *)
Lemma JSON_parse_fuel text f :
  (2 * length text + 2 <= f)%nat ->
  parse_value f text = parse_value (2 * length text + 2) text.
Proof. intros H. apply parse_fuel; lia. Qed.

Local Transparent js.

(** ** [MessageContent] *)

Lemma until_fence_length s code rest :
  until_fence s = Some (code, rest) -> (length rest < length s)%nat.
Proof.
  revert code rest. induction s as [|c s IH]; intros code rest H.
  - done.
  - cbn [until_fence] in H.
    destruct (startsWith (c :: s) fence) eqn:Hf.
    + simplify_eq. apply (drop_startsWith_length _ fence) in Hf; done.
    + apply push_unit_Some in H as (code' & H & _).
      apply IH in H. simpl. lia.
Qed.

Lemma match_here_length s lang code rest :
  match_here s = Some (lang, code, rest) -> (length rest < length s)%nat.
Proof.
  unfold match_here. intros H.
  destruct (startsWith s fence) eqn:Hf; [|done].
  destruct (span_word (drop 3 s)) as [w r] eqn:Hw.
  assert (length r <= length (drop 3 s))%nat as Hr.
  { clear -Hw. revert w r Hw. generalize (drop 3 s) as t.
    induction t as [|c t IH]; intros w r H; simpl in H; [by simplify_eq|].
    destruct (isWordChar c); [|by simplify_eq].
    destruct (span_word t) as [w' r'] eqn:Ht. simplify_eq.
    specialize (IH _ _ eq_refl). simpl. lia. }
  rewrite length_drop in Hr.
  destruct r as [|c r']; [done|]. destruct (c =? 10); [|done].
  destruct (until_fence r') as [[code' rest']|] eqn:Hu; [|done].
  simplify_eq. apply until_fence_length in Hu. simpl in *. lia.
Qed.

Lemma regex_exec_length s skipped lang code rest :
  regex_exec s = Some (skipped, lang, code, rest) ->
  (length rest < length s)%nat.
Proof.
  revert skipped. induction s as [|c s IH]; intros skipped H.
  - simpl in H. by destruct (match_here []).
  - cbn [regex_exec] in H.
    destruct (match_here (c :: s)) as [[[l k] r]|] eqn:Hm.
    + simplify_eq. by apply match_here_length in Hm.
    + destruct (regex_exec s) as [[[[sk l] k] r]|]; [|done].
      simplify_eq. specialize (IH _ eq_refl). simpl. lia.
Qed.

(** The loop of [MessageContent] has all the fuel it can use. *)
Lemma scan_parts_fuel f1 f2 s :
  (length s < f1)%nat -> (length s < f2)%nat ->
  scan_parts f1 s = scan_parts f2 s.
Proof.
  revert f2 s. induction f1 as [|f1 IH]; intros [|f2] s H1 H2; try lia.
  cbn [scan_parts].
  destruct (regex_exec s) as [[[[sk l] k] r]|] eqn:Hx; [|done].
  apply regex_exec_length in Hx. f_equal. f_equal. apply IH; lia.
Qed.

Lemma regex_exec_no_fence s : includes s fence = false -> regex_exec s = None.
Proof.
  induction s as [|c s IH]; intros H.
  - done.
  - cbn [includes] in H. apply orb_false_iff in H as [Hf H].
    cbn [regex_exec]. unfold match_here. rewrite Hf, (IH H). done.
Qed.

(** C9.  A text that contains no fence of three backticks, the empty
    text included, is rendered as exactly one part: a text part that
    holds the whole input. *)
Theorem MessageContent_no_fence (content : jsstring) :
  includes content fence = false ->
  MessageContent content = [Text content].
Proof.
  intros H. unfold MessageContent. cbn [scan_parts].
  rewrite (regex_exec_no_fence _ H). by destruct content.
Qed.

Lemma MessageContent_no_fence_witness :
  includes (js "APR is 5%") fence = false
  /\ MessageContent (js "APR is 5%") = [Text (js "APR is 5%")].
Proof.
  split; [reflexivity|]. apply MessageContent_no_fence. reflexivity.
Defined.

(** ** The streaming reader *)

Section Reader.

Variable E : engine.

(** A line that carries the prefix and a payload [JSON.parse] rejects
    leaves the reader as it was. *)
Lemma on_line_malformed st line :
  startsWith line (js "data: ") = true ->
  JSON_parse (slice_from 6 line) = None ->
  on_line E st line = st.
Proof.
  intros Hp Hj. unfold on_line, try_payload. rewrite Hp, Hj.
  by destruct (decide _).
Qed.

(** A line either leaves the reader as it was, or extends the
    accumulated text and shows the whole of it. *)
Lemma on_line_cumulative st line :
  on_line E st line = st
  \/ exists text,
       assistantContent (on_line E st line) = assistantContent st ++ text
       /\ emitted (on_line E st line)
          = emitted st ++ [assistantContent (on_line E st line)].
Proof.
  unfold on_line.
  destruct (startsWith line (js "data: ")); [|by left].
  destruct (decide _); [by left|].
  destruct (try_payload E (assistantContent st) (slice_from 6 line))
    as [content'|e] eqn:Hp; [|by left].
  right. unfold try_payload in Hp.
  destruct (JSON_parse _) as [parsed|]; [|done].
  destruct (delta_content parsed) as [c|]; [|done].
  cbn [mbind outcome_bind] in Hp.
  destruct (ToString E _) as [text|]; [|done].
  cbn [mbind outcome_bind] in Hp. simplify_eq. by exists text.
Qed.

Lemma on_line_no_prefix st line :
  startsWith line (js "data: ") = false -> on_line E st line = st.
Proof. intros Hp. unfold on_line. by rewrite Hp. Qed.

Lemma lines_of_app a b : lines_of (a ++ 10 :: b) = lines_of a ++ lines_of b.
Proof. unfold lines_of. by rewrite split_app, filter_app. Qed.

Lemma lines_of_line l : 10 ∉ l -> trim l <> [] -> lines_of l = [l].
Proof.
  intros Hl Ht. unfold lines_of. rewrite split_line by done.
  by rewrite filter_cons_True.
Qed.

(** A chunk is read through its lines only, and a malformed line among
    them changes nothing. *)
Lemma on_chunk_skip st value value' lines1 lines2 bad :
  startsWith bad (js "data: ") = true ->
  JSON_parse (slice_from 6 bad) = None ->
  lines_of (TextDecoder_decode value) = lines1 ++ bad :: lines2 ->
  lines_of (TextDecoder_decode value') = lines1 ++ lines2 ->
  on_chunk E st value = on_chunk E st value'.
Proof.
  intros Hp Hj Hv Hv'. unfold on_chunk.
  rewrite Hv, Hv', !foldl_app. cbn [foldl].
  by rewrite on_line_malformed.
Qed.

(** The same for a stream of ASCII bytes, where the line can be seen
    in the chunk: the chunk [a], line feed, [bad], line feed, [b] is
    read like the chunk [a], line feed, [b]. *)
Lemma on_chunk_skip_ascii st a b bad :
  Forall (fun x => x <= 0x7F) (a ++ bad ++ b) ->
  10 ∉ bad ->
  startsWith bad (js "data: ") = true ->
  JSON_parse (slice_from 6 bad) = None ->
  on_chunk E st (a ++ 10 :: bad ++ 10 :: b) = on_chunk E st (a ++ 10 :: b).
Proof.
  intros Hascii Hnl Hp Hj.
  apply Forall_app in Hascii as [Ha Hascii].
  apply Forall_app in Hascii as [Hbad Hb].
  assert (trim bad <> []) as Ht.
  { intros Ht%trim_nil. apply startsWith_app in Hp. rewrite Hp in Ht.
    by inversion Ht. }
  assert (Forall (fun x => x <= 0x7F) [10]) as H10 by (constructor; [lia|done]).
  apply (on_chunk_skip st _ _ (lines_of a) (lines_of b) bad Hp Hj).
  - rewrite TextDecoder_decode_ascii.
    + by rewrite lines_of_app, lines_of_app, (lines_of_line bad).
    + apply Forall_app. split; [done|]. constructor; [lia|].
      apply Forall_app. split; [done|]. by constructor; [lia|].
  - rewrite TextDecoder_decode_ascii; [by rewrite lines_of_app|].
    apply Forall_app. split; [done|]. by constructor; [lia|].
Qed.

(** The reader keeps nothing between two chunks but its state. *)
Lemma read_stream_app st cs1 cs2 fl :
  fst (read_stream E st {| chunks := cs1 ++ cs2; failure := fl |})
  = fst (read_stream E
           (fst (read_stream E st {| chunks := cs1; failure := None |}))
           {| chunks := cs2; failure := fl |}).
Proof. unfold read_stream. simpl. apply foldl_app. Qed.

End Reader.

(** C1.  The three lines of the example, read as one chunk or as one
    chunk per line, make the reader show "A" and then "AB"; the [DONE]
    line shows nothing, whatever the state it is read in; the
    accumulated text at the end is "AB", and it is the value the
    streaming path of a successful response ends with.  In general a
    line that shows something shows the whole text accumulated so far,
    which extends the text accumulated before. *)
Theorem streaming_accumulates (E : engine) :
  foldl (on_line E) start [line_A; line_B; line_DONE]
  = {| assistantContent := js "AB"; emitted := [js "A"; js "AB"] |}
  /\ (forall st, on_line E st line_DONE = st)
  /\ (forall st line,
        on_line E st line = st
        \/ exists text,
             assistantContent (on_line E st line) = assistantContent st ++ text
             /\ emitted (on_line E st line)
                = emitted st ++ [assistantContent (on_line E st line)])
  /\ read_stream E start one_chunk
     = ({| assistantContent := js "AB"; emitted := [js "A"; js "AB"] |}, None)
  /\ read_stream E start chunk_per_line
     = ({| assistantContent := js "AB"; emitted := [js "A"; js "AB"] |}, None)
  /\ (forall cfg, streaming cfg = true ->
      receive E cfg {| status := 200; stream := Some one_chunk |}
      = ([js "A"; js "AB"], Returned (JStr (js "AB")))).
Proof.
  split; [vm_compute; reflexivity|].
  split; [intros st; reflexivity|].
  split; [apply on_line_cumulative|].
  split; [vm_compute; reflexivity|].
  split; [vm_compute; reflexivity|].
  intros cfg Hs. unfold receive. rewrite Hs.
  change (ok {| status := 200; stream := Some one_chunk |}) with true.
  cbn [negb stream].
  replace (read_stream E start one_chunk)
    with ({| assistantContent := js "AB"; emitted := [js "A"; js "AB"] |},
          @None js_error) by (vm_compute; reflexivity).
  reflexivity.
Qed.

Lemma streaming_accumulates_witness :
  receive plain_engine cloud_settings
    {| status := 200; stream := Some one_chunk |}
  = ([js "A"; js "AB"], Returned (JStr (js "AB"))).
Proof.
  apply (proj2 (proj2 (proj2 (proj2 (proj2 (streaming_accumulates _)))))).
  reflexivity.
Defined.

(** C2.  A chunk whose lines hold a [data: ] line that [JSON.parse]
    rejects is read exactly like the chunk without that line, wherever
    the chunk stands in the stream: the reader ends with the same
    accumulated text and has shown the same snapshots, so the lines and
    chunks after the malformed line count as before. *)
Theorem malformed_line_skipped (E : engine) (st : reader_state)
    (before after : list (list N)) (value value' : list N)
    (lines1 lines2 : list jsstring) (bad : jsstring)
    (fl : option js_error) :
  startsWith bad (js "data: ") = true ->
  JSON_parse (slice_from 6 bad) = None ->
  lines_of (TextDecoder_decode value) = lines1 ++ bad :: lines2 ->
  lines_of (TextDecoder_decode value') = lines1 ++ lines2 ->
  read_stream E st {| chunks := before ++ value :: after; failure := fl |}
  = read_stream E st {| chunks := before ++ value' :: after; failure := fl |}.
Proof.
  intros Hp Hj Hv Hv'. unfold read_stream. cbn [chunks failure]. f_equal.
  rewrite !foldl_app. cbn [foldl]. f_equal.
  by apply (on_chunk_skip E _ _ _ lines1 lines2 bad).
Qed.

Lemma malformed_line_skipped_witness :
  read_stream plain_engine start
    {| chunks := [line_A ++ [10] ++ line_bad ++ [10] ++ line_B ++ [10]];
       failure := None |}
  = read_stream plain_engine start
      {| chunks := [line_A ++ [10] ++ line_B ++ [10]]; failure := None |}
  /\ assistantContent
       (fst (read_stream plain_engine start
          {| chunks := [line_A ++ [10] ++ line_bad ++ [10] ++ line_B ++ [10]];
             failure := None |})) = js "AB".
Proof.
  split.
  - apply (malformed_line_skipped plain_engine start [] []
             (line_A ++ [10] ++ line_bad ++ [10] ++ line_B ++ [10])
             (line_A ++ [10] ++ line_B ++ [10])
             [line_A] [line_B] line_bad None); reflexivity.
  - reflexivity.
Defined.

(** C10.  The reader decodes and splits every chunk on its own.  When
    the line carrying "A" arrives cut in two chunks, the first piece is
    a [data: ] line whose payload [JSON.parse] rejects and the second
    piece lacks the prefix, so nothing is accumulated, while the same
    bytes in one chunk accumulate "A".  The same loss happens wherever
    the line is cut. *)
Theorem split_line_is_lost (E : engine) :
  fragment_1 ++ fragment_2 = line_A ++ [10]
  /\ (forall k, (0 < k < length line_A)%nat ->
      assistantContent
        (fst (read_stream E start
                {| chunks := [take k (line_A ++ [10]); drop k (line_A ++ [10])];
                   failure := None |}))
      = [])
  /\ assistantContent
       (fst (read_stream E start
               {| chunks := [fragment_1 ++ fragment_2]; failure := None |}))
     = js "A"
  /\ assistantContent
       (fst (read_stream E start
               {| chunks := [fragment_1; fragment_2]; failure := None |}))
     = []
  /\ (exists l1, lines_of (TextDecoder_decode fragment_1) = [l1]
        /\ startsWith l1 (js "data: ") = true
        /\ JSON_parse (slice_from 6 l1) = None)
  /\ (exists l2, lines_of (TextDecoder_decode fragment_2) = [l2]
        /\ startsWith l2 (js "data: ") = false).
Proof.
  split; [reflexivity|].
  split.
  { intros k Hk.
    assert (forallb (fun k =>
              bool_decide
                (assistantContent
                   (fst (read_stream E start
                      {| chunks := [take k (line_A ++ [10]);
                                    drop k (line_A ++ [10])];
                         failure := None |})) = []))
              (seq 1 (length line_A - 1)) = true) as Hall
      by (vm_compute; reflexivity).
    rewrite forallb_forall in Hall.
    eapply bool_decide_eq_true_1, Hall, in_seq. lia. }
  split; [vm_compute; reflexivity|].
  split; [vm_compute; reflexivity|].
  split.
  - eexists. split; [vm_compute; reflexivity|]. split; reflexivity.
  - eexists. split; [vm_compute; reflexivity|]. reflexivity.
Qed.

Lemma split_line_is_lost_witness :
  assistantContent
    (fst (read_stream plain_engine start
            {| chunks := [take 25 (line_A ++ [10]); drop 25 (line_A ++ [10])];
               failure := None |}))
  = [].
Proof.
  apply (proj1 (proj2 (split_line_is_lost plain_engine)) 25%nat).
  vm_compute. lia.
Defined.

(** ** The request *)

(** C7.  The request built from any settings and history: the endpoint
    and the model are the cloud ones when [connectionType] is [cloud]
    and the local ones otherwise; the messages are the history behind
    one [system] message that carries the system prompt, and no other
    message has the [system] role; temperature, top_p, max_tokens and
    the stream flag are those of the settings; an [Authorization]
    header is present exactly when the connection is [cloud] and the
    API key is not empty, and then it is the bearer of that key. *)
Theorem request_construction (cfg : Settings) (history : list message) :
  let req := build_request cfg history in
  (connectionType cfg = js "cloud" ->
     url req = cloudEndpoint cfg ++ js "/chat/completions"
     /\ body_model (payload req) = model cfg)
  /\ (connectionType cfg <> js "cloud" ->
     url req = localEndpoint cfg ++ js "/chat/completions"
     /\ body_model (payload req) = localModel cfg)
  /\ body_messages (payload req)
     = {| api_role := js "system"; api_content := JStr (systemPrompt cfg) |}
       :: map (fun m => {| api_role := role_name (msg_role m);
                           api_content := content m |}) history
  /\ length (filter (fun m => api_role m = js "system")
               (body_messages (payload req))) = 1%nat
  /\ body_temperature (payload req) = temperature cfg
  /\ body_top_p (payload req) = topP cfg
  /\ body_max_tokens (payload req) = maxTokens cfg
  /\ body_stream (payload req) = streaming cfg
  /\ ((exists v, (js "Authorization", v) ∈ headers req)
      <-> connectionType cfg = js "cloud" /\ apiKey cfg <> [])
  /\ (forall v, (js "Authorization", v) ∈ headers req ->
      v = js "Bearer " ++ apiKey cfg).
Proof.
  cbn zeta. unfold build_request. cbn [url payload body_model body_messages
    body_temperature body_top_p body_max_tokens body_stream headers].
  split; [intros ->; by rewrite bool_decide_eq_true_2|].
  split; [intros H; by rewrite bool_decide_eq_false_2|].
  split; [done|].
  split.
  { rewrite filter_cons_True by done. cbn [length]. f_equal.
    induction history as [|m h IH]; [done|].
    cbn [map]. rewrite filter_cons_False; [done|].
    cbn [api_role]. by destruct (msg_role m). }
  do 4 (split; [done|]).
  assert (forall v, (js "Authorization", v) ∈ [(js "Content-Type", js "application/json")]
          -> False) as Hct.
  { intros v Hin. apply list_elem_of_singleton in Hin. discriminate Hin. }
  split; [split|].
  - intros [v Hin]. apply elem_of_app in Hin as [Hin|Hin]; [by apply Hct in Hin|].
    destruct (bool_decide (connectionType cfg = js "cloud")) eqn:Hc;
      [|by apply elem_of_nil in Hin].
    destruct (bool_decide (apiKey cfg = [])) eqn:Hk;
      [by apply elem_of_nil in Hin|].
    split; [by apply bool_decide_eq_true in Hc|by apply bool_decide_eq_false in Hk].
  - intros [Hc Hk]. exists (js "Bearer " ++ apiKey cfg).
    rewrite bool_decide_eq_true_2, bool_decide_eq_false_2 by done.
    apply elem_of_app. right. apply list_elem_of_singleton. done.
  - intros v Hin. apply elem_of_app in Hin as [Hin|Hin]; [by apply Hct in Hin|].
    destruct (_ && _); [|by apply elem_of_nil in Hin].
    apply list_elem_of_singleton in Hin. by simplify_eq.
Qed.

Lemma request_construction_witness :
  url (build_request cloud_settings [])
  = js "https://text.pollinations.ai/openai/chat/completions"
  /\ body_model (payload (build_request cloud_settings [])) = js "openai"
  /\ (exists v,
        (js "Authorization", v) ∈ headers (build_request cloud_settings [])).
Proof.
  pose proof (request_construction cloud_settings []) as H. cbn zeta in H.
  destruct H as (Hcloud & _ & _ & _ & _ & _ & _ & _ & Hauth & _).
  destruct (Hcloud eq_refl) as [Hurl Hmodel].
  split; [exact Hurl|]. split; [exact Hmodel|].
  apply Hauth. split; [reflexivity|discriminate].
Defined.

(** ** The chat collection and the active chat *)

Lemma filter_all {A} (P : A -> Prop) `{!forall x, Decision (P x)} (l : list A) :
  Forall P l -> filter P l = l.
Proof.
  induction 1 as [|x l Hx _ IH]; [done|].
  by rewrite filter_cons_True, IH.
Qed.

Lemma createNewChat_valid id now s : pointer_valid (createNewChat id now s).
Proof.
  unfold pointer_valid, createNewChat. cbn [activeChat chats chat_id].
  eexists. split; [apply elem_of_cons; left; reflexivity|done].
Qed.

Lemma deleteChat_valid chatId s :
  pointer_valid s -> pointer_valid (deleteChat chatId s).
Proof.
  unfold pointer_valid, deleteChat. cbn [activeChat chats]. intros H.
  destruct (decide (activeChat s = Some chatId)) as [Ha|Ha].
  - destruct (filter _ (chats s)) as [|c rest]; [done|].
    exists c. split; [apply elem_of_cons; by left|done].
  - destruct (activeChat s) as [a|]; [|done].
    destruct H as (c & Hc & Hid). exists c. split; [|done].
    apply list_elem_of_filter. split; [|done]. congruence.
Qed.

Lemma apply_op_valid s op : pointer_valid s -> pointer_valid (apply_op s op).
Proof.
  destruct op; simpl; auto using createNewChat_valid, deleteChat_valid.
Qed.

Lemma run_ops_valid ops s :
  pointer_valid s -> pointer_valid (foldl apply_op s ops).
Proof.
  revert s. induction ops as [|op ops IH]; intros s H; simpl; [done|].
  apply IH. by apply apply_op_valid.
Qed.

(** C5.  From a state whose active chat is null or a chat of the
    collection, every sequence of creations and deletions ends in such
    a state.  In the state reached: deleting the active chat makes the
    first remaining chat active, or none if no chat remains; deleting
    another chat leaves the active chat as it is; deleting an id that
    no chat has changes nothing. *)
Theorem active_pointer_valid (s0 : app_state) (ops : list store_op) :
  pointer_valid s0 ->
  let s := foldl apply_op s0 ops in
  pointer_valid s
  /\ (forall id, activeChat s = Some id ->
        chats (deleteChat id s) = filter (fun c => chat_id c <> id) (chats s)
        /\ activeChat (deleteChat id s)
           = chat_id <$> head (chats (deleteChat id s)))
  /\ (forall id, activeChat s <> Some id ->
        activeChat (deleteChat id s) = activeChat s)
  /\ (forall id, (forall c, c ∈ chats s -> chat_id c <> id) ->
        deleteChat id s = s).
Proof.
  intros H0 s. assert (pointer_valid s) as Hs by by apply run_ops_valid.
  split; [done|]. clearbody s. clear H0 s0 ops.
  split; [|split].
  - intros id Ha. unfold deleteChat. cbn [chats activeChat].
    split; [done|]. rewrite decide_True by done.
    by destruct (filter _ (chats s)).
  - intros id Ha. unfold deleteChat. cbn [activeChat].
    by rewrite decide_False.
  - intros id Hno. unfold deleteChat.
    rewrite filter_all by (apply Forall_forall; exact Hno).
    rewrite decide_False; [by destruct s|].
    intros Ha. unfold pointer_valid in Hs. rewrite Ha in Hs.
    destruct Hs as (c & Hc & Hid). by apply (Hno c).
Qed.

Lemma active_pointer_valid_witness :
  pointer_valid (initial cloud_settings)
  /\ activeChat
       (foldl apply_op (initial cloud_settings)
          [Create (js "a") (js "t1"); Create (js "b") (js "t2");
           Delete (js "b")])
     = Some (js "a").
Proof.
  split; [exact I|].
  pose proof (active_pointer_valid (initial cloud_settings)
                [Create (js "a") (js "t1"); Create (js "b") (js "t2")] I)
    as (_ & Hdel & _).
  destruct (Hdel (js "b") eq_refl) as [_ Hptr].
  exact Hptr.
Defined.

(** ** Turns that are rejected *)

Lemma trimStart_blank s :
  Forall (fun c => isWhiteSpace c = true) s -> trimStart s = [].
Proof. induction 1 as [|c s Hc _ IH]; simpl; [done|]. by rewrite Hc. Qed.

Lemma trim_blank s : Forall (fun c => isWhiteSpace c = true) s -> trim s = [].
Proof. intros H. unfold trim. by rewrite trimStart_blank. Qed.

(** C4.  When the input is empty or made of white space only, or when
    a turn is in flight, sending changes nothing: the state after it is
    the state before it, so the collection, the messages of every chat
    (their number in particular) and the active chat are what they
    were; no request is sent. *)
Theorem send_rejected (E : engine) (env : turn_env) (s : app_state) :
  Forall (fun c => isWhiteSpace c = true) (inputValue s) \/ isLoading s = true ->
  exists t,
    sendMessage E env s = Returned t
    /\ final t = s
    /\ chats (final t) = chats s
    /\ map (fun c => length (messages c)) (chats (final t))
       = map (fun c => length (messages c)) (chats s)
    /\ activeChat (final t) = activeChat s
    /\ request t = None.
Proof.
  intros H. exists {| final := s; request := None; deltas := [] |}.
  split; [|done]. unfold sendMessage.
  destruct H as [H| ->].
  - by rewrite (trim_blank _ H), bool_decide_eq_true_2.
  - by rewrite orb_true_r.
Qed.

Lemma send_rejected_witness :
  Forall (fun c => isWhiteSpace c = true) (inputValue (typed (js "  ")))
  /\ exists t,
       sendMessage plain_engine
         (answering {| status := 200; stream := Some one_chunk |})
         (typed (js "  ")) = Returned t
       /\ final t = typed (js "  ").
Proof.
  assert (Forall (fun c => isWhiteSpace c = true) (inputValue (typed (js "  "))))
    as Hblank by (repeat constructor).
  split; [exact Hblank|].
  destruct (send_rejected plain_engine
              (answering {| status := 200; stream := Some one_chunk |})
              (typed (js "  ")) (or_introl Hblank)) as (t & Ht & Hfinal & _).
  exists t. split; [exact Ht|exact Hfinal].
Defined.

(** ** Appending to a chat *)

Lemma includes_app a p b : includes (a ++ p ++ b) p = true.
Proof.
  induction a as [|c a IH].
  - simpl. destruct (p ++ b) eqn:Hpb.
    + destruct p; [done|discriminate].
    + cbn [includes]. rewrite <- Hpb, startsWith_prefix. done.
  - cbn [app includes]. rewrite IH. apply orb_true_r.
Qed.

Section Finding.

Context (id : jsstring).

Let P := fun c : chat => chat_id c = id.

Lemma findIndex_Some l i :
  findIndex id l = Some i <-> exists c, list_find P l = Some (i, c).
Proof.
  unfold findIndex. split.
  - intros ([j c] & ? & H)%fmap_Some. simpl in *. subst. eauto.
  - intros [c H]. fold P. by rewrite H.
Qed.

Lemma findIndex_None l :
  findIndex id l = None <-> forall c, c ∈ l -> chat_id c <> id.
Proof.
  unfold findIndex. rewrite fmap_None, list_find_None, Forall_forall. done.
Qed.

Lemma list_find_replace l i c c' :
  list_find P l = Some (i, c) -> chat_id c' = id ->
  list_find P (<[i := c']> l) = Some (i, c').
Proof.
  intros (Hi & _ & Hleast)%list_find_Some Hc'.
  apply list_find_insert_Some. right; left.
  split_and!; try done. by eapply lookup_lt_Some.
Qed.

Lemma append_reply_found l i c m :
  list_find P l = Some (i, c) ->
  append_reply l id m
  = Returned (<[i := update_chat c (title c) (messages c ++ [m])]> l).
Proof.
  intros H. unfold append_reply, findIndex. fold P. rewrite H. simpl.
  apply list_find_Some in H as (-> & _). done.
Qed.

Lemma append_user_found l i c m text :
  list_find P l = Some (i, c) ->
  append_user l id m text
  = Returned
      (<[i := update_chat c
                (if bool_decide (length (messages c) = 0%nat)
                 then title_of text else title c)
                (messages c ++ [m])]> l, Some i).
Proof.
  intros H. unfold append_user, findIndex. fold P. rewrite H. simpl.
  apply list_find_Some in H as (-> & _). done.
Qed.

End Finding.

(** C8, as the code has it.  Appending to a chat id that no chat of
    the collection has raises nothing and does nothing: the updater of
    the assistant's or error message, and the block that appends the
    user's message, both return the collection they were given. *)
Theorem append_missing_chat (l : list chat) (chatId : jsstring)
    (m : message) (text : jsstring) :
  (forall c, c ∈ l -> chat_id c <> chatId) ->
  append_reply l chatId m = Returned l
  /\ append_user l chatId m text = Returned (l, None).
Proof.
  intros H. apply findIndex_None in H.
  unfold append_reply, append_user. by rewrite H.
Qed.

Lemma append_missing_chat_witness :
  append_reply [] (js "gone") sample_message = Returned [].
Proof.
  apply (append_missing_chat [] (js "gone") sample_message []).
  intros c Hc. by apply elem_of_nil in Hc.
Defined.

(** C8 as stated fails: with one chat in the collection and another id
    asked for, the append does not end in an error. *)
Lemma append_missing_chat_no_error :
  (forall c, c ∈ [sample_chat] -> chat_id c <> js "gone")
  /\ ~ exists e, append_reply [sample_chat] (js "gone") sample_message = Thrown e.
Proof.
  split.
  - intros c Hc. apply list_elem_of_singleton in Hc. by subst.
  - intros [e He]. discriminate He.
Qed.

(** A turn whose active chat is an id that no chat has: nothing is
    appended, no request is sent, and the turn returns. *)
Lemma sendMessage_dangling (E : engine) (env : turn_env) (s : app_state) u id :
  trim (inputValue s) <> [] ->
  isLoading s = false ->
  activeChat s = Some (u :: id) ->
  (forall c, c ∈ chats s -> chat_id c <> u :: id) ->
  exists t,
    sendMessage E env s = Returned t
    /\ chats (final t) = chats s
    /\ request t = None
    /\ isLoading (final t) = false.
Proof.
  intros Hin Hload Ha Hno. apply findIndex_None in Hno.
  unfold sendMessage. rewrite bool_decide_eq_false_2, Hload, Ha by done.
  cbn [orb]. unfold append_user at 1. rewrite Hno. cbn [mbind outcome_bind].
  unfold complete. cbn [mbind option_bind result try_catch sent].
  unfold append_reply. rewrite Hno. cbn [mbind outcome_bind].
  by eexists.
Qed.

(** ** A turn that the endpoint refuses *)

Lemma error_text_mentions reason :
  includes (error_text reason) (js "Error") = true
  /\ includes (error_text reason) reason = true.
Proof.
  unfold error_text. split.
  - change (js " Error: ") with (js " " ++ js "Error" ++ js ": ").
    rewrite <- !(assoc_L (++)).
    rewrite (assoc_L (++) [9888; 65039] (js " ")).
    apply includes_app.
  - rewrite (assoc_L (++) [9888; 65039] (js " Error: ")).
    apply includes_app.
Qed.

(** C3.  Take a turn that is accepted, in a state whose active chat is
    falsy (the turn creates the chat) or a chat of the collection, and
    whose request is answered with a status outside 200-299.  The turn
    returns: nothing is thrown out of [sendMessage], and the in-flight
    flag is cleared.  The active chat then holds its former messages,
    the user's message of this turn, and after it exactly one new
    message: an assistant message whose text contains "Error" and the
    decimal status. *)
Theorem api_error_turn (E : engine) (env : turn_env) (s : app_state)
    (r : response) :
  trim (inputValue s) <> [] ->
  isLoading s = false ->
  falsy_id (activeChat s) = true \/ pointer_valid s ->
  (forall req, network env req = FetchResponse r) ->
  ok r = false ->
  exists t c text,
    sendMessage E env s = Returned t
    /\ isLoading (final t) = false
    /\ currentChat (final t) = Some c
    /\ messages c
       = prior_messages s
         ++ [ {| msg_id := user_msg_id env; msg_role := user;
                 content := JStr (inputValue s);
                 timestamp := user_msg_time env |};
              {| msg_id := reply_msg_id env; msg_role := assistant;
                 content := JStr text;
                 timestamp := reply_msg_time env |} ]
    /\ includes text (js "Error") = true
    /\ includes text (decimal (status r)) = true.
Proof.
  intros Hin Hload Hvalid Hnet Hok.
  set (reason := js "API Error: " ++ decimal (status r)).
  set (text := error_text reason).
  assert (includes text (js "Error") = true
          /\ includes text (decimal (status r)) = true) as [He Hs].
  { split; [apply error_text_mentions|].
    replace text
      with (([9888; 65039] ++ js " Error: " ++ js "API Error: ")
            ++ decimal (status r)
            ++ [10; 10] ++ js "Please check your API settings and try again.")
      by (unfold text, error_text, reason; by rewrite <- !(assoc_L (++))).
    apply includes_app. }
  unfold sendMessage, prior_messages, currentChat.
  rewrite bool_decide_eq_false_2, Hload by done. cbn [orb].
  (* the chat the turn writes to, found at index [i] *)
  assert (exists i c0 l a,
    (match activeChat s with
     | Some (u :: id) => (u :: id, chats s, activeChat s)
     | _ => (new_chat_id env,
             {| chat_id := new_chat_id env; title := title_of (inputValue s);
                messages := []; createdAt := new_chat_time env |} :: chats s,
             Some (new_chat_id env))
     end) = (a, l, Some a)
    /\ list_find (fun c => chat_id c = a) l = Some (i, c0)
    /\ messages c0 = (if falsy_id (activeChat s) then []
                      else from_option messages []
                             match activeChat s with
                             | Some a' => snd <$> list_find (fun c => chat_id c = a') (chats s)
                             | None => None
                             end)) as (i & c0 & l & a & Hsel & Hfind & Hprior).
  { unfold pointer_valid in Hvalid.
    set (newChat := {| chat_id := new_chat_id env;
                       title := title_of (inputValue s);
                       messages := []; createdAt := new_chat_time env |}).
    assert (list_find (fun c => chat_id c = new_chat_id env) (newChat :: chats s)
            = Some (0%nat, newChat)) as Hnew
      by (simpl; by rewrite decide_True).
    destruct (activeChat s) as [[|u id]|] eqn:Ha.
    - by exists 0%nat, newChat, (newChat :: chats s), (new_chat_id env).
    - destruct Hvalid as [Hfalsy|(c & Hc & Hid)]; [done|].
      destruct (list_find_elem_of (fun c => chat_id c = u :: id) (chats s) c Hc Hid)
        as [[i c0] Hf].
      exists i, c0, (chats s), (u :: id). rewrite Hf. done.
    - by exists 0%nat, newChat, (newChat :: chats s), (new_chat_id env). }
  assert (chat_id c0 = a) as Hid0 by (by apply list_find_Some in Hfind as (_ & ? & _)).
  replace (match activeChat s with
           | Some [] | None => _ | Some (u :: id) => _ end) with (a, l, Some a).
  cbn beta iota zeta.
  rewrite (append_user_found _ _ _ _ _ _ Hfind). cbn [mbind outcome_bind].
  set (c1 := update_chat c0 _ (messages c0 ++ [_])).
  assert (list_find (fun c => chat_id c = a) (<[i:=c1]> l) = Some (i, c1)) as Hfind1
    by (by apply (list_find_replace _ _ _ c0)).
  unfold complete. cbn [mbind option_bind].
  assert (<[i:=c1]> l !! i = Some c1) as -> by (by apply list_find_Some in Hfind1 as (? & _)).
  rewrite Hnet. unfold receive. rewrite Hok. cbn [negb result try_catch mbind outcome_bind].
  rewrite (append_reply_found _ _ _ _ _ Hfind1). cbn [mbind outcome_bind].
  eexists _, _, text. split; [reflexivity|].
  cbn [final isLoading activeChat chats]. split; [done|].
  split; [|split; [|done]].
  - erewrite list_find_replace; [reflexivity|exact Hfind1|exact Hid0].
  - cbn [update_chat messages]. subst c1. cbn [update_chat messages].
    rewrite Hprior, <- (assoc_L (++)). done.
Qed.

Lemma api_error_turn_witness :
  exists t c text,
    sendMessage plain_engine (answering {| status := 500; stream := None |})
      (typed (js "What is APR?")) = Returned t
    /\ currentChat (final t) = Some c
    /\ length (messages c) = 2%nat
    /\ includes text (js "Error") = true
    /\ includes text (js "500") = true.
Proof.
  destruct (api_error_turn plain_engine
              (answering {| status := 500; stream := None |})
              (typed (js "What is APR?"))
              {| status := 500; stream := None |})
    as (t & c & text & Ht & _ & Hc & Hm & He & Hs).
  - vm_compute. discriminate.
  - reflexivity.
  - left. reflexivity.
  - reflexivity.
  - reflexivity.
  - exists t, c, text. split; [exact Ht|]. split; [exact Hc|].
    split; [by rewrite Hm|]. split; [exact He|exact Hs].
Defined.

(** ** Titles *)

(** The shape of the collection after a turn that was not rejected:
    the chats of before, behind the chat the turn created if it did;
    in it, either no chat has the id the turn wrote to and nothing
    changed, or the first chat with that id got the user's message and
    one assistant message, and its title if it had no message. *)
Lemma sendMessage_shape (E : engine) (env : turn_env) (s : app_state) :
  exists t, sendMessage E env s = Returned t
  /\ (final t = s
      \/ exists created a l,
           l = created ++ chats s
           /\ Forall (fun c => messages c = []) created
           /\ activeChat (final t) = Some a
           /\ (created = [] /\ activeChat s = Some a
               \/ exists c, created = [c] /\ chat_id c = a)
           /\ ((forall c, c ∈ l -> chat_id c <> a) /\ chats (final t) = l
               \/ exists i c reply,
                    list_find (fun c => chat_id c = a) l = Some (i, c)
                    /\ msg_role reply = assistant
                    /\ chats (final t)
                       = <[i := update_chat c
                                  (if bool_decide (length (messages c) = 0%nat)
                                   then title_of (inputValue s) else title c)
                                  (messages c
                                   ++ [ {| msg_id := user_msg_id env;
                                           msg_role := user;
                                           content := JStr (inputValue s);
                                           timestamp := user_msg_time env |};
                                        reply ])]> l)).
Proof.
  unfold sendMessage.
  destruct (bool_decide (trim (inputValue s) = []) || isLoading s);
    [eexists; split; [reflexivity|by left]|].
  set (sel := match activeChat s with Some (u :: id) => _ | _ => _ end).
  assert (exists created a l,
            sel = (a, l, Some a) /\ l = created ++ chats s
            /\ Forall (fun c => messages c = []) created
            /\ (created = [] /\ activeChat s = Some a
                \/ exists c, created = [c] /\ chat_id c = a))
    as (created & a & l & -> & Hl & Hcreated & Hactive).
  { subst sel. destruct (activeChat s) as [[|u id]|].
    - eexists [_], _, _. split; [reflexivity|]. split; [done|].
      split; [by repeat constructor|]. right. by eexists.
    - exists [], (u :: id), (chats s). split; [done|]. split; [done|].
      split; [done|]. by left.
    - eexists [_], _, _. split; [reflexivity|]. split; [done|].
      split; [by repeat constructor|]. right. by eexists. }
  cbn beta iota zeta.
  destruct (list_find (fun c => chat_id c = a) l) as [[i c]|] eqn:Hfind.
  - rewrite (append_user_found _ _ _ _ _ _ Hfind). cbn [mbind outcome_bind].
    set (c1 := update_chat c _ _).
    assert (chat_id c = a) as Hid by (by apply list_find_Some in Hfind as (_ & ? & _)).
    assert (list_find (fun c => chat_id c = a) (<[i:=c1]> l) = Some (i, c1))
      as Hfind1 by (by apply (list_find_replace _ _ _ c)).
    destruct (result (complete E env (settings s) (<[i:=c1]> l) (Some i)))
      as [v|e]; cbn [try_catch mbind outcome_bind];
      rewrite (append_reply_found _ _ _ _ _ Hfind1); cbn [mbind outcome_bind];
      (eexists; split; [reflexivity|]); right;
      exists created, a, l; (split; [done|]); (split; [done|]);
      (split; [done|]); (split; [done|]); right;
      eexists i, c, _; (split; [done|]); cbn [final chats];
      rewrite list_insert_insert_eq; subst c1; cbn [update_chat title messages];
      rewrite <- (assoc_L (++)); (split; [|reflexivity]); reflexivity.
  - assert (findIndex a l = None) as Hnone by (unfold findIndex; by rewrite Hfind).
    unfold append_user at 1. rewrite Hnone. cbn [mbind outcome_bind].
    unfold complete. cbn [mbind option_bind result try_catch].
    unfold append_reply. rewrite Hnone. cbn [mbind outcome_bind].
    eexists; split; [reflexivity|]. right. exists created, a, l.
    split; [done|]. split; [done|]. split; [done|]. split; [done|].
    left. split; [|done]. by apply findIndex_None.
Qed.

Lemma extends_refl c : extends c c.
Proof. by repeat split. Qed.

Lemma title_of_short text :
  (length text <= 50)%nat -> title_of text = text.
Proof.
  intros H. unfold title_of, slice_to.
  rewrite take_ge, bool_decide_eq_false_2 by lia. apply app_nil_r.
Qed.

Lemma title_of_long text :
  (50 < length text)%nat -> title_of text = take 50 text ++ js "...".
Proof. intros H. unfold title_of, slice_to. by rewrite bool_decide_eq_true_2. Qed.

Lemma titled_first c :
  titled c -> messages c <> [] ->
  exists m text,
    head (messages c) = Some m /\ first_user_message c = Some m
    /\ content m = JStr text /\ title c = title_of text.
Proof.
  unfold titled, first_user_message. intros H Hne.
  destruct (messages c) as [|m rest]; [done|].
  destruct H as (Hu & text & Hc & Ht). exists m, text.
  split; [done|]. split; [|done]. simpl. by rewrite decide_True.
Qed.

Section Turns.

Variable E : engine.

Lemma sendMessage_titled env s t :
  Forall titled (chats s) -> sendMessage E env s = Returned t ->
  Forall titled (chats (final t)).
Proof.
  intros Hs Ht.
  destruct (sendMessage_shape E env s) as (t' & Ht' & Hshape).
  rewrite Ht in Ht'. simplify_eq.
  destruct Hshape as [->|(created & a & l & -> & Hcr & _ & _ & Hcase)]; [done|].
  assert (Forall titled (created ++ chats s)) as Hl.
  { apply Forall_app. split; [|done].
    eapply Forall_impl; [exact Hcr|]. intros c Hc. unfold titled. by rewrite Hc. }
  destruct Hcase as [[_ ->]|(i & c & reply & Hfind & _ & ->)]; [done|].
  apply Forall_insert; [done|].
  apply list_find_Some in Hfind as (Hi & _ & _).
  assert (titled c) as Hc
    by (eapply Forall_forall; [exact Hl|by eapply list_elem_of_lookup_2]).
  unfold titled in *. cbn [update_chat messages title].
  destruct (messages c) as [|m rest]; simpl.
  - split; [done|]. by eexists.
  - done.
Qed.

Lemma sendMessage_extends env s t :
  sendMessage E env s = Returned t ->
  exists created kept,
    chats (final t) = created ++ kept /\ Forall2 extends (chats s) kept.
Proof.
  intros Ht.
  assert (Forall2 extends (chats s) (chats s)) as Hrefl
    by (apply Forall_Forall2_diag, Forall_forall; intros; apply extends_refl).
  destruct (sendMessage_shape E env s) as (t' & Ht' & Hshape).
  rewrite Ht in Ht'. simplify_eq.
  destruct Hshape as [->|(created & a & l & -> & Hcr & _ & _ & Hcase)];
    [by exists [], (chats s)|].
  destruct Hcase as [[_ ->]|(i & c & reply & Hfind & _ & ->)];
    [by exists created, (chats s)|].
  apply list_find_Some in Hfind as (Hi & _ & _).
  destruct (decide (i < length created)%nat) as [Hlt|Hge].
  - rewrite insert_app_l by done. by eexists _, (chats s).
  - rewrite insert_app_r_alt by lia.
    rewrite lookup_app_r in Hi by lia.
    eexists created, _. split; [reflexivity|].
    rewrite <- (list_insert_id (chats s) _ _ Hi) at 1.
    apply Forall2_insert; [done|].
    unfold extends. cbn [update_chat chat_id messages title].
    split; [done|]. split; [by apply prefix_app_r|].
    intros Hne. rewrite bool_decide_eq_false_2; [done|].
    by destruct (messages c).
Qed.

Lemma step_titled s a s' :
  Forall titled (chats s) -> step E s a = Returned s' ->
  Forall titled (chats s').
Proof.
  intros Hs. destruct a as [[id now|chatId]|i|text|env]; simpl; intros H.
  - simplify_eq. cbn [createNewChat chats]. by constructor.
  - simplify_eq. cbn [deleteChat chats]. apply Forall_forall.
    intros c [_ Hc]%list_elem_of_filter. by eapply Forall_forall in Hs.
  - simplify_eq. unfold select. by destruct (chats s !! i).
  - by simplify_eq.
  - destruct (sendMessage E env s) as [t|e] eqn:Ht; [|done].
    simpl in H. simplify_eq. by eapply sendMessage_titled.
Qed.

Lemma step_returns s a : exists s', step E s a = Returned s'.
Proof.
  destruct a as [op|i|text|env]; simpl; eauto.
  destruct (sendMessage_shape E env s) as (t & -> & _). simpl. eauto.
Qed.

Lemma run_returns l s : exists s', run E s l = Returned s'.
Proof.
  revert s. induction l as [|a l IH]; intros s; simpl; [eauto|].
  destruct (step_returns s a) as [s1 ->]. simpl. apply IH.
Qed.

Lemma run_titled l s s' :
  Forall titled (chats s) -> run E s l = Returned s' ->
  Forall titled (chats s').
Proof.
  revert s. induction l as [|a l IH]; intros s Hs H; simpl in H.
  - by simplify_eq.
  - destruct (step E s a) as [s1|e] eqn:Hstep; [|done]. simpl in H.
    eapply IH; [|exact H]. by eapply step_titled.
Qed.

Lemma sendMessage_valid env s t :
  pointer_valid s -> sendMessage E env s = Returned t ->
  pointer_valid (final t).
Proof.
  intros Hs Ht.
  destruct (sendMessage_shape E env s) as (t' & Ht' & Hshape).
  rewrite Ht in Ht'. simplify_eq.
  destruct Hshape as [->|(created & a & l & -> & _ & Ha & Hactive & Hcase)];
    [done|].
  unfold pointer_valid. rewrite Ha.
  destruct Hcase as [[_ ->]|(i & c & reply & Hfind & _ & ->)].
  - destruct Hactive as [[-> Has]|(c & -> & Hc)].
    + unfold pointer_valid in Hs. by rewrite Has in Hs.
    + exists c. split; [|done]. apply elem_of_cons. by left.
  - apply list_find_Some in Hfind as (Hi & Hid & _).
    eexists. split.
    + eapply list_elem_of_lookup_2, list_lookup_insert_eq.
      by eapply lookup_lt_Some.
    + exact Hid.
Qed.

Lemma step_valid s a s' :
  pointer_valid s -> step E s a = Returned s' -> pointer_valid s'.
Proof.
  intros Hs. destruct a as [op|i|text|env]; simpl; intros H.
  - simplify_eq. by apply apply_op_valid.
  - simplify_eq. unfold select. destruct (chats s !! i) as [c|] eqn:Hc; [|done].
    exists c. split; [by eapply list_elem_of_lookup_2|done].
  - by simplify_eq.
  - destruct (sendMessage E env s) as [t|e] eqn:Ht; [|done].
    simpl in H. simplify_eq. by eapply sendMessage_valid.
Qed.

(** The active chat stays null or a chat of the collection under every
    action, sending included. *)
Lemma run_valid l s s' :
  pointer_valid s -> run E s l = Returned s' -> pointer_valid s'.
Proof.
  revert s. induction l as [|a l IH]; intros s Hs H; simpl in H.
  - by simplify_eq.
  - destruct (step E s a) as [s1|e] eqn:Hstep; [|done]. simpl in H.
    eapply IH; [|exact H]. by eapply step_valid.
Qed.

End Turns.

(** C6.  The title is the first 50 code units of a text, followed by
    three dots exactly when the text is longer.  Whatever the user does
    from the start (new chat, delete, select, type, send), the run
    returns, and in the state reached every chat that has a message
    starts with a user message whose text gives the chat its title.  A
    further turn keeps every chat of the collection, possibly behind a
    new one, with its messages extended and, for a chat that had a
    message, its title unchanged. *)
Theorem title_from_first_message (E : engine) (cfg : Settings)
    (actions : list action) :
  (forall text,
     ((length text <= 50)%nat -> title_of text = text)
     /\ ((50 < length text)%nat -> title_of text = take 50 text ++ js "..."))
  /\ exists s,
       run E (initial cfg) actions = Returned s
       /\ (forall c, c ∈ chats s -> messages c <> [] ->
           exists m text,
             head (messages c) = Some m
             /\ first_user_message c = Some m
             /\ content m = JStr text
             /\ title c = title_of text)
       /\ (forall env, exists t created kept,
             sendMessage E env s = Returned t
             /\ chats (final t) = created ++ kept
             /\ Forall2 (fun c c' =>
                  chat_id c' = chat_id c
                  /\ messages c `prefix_of` messages c'
                  /\ (messages c <> [] -> title c' = title c))
                  (chats s) kept).
Proof.
  split; [intros text; split; [apply title_of_short|apply title_of_long]|].
  destruct (run_returns E actions (initial cfg)) as [s Hs]. exists s.
  split; [done|]. split.
  - intros c Hc Hne. apply titled_first; [|done].
    eapply Forall_forall; [|exact Hc].
    eapply run_titled; [|exact Hs]. constructor.
  - intros env. destruct (sendMessage_shape E env s) as (t & Ht & _).
    destruct (sendMessage_extends E env s t Ht) as (created & kept & Hc & Hk).
    by exists t, created, kept.
Qed.

Lemma title_from_first_message_witness :
  title_of (js "What is APR?") = js "What is APR?"
  /\ exists s,
       run plain_engine (initial cloud_settings)
         [Input (js "What is APR?");
          Send (answering {| status := 200; stream := Some one_chunk |})]
       = Returned s
       /\ (title <$> chats s) = [js "What is APR?"].
Proof.
  destruct (title_from_first_message plain_engine cloud_settings
              [Input (js "What is APR?");
               Send (answering {| status := 200; stream := Some one_chunk |})])
    as (Htitle & s & Hs & _ & _).
  split.
  - apply (Htitle (js "What is APR?")). vm_compute. lia.
  - exists s. split; [exact Hs|].
    vm_compute in Hs. by simplify_eq.
Defined.

(** * Further properties of the code *)

(** ** The reader, for every stream *)

Section ReaderInvariant.

Variable E : engine.

Lemma continues_refl st : continues st st.
Proof. by split. Qed.

Lemma continues_trans st1 st2 st3 :
  continues st1 st2 -> continues st2 st3 -> continues st1 st3.
Proof. intros [??] [??]. split; by etrans. Qed.

Lemma on_line_continues st line : continues st (on_line E st line).
Proof.
  destruct (on_line_cumulative E st line) as [->|(text & Hc & He)].
  - apply continues_refl.
  - split; [rewrite Hc|rewrite He]; by apply prefix_app_r.
Qed.

Lemma on_line_coherent st line : coherent st -> coherent (on_line E st line).
Proof.
  intros (Hchain & Hall & Hlast).
  destruct (on_line_cumulative E st line) as [->|(text & Hc & He)]; [done|].
  set (st' := on_line E st line) in *.
  assert (forall x, x ∈ emitted st -> x `prefix_of` assistantContent st') as Hall'.
  { intros x Hx. etrans; [by apply Hall|]. rewrite Hc. by apply prefix_app_r. }
  split; [|split].
  - rewrite He. intros i j x y Hi Hj Hij.
    apply lookup_snoc_Some in Hj as [[Hlt Hj]|[-> <-]].
    + rewrite lookup_app_l in Hi by lia. by eapply Hchain.
    + apply lookup_snoc_Some in Hi as [[_ Hi]|[_ <-]]; [|done].
      by eapply Hall', list_elem_of_lookup_2.
  - rewrite He. intros x [Hx|Hx]%elem_of_app; [by apply Hall'|].
    apply list_elem_of_singleton in Hx. by subst.
  - intros _. rewrite He. apply last_snoc.
Qed.

Lemma on_chunk_keeps st value :
  continues st (on_chunk E st value)
  /\ (coherent st -> coherent (on_chunk E st value)).
Proof.
  unfold on_chunk. generalize (lines_of (TextDecoder_decode value)) as ls.
  intros ls. revert st. induction ls as [|l ls IH]; intros st; simpl.
  - split; [apply continues_refl|done].
  - destruct (IH (on_line E st l)) as [Hc Hk]. split.
    + eapply continues_trans; [apply on_line_continues|done].
    + intros H. by apply Hk, on_line_coherent.
Qed.

Lemma read_stream_keeps st b :
  continues st (fst (read_stream E st b))
  /\ (coherent st -> coherent (fst (read_stream E st b))).
Proof.
  unfold read_stream. cbn [fst]. generalize (chunks b) as cs.
  intros cs. revert st. induction cs as [|c cs IH]; intros st; simpl.
  - split; [apply continues_refl|done].
  - destruct (IH (on_chunk E st c)) as [Hc Hk].
    destruct (on_chunk_keeps st c) as [Hc' Hk']. split.
    + by eapply continues_trans.
    + intros H. by apply Hk, Hk'.
Qed.

End ReaderInvariant.

(** X1.  Whatever the stream holds, reading never takes text back: the
    text accumulated and the snapshots shown before stay, as prefixes of
    what they are after.  Read from the start, every snapshot shown is
    a prefix of the snapshots shown after it, and the text accumulated
    at the end is the last snapshot shown, if any was. *)
Theorem snapshots_grow (E : engine) (st : reader_state) (b : body) :
  assistantContent st `prefix_of` assistantContent (fst (read_stream E st b))
  /\ emitted st `prefix_of` emitted (fst (read_stream E st b))
  /\ (forall i j x y,
        emitted (fst (read_stream E start b)) !! i = Some x ->
        emitted (fst (read_stream E start b)) !! j = Some y ->
        (i <= j)%nat -> x `prefix_of` y)
  /\ (emitted (fst (read_stream E start b)) <> [] ->
      last (emitted (fst (read_stream E start b)))
      = Some (assistantContent (fst (read_stream E start b)))).
Proof.
  destruct (read_stream_keeps E st b) as [[Hc He] _].
  split; [done|]. split; [done|].
  destruct (read_stream_keeps E start b) as [_ Hk].
  destruct Hk as (Hchain & _ & Hlast); [|done].
  repeat split; try done. by intros ? Hx%elem_of_nil.
Qed.

Lemma snapshots_grow_witness :
  last (emitted (fst (read_stream plain_engine start one_chunk)))
  = Some (assistantContent (fst (read_stream plain_engine start one_chunk))).
Proof.
  apply (snapshots_grow plain_engine start one_chunk). vm_compute. discriminate.
Defined.

(** X2.  Only the lines that start with the six characters [data: ]
    count.  A stream in which no line of any chunk starts with them
    (comments, [event:] or [id:] fields, [data:] without the space, a
    line indented by a space) leaves the reader as it was. *)
Theorem unprefixed_lines_ignored (E : engine) (st : reader_state) (b : body) :
  (forall value line,
     value ∈ chunks b -> line ∈ lines_of (TextDecoder_decode value) ->
     startsWith line (js "data: ") = false) ->
  fst (read_stream E st b) = st.
Proof.
  unfold read_stream. cbn [fst]. generalize (chunks b) as cs.
  intros cs. revert st. induction cs as [|c cs IH]; intros st H; [done|].
  cbn [foldl]. assert (on_chunk E st c = st) as ->.
  { unfold on_chunk.
    assert (forall line, line ∈ lines_of (TextDecoder_decode c) ->
                         startsWith line (js "data: ") = false) as Hc
      by (intros line; apply H; by left).
    revert Hc. generalize (lines_of (TextDecoder_decode c)) as ls. clear.
    intros ls. revert st. induction ls as [|l ls IHl]; intros st Hc; [done|].
    cbn [foldl]. rewrite on_line_no_prefix by (apply Hc; by left).
    apply IHl. intros line Hl. apply Hc. by right. }
  apply IH. intros value line Hv. apply H. by right.
Qed.

Lemma unprefixed_lines_ignored_witness :
  fst (read_stream plain_engine start
         {| chunks := [js ": keep-alive" ++ [10] ++ dq "data:{'choices':[]}"
                       ++ [10] ++ dq " data: {'choices':[]}" ++ [10]];
            failure := None |})
  = start.
Proof.
  apply unprefixed_lines_ignored. intros value line Hv Hl.
  apply list_elem_of_singleton in Hv. subst value.
  vm_compute in Hl.
  repeat (apply elem_of_cons in Hl as [->|Hl]; [reflexivity|]).
  by apply elem_of_nil in Hl.
Defined.

(** ** Chunk boundaries *)

Lemma utf8_lead_ok b : pending_ok (snd (utf8_lead b)).
Proof.
  unfold utf8_lead. repeat case_match; simpl; try done; lia.
Qed.

Lemma utf8_decode_lf st a b :
  pending_ok st ->
  utf8_decode st (a ++ 10 :: b) = utf8_decode st a ++ 10 :: utf8_decode None b.
Proof.
  revert st. induction a as [|x a IH]; intros st Hst.
  - destruct st as [[[[cp n] lo] hi]|]; [|done].
    simpl in *. rewrite (proj2 (N.leb_gt lo 10)) by lia. done.
  - cbn [app utf8_decode].
    pose proof (utf8_lead_ok x) as Hx.
    destruct (utf8_lead x) as [out st'] eqn:Hl. simpl in Hx.
    destruct st as [[[[cp n] lo] hi]|].
    + destruct ((lo <=? x) && (x <=? hi)).
      * destruct n as [|[|n]]; rewrite ?IH by (simpl; lia);
          by rewrite ?(assoc_L (++)).
      * rewrite IH by done. cbn [app]. by rewrite (assoc_L (++)).
    + rewrite IH by done. by rewrite (assoc_L (++)).
Qed.

Lemma utf8_decode_nil a : utf8_decode None a = [] -> a = [].
Proof.
  assert (forall st a, utf8_decode st a = [] -> a = [] /\ st = None) as H.
  { clear. intros st a. revert st. induction a as [|x a IH]; intros st H.
    - by destruct st.
    - exfalso. cbn [utf8_decode] in H.
      destruct st as [[[[cp n] lo] hi]|].
      + destruct ((lo <=? x) && (x <=? hi)).
        * destruct n as [|[|n]].
          -- unfold utf16_encode in H. by destruct (_ <? _).
          -- unfold utf16_encode in H. by destruct (_ <? _).
          -- by apply IH in H as [_ ?].
        * by destruct (utf8_lead x).
      + unfold utf8_lead in H.
        repeat case_match; simplify_eq; simpl in *; try done;
          by apply IH in H as [_ ?]. }
  intros Ha. by apply H in Ha as [? _].
Qed.

(** What [TextDecoder.decode] gives for two runs of bytes joined by a
    line feed, when the second run does not open with a byte order
    mark (which the decoder drops at the start of a chunk only). *)
Lemma TextDecoder_decode_lf a b :
  head (utf8_decode None b) <> Some 0xFEFF ->
  TextDecoder_decode (a ++ 10 :: b)
  = TextDecoder_decode a ++ 10 :: TextDecoder_decode b.
Proof.
  intros Hb. unfold TextDecoder_decode at 1 2.
  rewrite utf8_decode_lf by done.
  assert (TextDecoder_decode b = utf8_decode None b) as ->.
  { unfold TextDecoder_decode. destruct (utf8_decode None b) as [|c r]; [done|].
    rewrite (proj2 (N.eqb_neq c 0xFEFF)); [done|]. naive_solver. }
  destruct (utf8_decode None a) as [|c r] eqn:Ha; [done|].
  cbn [app]. by destruct (c =? 0xFEFF).
Qed.

(** X3.  A chunk boundary that falls on a line feed is not seen: the
    bytes [a], line feed, [b] read as one chunk, as the chunks [a] with
    its line feed and [b], or as the chunks [a] and [b], leave the same
    state, provided [b] does not open with a byte order mark. *)
Theorem boundary_at_line_feed (E : engine) (st : reader_state)
    (a b : list N) :
  head (utf8_decode None b) <> Some 0xFEFF ->
  on_chunk E st (a ++ 10 :: b) = on_chunk E (on_chunk E st (a ++ [10])) b
  /\ on_chunk E st (a ++ 10 :: b) = on_chunk E (on_chunk E st a) b.
Proof.
  intros Hb.
  assert (on_chunk E st (a ++ 10 :: b) = on_chunk E (on_chunk E st a) b) as H.
  { unfold on_chunk.
    by rewrite TextDecoder_decode_lf, lines_of_app, foldl_app. }
  split; [|done]. rewrite H. f_equal.
  unfold on_chunk. rewrite TextDecoder_decode_lf by done.
  rewrite lines_of_app, foldl_app. done.
Qed.

Lemma boundary_at_line_feed_witness :
  on_chunk plain_engine start (line_A ++ 10 :: line_B)
  = on_chunk plain_engine (on_chunk plain_engine start line_A) line_B.
Proof.
  apply (boundary_at_line_feed plain_engine start line_A line_B).
  vm_compute. discriminate.
Defined.

(** ** Accepted turns *)

(** An accepted turn, in full: the chat it writes to is the first chat
    with the id [a], at index [i] of the collection, behind the chat
    the turn created if it did; the turn sends the request built from
    the messages of that chat and the user's message, and commits the
    user's message and the reply. *)
Lemma turn_accepted (E : engine) (env : turn_env) (s : app_state) :
  accepted s ->
  exists created a i c,
    Forall (fun c => messages c = []) created
    /\ (length created <= 1)%nat
    /\ (created = [] -> activeChat s = Some a)
    /\ list_find (fun c => chat_id c = a) (created ++ chats s) = Some (i, c)
    /\ messages c = prior_messages s
    /\ sendMessage E env s
       = Returned
           {| final :=
                {| chats :=
                     <[i := update_chat c
                              (if bool_decide (length (prior_messages s) = 0%nat)
                               then title_of (inputValue s) else title c)
                              (prior_messages s
                               ++ [user_message env s;
                                   reply_message E env
                                     (snd (answer E env (settings s)
                                             (build_request (settings s)
                                                (prior_messages s
                                                 ++ [user_message env s]))))])]>
                       (created ++ chats s);
                   activeChat := Some a;
                   inputValue := [];
                   isLoading := false;
                   streamingMessage := [];
                   settings := settings s |};
              request :=
                Some (build_request (settings s)
                        (prior_messages s ++ [user_message env s]));
              deltas :=
                fst (answer E env (settings s)
                       (build_request (settings s)
                          (prior_messages s ++ [user_message env s]))) |}.
Proof.
  intros (Hin & Hload & Hvalid).
  set (newChat := {| chat_id := new_chat_id env;
                     title := title_of (inputValue s);
                     messages := []; createdAt := new_chat_time env |}).
  assert (exists created a i c,
    (match activeChat s with
     | Some (u :: id) => (u :: id, chats s, activeChat s)
     | _ => (chat_id newChat, newChat :: chats s, Some (chat_id newChat))
     end) = (a, created ++ chats s, Some a)
    /\ Forall (fun c => messages c = []) created
    /\ (length created <= 1)%nat
    /\ (created = [] -> activeChat s = Some a)
    /\ list_find (fun c => chat_id c = a) (created ++ chats s) = Some (i, c)
    /\ messages c = prior_messages s)
    as (created & a & i & c & Hsel & Hcr & Hlen & Hact & Hfind & Hprior).
  { unfold prior_messages, currentChat, pointer_valid in *.
    assert (list_find (fun c => chat_id c = new_chat_id env) (newChat :: chats s)
            = Some (0%nat, newChat)) as Hnew
      by (simpl; by rewrite decide_True).
    destruct (activeChat s) as [[|u id]|] eqn:Ha.
    - exists [newChat], (new_chat_id env), 0%nat, newChat.
      repeat split; try done. by repeat constructor.
    - destruct Hvalid as [Hfalsy|(c & Hc & Hid)]; [done|].
      destruct (list_find_elem_of (fun c => chat_id c = u :: id) (chats s) c Hc Hid)
        as [[i c0] Hf].
      exists [], (u :: id), i, c0. rewrite Hf. repeat split; try done.
      simpl; lia.
    - exists [newChat], (new_chat_id env), 0%nat, newChat.
      repeat split; try done. by repeat constructor. }
  exists created, a, i, c. do 5 (split; [done|]).
  assert (chat_id c = a) as Hid
    by (by apply list_find_Some in Hfind as (_ & ? & _)).
  unfold sendMessage.
  rewrite bool_decide_eq_false_2, Hload by done. cbn [orb].
  fold newChat. rewrite Hsel. cbn beta iota zeta.
  fold (user_message env s).
  rewrite (append_user_found _ _ _ _ _ _ Hfind). cbn [mbind outcome_bind].
  rewrite Hprior.
  set (c1 := update_chat c _ _).
  assert (list_find (fun c => chat_id c = a) (<[i:=c1]> (created ++ chats s))
          = Some (i, c1)) as Hfind1
    by (by apply (list_find_replace _ _ _ c)).
  unfold complete. cbn [mbind option_bind].
  assert (<[i:=c1]> (created ++ chats s) !! i = Some c1) as ->
    by (by apply list_find_Some in Hfind1 as (? & _)).
  subst c1. cbn [update_chat messages]. unfold answer.
  set (req := build_request _ _).
  destruct (network env req) as [e|r].
  - cbn [result try_catch mbind outcome_bind sent shown fst snd].
    rewrite (append_reply_found _ _ _ _ _ Hfind1). cbn [mbind outcome_bind].
    rewrite list_insert_insert_eq. cbn [update_chat title messages].
    by rewrite <- (assoc_L (++)).
  - destruct (receive E (settings s) r) as [snapshots [v|e]];
      cbn [result try_catch mbind outcome_bind sent shown fst snd];
      rewrite (append_reply_found _ _ _ _ _ Hfind1); cbn [mbind outcome_bind];
      rewrite list_insert_insert_eq; cbn [update_chat title messages];
      by rewrite <- (assoc_L (++)).
Qed.

(** What an accepted turn leaves: the active chat with the user's
    message and the reply for the answer to the request. *)
Lemma turn_reply (E : engine) (env : turn_env) (s : app_state) :
  accepted s ->
  exists t c,
    sendMessage E env s = Returned t
    /\ currentChat (final t) = Some c
    /\ messages c
       = prior_messages s
         ++ [user_message env s;
             reply_message E env
               (snd (answer E env (settings s) (turn_request env s)))]
    /\ request t = Some (turn_request env s)
    /\ deltas t = fst (answer E env (settings s) (turn_request env s)).
Proof.
  intros Hacc.
  destruct (turn_accepted E env s Hacc)
    as (created & a & i & c & _ & _ & _ & Hfind & _ & ->).
  eexists _, _. split; [reflexivity|].
  cbn [final request deltas]. unfold currentChat. cbn [activeChat chats].
  assert (chat_id c = a) as Hid
    by (by apply list_find_Some in Hfind as (_ & ? & _)).
  erewrite list_find_replace; [|exact Hfind|exact Hid].
  by repeat split.
Qed.



(** X5.  The request of an accepted turn is built from the settings
    and from all the messages the chat held, earlier error messages
    included, followed by the user's message: the body starts with the
    system prompt and ends with the text just typed, as written. *)
Theorem accepted_turn_request (E : engine) (env : turn_env) (s : app_state) :
  accepted s ->
  exists t req,
    sendMessage E env s = Returned t
    /\ request t = Some req
    /\ req = build_request (settings s)
               (prior_messages s ++ [user_message env s])
    /\ head (body_messages (payload req))
       = Some {| api_role := js "system";
                 api_content := JStr (systemPrompt (settings s)) |}
    /\ last (body_messages (payload req))
       = Some {| api_role := js "user";
                 api_content := JStr (inputValue s) |}
    /\ length (body_messages (payload req))
       = (length (prior_messages s) + 2)%nat.
Proof.
  intros Hacc.
  destruct (turn_reply E env s Hacc) as (t & c & Ht & _ & _ & Hreq & _).
  exists t, (turn_request env s). split; [done|]. split; [done|].
  split; [done|]. unfold turn_request, build_request.
  cbn [payload body_messages]. split; [done|]. split.
  - rewrite map_app. cbn [map]. rewrite app_comm_cons. apply last_snoc.
  - cbn [length]. rewrite length_map, length_app. simpl. lia.
Qed.

Lemma accepted_turn_request_witness :
  exists t req,
    sendMessage plain_engine (answering {| status := 500; stream := None |})
      (typed (js "What is APR?")) = Returned t
    /\ request t = Some req
    /\ length (body_messages (payload req)) = 2%nat.
Proof.
  destruct (accepted_turn_request plain_engine
              (answering {| status := 500; stream := None |})
              (typed (js "What is APR?")))
    as (t & req & Ht & Hr & _ & _ & _ & Hlen).
  - split; [vm_compute; discriminate|]. split; [reflexivity|].
    left. reflexivity.
  - exists t, req. split; [exact Ht|]. split; [exact Hr|]. exact Hlen.
Defined.

Lemma accepted_typed text :
  trim text <> [] -> forall cfg, accepted (setInputValue text (initial cfg)).
Proof. intros H cfg. split; [done|]. split; [done|]. by left. Qed.

(** X6.  When [fetch] is rejected (the network is down, the endpoint
    does not resolve), an accepted turn shows no snapshot and commits
    the warning text built around the reason of the rejection. *)
Theorem transport_error_turn (E : engine) (env : turn_env) (s : app_state)
    (e : js_error) :
  accepted s ->
  (forall req, network env req = FetchRejected e) ->
  exists t c,
    sendMessage E env s = Returned t
    /\ currentChat (final t) = Some c
    /\ messages c
       = prior_messages s
         ++ [user_message env s;
             {| msg_id := reply_msg_id env; msg_role := assistant;
                content := JStr (error_text (error_message E e));
                timestamp := reply_msg_time env |}]
    /\ includes (error_text (error_message E e)) (error_message E e) = true
    /\ deltas t = [].
Proof.
  intros Hacc Hnet.
  destruct (turn_reply E env s Hacc) as (t & c & Ht & Hc & Hm & _ & Hd).
  unfold answer in *. rewrite Hnet in *.
  exists t, c. repeat split; try done. apply error_text_mentions.
Qed.

Lemma transport_error_turn_witness :
  exists t c,
    sendMessage plain_engine (failing (js "Failed to fetch"))
      (typed (js "What is APR?")) = Returned t
    /\ currentChat (final t) = Some c
    /\ length (messages c) = 2%nat.
Proof.
  destruct (transport_error_turn plain_engine (failing (js "Failed to fetch"))
              (typed (js "What is APR?")) (JsError (js "Failed to fetch")))
    as (t & c & Ht & Hc & Hm & _).
  - apply accepted_typed. vm_compute. discriminate.
  - reflexivity.
  - exists t, c. split; [exact Ht|]. split; [exact Hc|]. by rewrite Hm.
Defined.

(** X7.  A streamed answer that ends normally is committed as the
    assistant message whose text is the text accumulated: the last
    snapshot shown, if any was shown, and the empty text if no line
    carried content (an empty stream included).  The default text of
    the other path is not used here. *)
Theorem streamed_answer_committed (E : engine) (env : turn_env)
    (s : app_state) (r : response) (b : body) :
  accepted s ->
  (forall req, network env req = FetchResponse r) ->
  ok r = true -> streaming (settings s) = true ->
  stream r = Some b -> failure b = None ->
  exists t c text,
    sendMessage E env s = Returned t
    /\ currentChat (final t) = Some c
    /\ last (messages c)
       = Some {| msg_id := reply_msg_id env; msg_role := assistant;
                 content := JStr text; timestamp := reply_msg_time env |}
    /\ text = assistantContent (fst (read_stream E start b))
    /\ deltas t = emitted (fst (read_stream E start b))
    /\ (deltas t <> [] -> last (deltas t) = Some text)
    /\ (deltas t = [] -> text = []).
Proof.
  intros Hacc Hnet Hok Hs Hb Hf.
  destruct (turn_reply E env s Hacc) as (t & c & Ht & Hc & Hm & _ & Hd).
  unfold answer, receive in *. rewrite Hnet, Hok, Hs, Hb in *.
  cbn [negb] in *. unfold read_stream in *. rewrite Hf in *. cbn [fst snd] in *.
  exists t, c, (assistantContent (foldl (on_chunk E) start (chunks b))).
  split; [done|]. split; [done|]. split.
  { by rewrite Hm, last_app. }
  split; [done|]. split; [done|]. rewrite Hd.
  destruct (read_stream_keeps E start b) as [_ Hk].
  destruct Hk as (_ & _ & Hlast).
  { repeat split; try done. by intros ? Hx%elem_of_nil. }
  split; [exact Hlast|].
  intros Hnil.
  assert (forall st, coherent st -> emitted st = [] -> assistantContent st = []
          -> forall cs, emitted (foldl (on_chunk E) st cs) = [] ->
             assistantContent (foldl (on_chunk E) st cs) = []) as Hempty.
  { clear. intros st _ He Ha cs. revert st He Ha.
    assert (forall st line, emitted (on_line E st line) = [] ->
                            on_line E st line = st) as Hline.
    { intros st line H.
      destruct (on_line_cumulative E st line) as [->|(text & _ & He)]; [done|].
      rewrite He in H. by destruct (emitted st). }
    assert (forall ls st, emitted (foldl (on_line E) st ls) = [] ->
                          foldl (on_line E) st ls = st) as Hlines.
    { induction ls as [|l ls IH]; intros st H; [done|]. cbn [foldl] in *.
      pose proof (IH _ H) as Hrest. rewrite Hrest in H |- *.
      by apply Hline. }
    induction cs as [|c cs IH]; intros st He Ha H; [done|].
    cbn [foldl] in *.
    assert (emitted (on_chunk E st c) = []) as Hc.
    { destruct (read_stream_keeps E (on_chunk E st c)
                  {| chunks := cs; failure := None |}) as [[_ Hp] _].
      unfold read_stream in Hp. cbn [fst chunks] in Hp. rewrite H in Hp.
      by apply prefix_nil_inv in Hp. }
    unfold on_chunk in Hc. apply Hlines in Hc.
    unfold on_chunk in H |- *. rewrite Hc in H |- *. by apply IH. }
  apply Hempty; try done. repeat split; try done. by intros ? Hx%elem_of_nil.
Qed.

Lemma streamed_answer_committed_witness :
  exists t c,
    sendMessage plain_engine
      (answering {| status := 200; stream := Some one_chunk |})
      (typed (js "What is APR?")) = Returned t
    /\ currentChat (final t) = Some c
    /\ content <$> last (messages c) = Some (JStr (js "AB")).
Proof.
  destruct (streamed_answer_committed plain_engine
              (answering {| status := 200; stream := Some one_chunk |})
              (typed (js "What is APR?"))
              {| status := 200; stream := Some one_chunk |} one_chunk)
    as (t & c & text & Ht & Hc & Hl & Htext & _).
  - apply accepted_typed. vm_compute. discriminate.
  - reflexivity.
  - reflexivity.
  - reflexivity.
  - reflexivity.
  - reflexivity.
  - exists t, c. split; [exact Ht|]. split; [exact Hc|].
    rewrite Hl, Htext. reflexivity.
Defined.

Lemma accepted_turn_commits_aux (E : engine) (env : turn_env) (s : app_state) :
  accepted s -> forall t, sendMessage E env s = Returned t ->
  streamingMessage (final t) = [].
Proof.
  intros Hacc t Ht.
  destruct (turn_accepted E env s Hacc)
    as (created & a & i & c & _ & _ & _ & _ & _ & Heq).
  rewrite Heq in Ht. by simplify_eq.
Qed.

(** X8.  When the body fails while it is read, the snapshots shown so
    far are all that is left of the answer: the message committed is
    the warning text with the reason of the failure, and the text
    accumulated before the failure is stored nowhere. *)
Theorem broken_stream_turn (E : engine) (env : turn_env) (s : app_state)
    (r : response) (b : body) (e : js_error) :
  accepted s ->
  (forall req, network env req = FetchResponse r) ->
  ok r = true -> streaming (settings s) = true ->
  stream r = Some b -> failure b = Some e ->
  exists t c,
    sendMessage E env s = Returned t
    /\ currentChat (final t) = Some c
    /\ messages c
       = prior_messages s
         ++ [user_message env s;
             {| msg_id := reply_msg_id env; msg_role := assistant;
                content := JStr (error_text (error_message E e));
                timestamp := reply_msg_time env |}]
    /\ deltas t = emitted (fst (read_stream E start b))
    /\ streamingMessage (final t) = [].
Proof.
  intros Hacc Hnet Hok Hs Hb Hf.
  destruct (turn_reply E env s Hacc) as (t & c & Ht & Hc & Hm & _ & Hd).
  pose proof (accepted_turn_commits_aux E env s Hacc t Ht) as Hsm.
  unfold answer, receive in *. rewrite Hnet, Hok, Hs, Hb in *.
  cbn [negb] in *. unfold read_stream in *. rewrite Hf in *. cbn [fst snd] in *.
  by exists t, c.
Qed.

Lemma broken_stream_turn_witness :
  exists t c,
    sendMessage plain_engine
      (answering {| status := 200; stream := Some broken_stream |})
      (typed (js "What is APR?")) = Returned t
    /\ currentChat (final t) = Some c
    /\ length (messages c) = 2%nat
    /\ deltas t = [js "A"].
Proof.
  destruct (broken_stream_turn plain_engine
              (answering {| status := 200; stream := Some broken_stream |})
              (typed (js "What is APR?"))
              {| status := 200; stream := Some broken_stream |} broken_stream
              (JsError (js "network error")))
    as (t & c & Ht & Hc & Hm & Hd & _).
  - apply accepted_typed. vm_compute. discriminate.
  - reflexivity.
  - reflexivity.
  - reflexivity.
  - reflexivity.
  - reflexivity.
  - exists t, c. split; [exact Ht|]. split; [exact Hc|].
    split; [by rewrite Hm|]. rewrite Hd. reflexivity.
Defined.

Lemma or_else_truthy E v d : truthy E d = true -> truthy E (or_else E v d) = true.
Proof.
  intros Hd. unfold or_else. destruct v as [x|]; [|done].
  by destruct (truthy E x) eqn:Hx.
Qed.

(** X9.  Without streaming, the reply of an accepted turn is never an
    empty text and never null, whatever the endpoint answers: an absent
    or empty content is replaced by the default text, and every failure
    by the warning text.  (With streaming the reply can be the empty
    text.) *)
Theorem plain_reply_never_empty (E : engine) (env : turn_env) (s : app_state) :
  accepted s ->
  streaming (settings s) = false ->
  exists t c reply,
    sendMessage E env s = Returned t
    /\ currentChat (final t) = Some c
    /\ last (messages c) = Some reply
    /\ msg_role reply = assistant
    /\ truthy E (content reply) = true
    /\ content reply <> JStr []
    /\ content reply <> JNull
    /\ deltas t = [].
Proof.
  intros Hacc Hs.
  destruct (turn_reply E env s Hacc) as (t & c & Ht & Hc & Hm & _ & Hd).
  set (ans := answer E env (settings s) (turn_request env s)) in *.
  exists t, c, (reply_message E env (snd ans)).
  split; [done|]. split; [done|]. split; [by rewrite Hm, last_app|].
  split; [done|].
  assert (truthy E (content (reply_message E env (snd ans))) = true
          /\ fst ans = []) as [Htr Hnil].
  { subst ans. unfold answer. destruct (network env _) as [e|r]; [done|].
    unfold receive. destruct (negb (ok r)); [done|]. rewrite Hs.
    cbn [fst snd]. split; [|done].
    destruct (response_json r) as [data|e]; [|done]. cbn [mbind outcome_bind].
    destruct (member _ _) as [choices|e]; [|done]. cbn [mbind outcome_bind].
    cbn [reply_message content]. by apply or_else_truthy. }
  split; [done|]. split; [|split; [|by rewrite Hd]].
  - intros Heq. by rewrite Heq in Htr.
  - intros Heq. by rewrite Heq in Htr.
Qed.

Lemma plain_reply_never_empty_witness :
  exists t c,
    sendMessage plain_engine
      (answering {| status := 200;
                    stream := Some {| chunks := [dq "{'choices':[]}"];
                                      failure := None |} |})
      (setInputValue (js "What is APR?") (initial plain_settings)) = Returned t
    /\ currentChat (final t) = Some c
    /\ content <$> last (messages c)
       = Some (JStr (js "No response received.")).
Proof.
  destruct (plain_reply_never_empty plain_engine
      (answering {| status := 200;
                    stream := Some {| chunks := [dq "{'choices':[]}"];
                                      failure := None |} |})
      (setInputValue (js "What is APR?") (initial plain_settings)))
    as (t & c & reply & Ht & Hc & Hl & _).
  - apply accepted_typed. vm_compute. discriminate.
  - reflexivity.
  - exists t, c. split; [exact Ht|]. split; [exact Hc|].
    vm_compute in Ht. simplify_eq. vm_compute in Hc. simplify_eq.
    reflexivity.
Defined.

(** ** Invariants of every run *)

Section Runs.

Variable E : engine.

Lemma alternating_nil : alternating [].
Proof. split; [done|]. by intros i m H. Qed.

Lemma alternating_turn l u a :
  alternating l -> msg_role u = user -> msg_role a = assistant ->
  alternating (l ++ [u; a]).
Proof.
  intros [Hlen Hl] Hu Ha. split.
  - rewrite length_app. cbn [length].
    replace (length l + 2)%nat with (S (S (length l))) by lia. done.
  - intros i m Hi.
    destruct (decide (i < length l)%nat) as [Hlt|Hge].
    + rewrite lookup_app_l in Hi by done. by apply Hl.
    + rewrite lookup_app_r in Hi by lia.
      destruct (i - length l)%nat as [|[|k]] eqn:Hk; simpl in Hi; simplify_eq.
      * replace i with (length l) by lia. by rewrite Hlen.
      * replace i with (S (length l)) by lia.
        rewrite Nat.even_succ, <- Nat.negb_even, Hlen. done.
Qed.

Lemma sendMessage_alternating env s t :
  Forall (fun c => alternating (messages c)) (chats s) ->
  sendMessage E env s = Returned t ->
  Forall (fun c => alternating (messages c)) (chats (final t)).
Proof.
  intros Hs Ht.
  destruct (sendMessage_shape E env s) as (t' & Ht' & Hshape).
  rewrite Ht in Ht'. simplify_eq.
  destruct Hshape as [->|(created & a & l & -> & Hcr & _ & _ & Hcase)]; [done|].
  assert (Forall (fun c => alternating (messages c)) (created ++ chats s)) as Hl.
  { apply Forall_app. split; [|done].
    eapply Forall_impl; [exact Hcr|]. intros c ->. apply alternating_nil. }
  destruct Hcase as [[_ ->]|(i & c & reply & Hfind & Hrole & ->)]; [done|].
  apply Forall_insert; [done|]. cbn [update_chat messages].
  apply alternating_turn; [|done..].
  apply list_find_Some in Hfind as (Hi & _ & _).
  eapply (Forall_forall (fun c => alternating (messages c))); [exact Hl|].
  by eapply list_elem_of_lookup_2.
Qed.

Lemma step_alternating s a s' :
  Forall (fun c => alternating (messages c)) (chats s) ->
  step E s a = Returned s' ->
  Forall (fun c => alternating (messages c)) (chats s').
Proof.
  intros Hs. destruct a as [[id now|chatId]|i|text|env]; simpl; intros H.
  - simplify_eq. cbn [createNewChat chats]. constructor; [|done].
    apply alternating_nil.
  - simplify_eq. cbn [deleteChat chats]. apply Forall_forall.
    intros c [_ Hc]%list_elem_of_filter.
    by eapply (Forall_forall (fun c => alternating (messages c))) in Hs.
  - simplify_eq. unfold select. by destruct (chats s !! i).
  - by simplify_eq.
  - destruct (sendMessage E env s) as [t|e] eqn:Ht; [|done].
    simpl in H. simplify_eq. by eapply sendMessage_alternating.
Qed.

Lemma sendMessage_some_active env s t :
  some_active s -> sendMessage E env s = Returned t -> some_active (final t).
Proof.
  intros Hs Ht.
  destruct (sendMessage_shape E env s) as (t' & Ht' & Hshape).
  rewrite Ht in Ht'. simplify_eq.
  destruct Hshape as [->|(created & a & l & _ & _ & Ha & _)]; [done|].
  unfold some_active. by rewrite Ha.
Qed.

Lemma step_some_active s a s' :
  some_active s -> step E s a = Returned s' -> some_active s'.
Proof.
  intros Hs. destruct a as [[id now|chatId]|i|text|env]; simpl; intros H.
  - by simplify_eq.
  - simplify_eq. unfold some_active, deleteChat. cbn [activeChat chats].
    destruct (decide (activeChat s = Some chatId)) as [Ha|Ha].
    + by destruct (filter _ (chats s)).
    + intros Hn. by rewrite (Hs Hn).
  - simplify_eq. unfold select.
    destruct (chats s !! i) as [c|]; [|done]. by intros ?.
  - by simplify_eq.
  - destruct (sendMessage E env s) as [t|e] eqn:Ht; [|done].
    simpl in H. simplify_eq. by eapply sendMessage_some_active.
Qed.

Lemma run_invariants l s s' :
  Forall (fun c => alternating (messages c)) (chats s) ->
  some_active s ->
  run E s l = Returned s' ->
  Forall (fun c => alternating (messages c)) (chats s') /\ some_active s'.
Proof.
  revert s. induction l as [|a l IH]; intros s Hs Ha H; simpl in H.
  - by simplify_eq.
  - destruct (step E s a) as [s1|e] eqn:Hstep; [|done]. simpl in H.
    eapply IH; [| |exact H].
    + by eapply step_alternating.
    + by eapply step_some_active.
Qed.

End Runs.

(** X10.  Whatever the user does from the start (new chat, delete,
    select, type, send) and whatever the network answers, the run
    returns, and in every chat the turns alternate: the messages come
    in pairs, a message of the user followed by one message of the
    assistant, the answer or the warning of that turn. *)
Theorem turns_alternate (E : engine) (cfg : Settings) (actions : list action) :
  exists s,
    run E (initial cfg) actions = Returned s
    /\ forall c, c ∈ chats s ->
         Nat.even (length (messages c)) = true
         /\ forall i m, messages c !! i = Some m ->
              msg_role m = if Nat.even i then user else assistant.
Proof.
  destruct (run_returns E actions (initial cfg)) as [s Hs]. exists s.
  split; [done|]. intros c Hc.
  destruct (run_invariants E actions (initial cfg) s) as [Halt _]; try done.
  by eapply (Forall_forall (fun c => alternating (messages c))) in Halt.
Qed.

(** X11.  Under every action, sending and selecting included, the
    active chat stays a chat of the collection or null, and it is null
    only when the collection is empty. *)
Theorem active_chat_kept (E : engine) (cfg : Settings) (actions : list action) :
  exists s,
    run E (initial cfg) actions = Returned s
    /\ match activeChat s with
       | Some a => exists c, c ∈ chats s /\ chat_id c = a
       | None => chats s = []
       end.
Proof.
  destruct (run_returns E actions (initial cfg)) as [s Hs]. exists s.
  split; [done|].
  destruct (run_invariants E actions (initial cfg) s) as [_ Hsome]; try done.
  pose proof (run_valid E actions (initial cfg) s I Hs) as Hvalid.
  unfold pointer_valid, some_active in *.
  destruct (activeChat s); [done|]. by apply Hsome.
Qed.

(** ** Deleting chats *)

Lemma filter_id_comm (a b : jsstring) (l : list chat) :
  filter (fun c => chat_id c <> a) (filter (fun c => chat_id c <> b) l)
  = filter (fun c => chat_id c <> b) (filter (fun c => chat_id c <> a) l).
Proof.
  rewrite !list_filter_filter. apply list_filter_iff. intros c. tauto.
Qed.

Lemma filter_id_idemp (a : jsstring) (l : list chat) :
  filter (fun c => chat_id c <> a) (filter (fun c => chat_id c <> a) l)
  = filter (fun c => chat_id c <> a) l.
Proof.
  rewrite list_filter_filter. apply list_filter_iff. intros c. tauto.
Qed.

(** The pointer after deleting [a], from the pointer and the chats
    that remain. *)
Lemma deleteChat_active a s :
  activeChat (deleteChat a s)
  = if decide (activeChat s = Some a)
    then chat_id <$> head (filter (fun c => chat_id c <> a) (chats s))
    else activeChat s.
Proof.
  unfold deleteChat. cbn [activeChat]. destruct (decide _); [|done].
  by destruct (filter _ (chats s)).
Qed.

Lemma head_filter_keep (a : jsstring) (l : list chat) :
  chat_id <$> head l <> Some a ->
  head (filter (fun c => chat_id c <> a) l) = head l.
Proof.
  destruct l as [|c l]; [done|]. simpl. intros H.
  rewrite filter_cons_True; [done|]. congruence.
Qed.

Lemma app_state_eq s1 s2 :
  chats s1 = chats s2 -> activeChat s1 = activeChat s2 ->
  inputValue s1 = inputValue s2 -> isLoading s1 = isLoading s2 ->
  streamingMessage s1 = streamingMessage s2 -> settings s1 = settings s2 ->
  s1 = s2.
Proof. destruct s1, s2. simpl. by intros -> -> -> -> -> ->. Qed.

(** X12.  Deleting removes every chat that has the id and nothing
    else: no chat with the id is left, the other chats stay, in their
    order, and the input, the flag and the settings are untouched.
    Deleting the same id again changes nothing, and two deletions can
    be made in either order: the collection and the active chat end up
    the same. *)
Theorem deleteChat_removes (a b : jsstring) (s : app_state) :
  (forall c, c ∈ chats (deleteChat a s) <-> c ∈ chats s /\ chat_id c <> a)
  /\ chats (deleteChat a s) `sublist_of` chats s
  /\ inputValue (deleteChat a s) = inputValue s
  /\ isLoading (deleteChat a s) = isLoading s
  /\ settings (deleteChat a s) = settings s
  /\ deleteChat a (deleteChat a s) = deleteChat a s
  /\ deleteChat a (deleteChat b s) = deleteChat b (deleteChat a s).
Proof.
  split; [intros c; cbn [deleteChat chats]; rewrite list_elem_of_filter;
          tauto|].
  split.
  { cbn [deleteChat chats]. induction (chats s) as [|c l IH]; [done|].
    rewrite filter_cons. destruct (decide _); by constructor. }
  do 3 (split; [done|]).
  split.
  - apply app_state_eq; try done.
    + cbn [deleteChat chats]. apply filter_id_idemp.
    + rewrite (deleteChat_active a (deleteChat a s)).
      destruct (decide (activeChat (deleteChat a s) = Some a)) as [Ha|]; [|done].
      exfalso. rewrite deleteChat_active in Ha.
      destruct (decide (activeChat s = Some a)); [|done].
      destruct (filter _ (chats s)) as [|c l] eqn:Hf; [done|].
      assert (c ∈ filter (fun c => chat_id c <> a) (chats s)) as Hc
        by (rewrite Hf; by left).
      apply list_elem_of_filter in Hc as [Hc _]. simpl in Ha. congruence.
  - apply app_state_eq; try done.
    + cbn [deleteChat chats]. apply filter_id_comm.
    + destruct (decide (a = b)) as [->|Hab]; [done|].
      rewrite !deleteChat_active. cbn [deleteChat chats].
      destruct (decide (activeChat s = Some a)) as [Ha|Ha];
        destruct (decide (activeChat s = Some b)) as [Hb|Hb];
        try congruence.
      * rewrite (filter_id_comm a b).
        repeat case_decide; try done.
        by rewrite (head_filter_keep b).
      * rewrite <- (filter_id_comm a b).
        repeat case_decide; try done.
        by rewrite (head_filter_keep a).
      * by repeat case_decide.
Qed.

(** X13.  Creating a chat and deleting it at once gives the collection
    back, provided the new id was not in use, but not the selection:
    the active chat is then the first chat of the collection, whichever
    chat was active before, and the input has been emptied. *)
Theorem create_then_delete (id now : jsstring) (s : app_state) :
  (forall c, c ∈ chats s -> chat_id c <> id) ->
  chats (deleteChat id (createNewChat id now s)) = chats s
  /\ activeChat (deleteChat id (createNewChat id now s))
     = chat_id <$> head (chats s)
  /\ inputValue (deleteChat id (createNewChat id now s)) = [].
Proof.
  intros Hfresh.
  assert (filter (fun c => chat_id c <> id) (chats (createNewChat id now s))
          = chats s) as Hf.
  { cbn [createNewChat chats]. rewrite filter_cons_False by (by intros []).
    apply filter_all, Forall_forall, Hfresh. }
  split; [exact Hf|]. split; [|done].
  rewrite deleteChat_active, Hf. cbn [createNewChat activeChat chat_id].
  by rewrite decide_True.
Qed.

Lemma create_then_delete_witness :
  activeChat
    (deleteChat (js "new") (createNewChat (js "new") (js "t3")
       (foldl apply_op (initial cloud_settings)
          [Create (js "a") (js "t1"); Create (js "b") (js "t2");
           Delete (js "zz")])))
  = Some (js "b").
Proof.
  apply (create_then_delete (js "new") (js "t3")).
  intros c Hc. vm_compute in Hc.
  repeat (apply elem_of_cons in Hc as [->|Hc]; [discriminate|]).
  by apply elem_of_nil in Hc.
Defined.

(** ** [MessageContent], for every message *)

Lemma startsWith_app_l a b p : startsWith a p = true -> startsWith (a ++ b) p = true.
Proof.
  revert a. induction p as [|x p IH]; intros [|y a] H; simpl in *; try done.
  apply andb_true_iff in H as [-> H]. simpl. by apply IH.
Qed.

Lemma until_fence_spec s code rest :
  until_fence s = Some (code, rest) ->
  s = code ++ fence ++ rest /\ includes code fence = false.
Proof.
  revert code rest. induction s as [|c s IH]; intros code rest H.
  - done.
  - cbn [until_fence] in H.
    destruct (startsWith (c :: s) fence) eqn:Hf.
    + simplify_eq. split; [|done]. by apply startsWith_app in Hf.
    + apply push_unit_Some in H as (code' & H & ->).
      destruct (IH _ _ H) as [-> Hno]. split; [done|].
      cbn [includes]. rewrite Hno, orb_false_r.
      destruct (startsWith (c :: code') fence) eqn:Hc; [|done].
      apply (startsWith_app_l _ (fence ++ rest)) in Hc. simpl in Hc, Hf.
      congruence.
Qed.

Lemma span_word_spec s w r :
  span_word s = (w, r) ->
  s = w ++ r /\ Forall (fun c => isWordChar c = true) w.
Proof.
  revert w r. induction s as [|c s IH]; intros w r H; simpl in H.
  - by simplify_eq.
  - destruct (isWordChar c) eqn:Hc; [|by simplify_eq].
    destruct (span_word s) as [w' r'] eqn:Hs. simplify_eq.
    destruct (IH _ _ eq_refl) as [-> Hw]. split; [done|]. by constructor.
Qed.

Lemma match_here_spec s lang code rest :
  match_here s = Some (lang, code, rest) ->
  s = fence ++ lang ++ 10 :: code ++ fence ++ rest
  /\ Forall (fun c => isWordChar c = true) lang
  /\ includes code fence = false.
Proof.
  unfold match_here. intros H.
  destruct (startsWith s fence) eqn:Hf; [|done].
  apply startsWith_app in Hf.
  destruct (span_word (drop 3 s)) as [w r] eqn:Hw.
  apply span_word_spec in Hw as [Hw Hword].
  destruct r as [|c r']; [done|]. destruct (c =? 10) eqn:Hc; [|done].
  apply N.eqb_eq in Hc. subst c.
  destruct (until_fence r') as [[code' rest']|] eqn:Hu; [|done].
  simplify_eq. apply until_fence_spec in Hu as [-> Hno].
  split; [|done]. rewrite Hf at 1. f_equal. exact Hw.
Qed.

Lemma regex_exec_spec s skipped lang code rest :
  regex_exec s = Some (skipped, lang, code, rest) ->
  s = skipped ++ fence ++ lang ++ 10 :: code ++ fence ++ rest
  /\ Forall (fun c => isWordChar c = true) lang
  /\ includes code fence = false.
Proof.
  revert skipped. induction s as [|c s IH]; intros skipped H.
  - simpl in H. by destruct (match_here []).
  - cbn [regex_exec] in H.
    destruct (match_here (c :: s)) as [[[l k] r]|] eqn:Hm.
    + simplify_eq. by apply match_here_spec in Hm.
    + destruct (regex_exec s) as [[[[sk l] k] r]|]; [|done].
      simplify_eq. destruct (IH _ eq_refl) as (-> & ? & ?). done.
Qed.

Lemma scan_parts_spec f s :
  (length s < f)%nat ->
  (exists srcs, Forall2 part_source (scan_parts f s) srcs /\ concat srcs = s)
  /\ Forall part_ok (scan_parts f s).
Proof.
  revert s. induction f as [|f IH]; intros s Hf; [lia|].
  cbn [scan_parts].
  destruct (regex_exec s) as [[[[sk l] k] r]|] eqn:Hx.
  - pose proof (regex_exec_length _ _ _ _ _ Hx) as Hlen.
    apply regex_exec_spec in Hx as (-> & Hword & Hno).
    destruct (IH r) as [(srcs & Hs & Hc) Hok]; [lia|].
    assert (part_source (Code (match l with [] => js "code" | _ :: _ => l end) k)
              (fence ++ l ++ 10 :: k ++ fence)) as Hcode.
    { exists l. split; [done|]. destruct l; [by right|by left]. }
    assert (part_ok (Code (match l with [] => js "code" | _ :: _ => l end) k))
      as Hcok.
    { destruct l; [|done]. split; [done|]. split; [|done].
      by repeat constructor. }
    split.
    + destruct sk as [|x sk].
      * exists ((fence ++ l ++ 10 :: k ++ fence) :: srcs).
        split; [by constructor|]. cbn [concat app]. rewrite Hc.
        by repeat (rewrite <- app_assoc || rewrite <- app_comm_cons).
      * exists ((x :: sk) :: (fence ++ l ++ 10 :: k ++ fence) :: srcs).
        split; [by repeat constructor|]. cbn [concat]. rewrite Hc.
        by repeat (rewrite <- app_assoc || rewrite <- app_comm_cons).
    + destruct sk as [|x sk]; cbn [app].
      * by constructor.
      * constructor; [done|]. by constructor.
  - split.
    + destruct s as [|c s]; [by exists []|].
      exists [c :: s]. split; [by repeat constructor|]. cbn [concat].
      by rewrite app_nil_r.
    + destruct s; by repeat constructor.
Qed.

(** X14.  Nothing of a message is lost or moved by the cut into parts:
    the pieces the parts were cut from, in their order, make up the
    message.  Only the fences and the language line are not shown, and
    a missing language is shown as [code]. *)
Theorem parts_cover_content (content : jsstring) :
  exists srcs,
    Forall2 part_source (MessageContent content) srcs
    /\ concat srcs = content.
Proof.
  unfold MessageContent.
  destruct (scan_parts_spec (S (length content)) content) as [(srcs & Hs & Hc) _];
    [lia|].
  destruct (scan_parts _ content) as [|p ps]; [|by exists srcs].
  apply Forall2_nil_inv_l in Hs. subst srcs. simpl in Hc. subst content.
  exists [[]]. split; [by repeat constructor|done].
Qed.

(** X15.  A message is always cut into at least one part.  For a
    message that is not empty, no text part is empty, the language of a
    code part is a non-empty run of word characters, and the code of a
    code part holds no fence of three backticks. *)
Theorem parts_well_formed (content : jsstring) :
  MessageContent content <> []
  /\ (content = [] -> MessageContent content = [Text []])
  /\ (content <> [] -> Forall part_ok (MessageContent content)).
Proof.
  unfold MessageContent.
  destruct (scan_parts_spec (S (length content)) content)
    as [(srcs & Hs & Hc) Hok]; [lia|].
  split; [by destruct (scan_parts _ content)|]. split.
  - by intros ->.
  - intros Hne. destruct (scan_parts _ content) as [|p ps]; [|done].
    apply Forall2_nil_inv_l in Hs. subst srcs. by simpl in Hc.
Qed.

Lemma parts_well_formed_witness :
  Forall part_ok
    (MessageContent (js "See ```html" ++ [10] ++ js "<p>5%</p>```")).
Proof.
  apply (parts_well_formed (js "See ```html" ++ [10] ++ js "<p>5%</p>```")).
  discriminate.
Defined.

(** ** Text parts as HTML *)

Lemma lazy_until_spec delim s group rest :
  lazy_until delim s = Some (group, rest) -> s = group ++ delim ++ rest.
Proof.
  revert group rest. induction s as [|c s IH]; intros group rest H.
  - cbn [lazy_until] in H. destruct (startsWith [] delim) eqn:Hd; [|done].
    simplify_eq. by apply startsWith_app in Hd.
  - cbn [lazy_until] in H.
    destruct (startsWith (c :: s) delim) eqn:Hd.
    + simplify_eq. by apply startsWith_app in Hd.
    + destruct (isLineTerminator c); [done|].
      apply push_unit_Some in H as (g & H & ->). by rewrite (IH _ _ H) at 1.
Qed.

Lemma match_wrapped_length delim s group rest :
  delim <> [] -> match_wrapped delim s = Some (group, rest) ->
  (length rest < length s)%nat.
Proof.
  unfold match_wrapped. intros Hne H.
  destruct (startsWith s delim) eqn:Hd; [|done].
  apply startsWith_app in Hd. apply lazy_until_spec in H.
  rewrite Hd, H, !length_app. destruct delim; [done|]. simpl. lia.
Qed.

Lemma replace_wrapped_fuel delim open close f1 f2 s :
  delim <> [] -> (length s < f1)%nat -> (length s < f2)%nat ->
  replace_wrapped f1 delim open close s = replace_wrapped f2 delim open close s.
Proof.
  intros Hne. revert f2 s.
  induction f1 as [|f1 IH]; intros [|f2] s H1 H2; try lia.
  cbn [replace_wrapped]. destruct s as [|c r]; [done|].
  destruct (match_wrapped delim (c :: r)) as [[g rest]|] eqn:Hm.
  - apply match_wrapped_length in Hm; [|done].
    do 3 f_equal. apply IH; simpl in *; lia.
  - f_equal. apply IH; simpl in *; lia.
Qed.

(** Text without the first character of the delimiter is copied. *)
Lemma replace_wrapped_copy d delim open close pre s f :
  d ∉ pre -> (length (pre ++ s) < f)%nat ->
  replace_wrapped f (d :: delim) open close (pre ++ s)
  = pre ++ replace_wrapped f (d :: delim) open close s.
Proof.
  revert f. induction pre as [|x pre IH]; intros f Hd Hf; [done|].
  apply not_elem_of_cons in Hd as [Hx Hd].
  destruct f as [|f]; [simpl in Hf; lia|].
  assert (replace_wrapped (S f) (d :: delim) open close ((x :: pre) ++ s)
          = x :: replace_wrapped f (d :: delim) open close (pre ++ s)) as ->.
  { cbn [app replace_wrapped]. unfold match_wrapped. cbn [startsWith].
    by rewrite (proj2 (N.eqb_neq d x)). }
  rewrite IH by (simpl in *; done || lia). cbn [app]. do 2 f_equal.
  rewrite length_app in Hf. apply replace_wrapped_fuel; simpl in *; done || lia.
Qed.

Lemma replace_wrapped_plain d delim open close s f :
  d ∉ s -> (length s < f)%nat ->
  replace_wrapped f (d :: delim) open close s = s.
Proof.
  intros Hd Hf.
  rewrite <- (app_nil_r s) at 1. rewrite replace_wrapped_copy.
  - destruct f; [lia|]. simpl. apply app_nil_r.
  - done.
  - by rewrite app_nil_r.
Qed.

Lemma replace_newlines_app a b :
  replace_newlines (a ++ b) = replace_newlines a ++ replace_newlines b.
Proof.
  induction a as [|c a IH]; [done|]. cbn [app replace_newlines].
  rewrite IH. by destruct (c =? 10).
Qed.

Lemma replace_newlines_plain s : 10 ∉ s -> replace_newlines s = s.
Proof.
  induction s as [|c s IH]; intros H; [done|].
  apply not_elem_of_cons in H as [Hc Hs]. cbn [replace_newlines].
  rewrite (proj2 (N.eqb_neq c 10)) by done. by rewrite IH.
Qed.

Lemma replace_newlines_none s : 10 ∉ replace_newlines s.
Proof.
  induction s as [|c s IH]; [by intros ?%elem_of_nil|].
  cbn [replace_newlines]. destruct (c =? 10) eqn:Hc.
  - intros [H|H]%elem_of_app; [|done]. vm_compute in H.
    repeat (apply elem_of_cons in H as [H|H]; [discriminate|]).
    by apply elem_of_nil in H.
  - apply N.eqb_neq in Hc. intros [H|H]%elem_of_cons; [by subst|done].
Qed.

(** X16.  The HTML of a text part never holds a line feed.  A text
    without an asterisk is copied as it is, apart from its line feeds,
    which become [br]: nothing is escaped, so a tag in the text is a
    tag in the HTML. *)
Theorem text_html_plain (content : jsstring) :
  (10 ∉ text_html content)
  /\ (42 ∉ content -> text_html content = replace_newlines content)
  /\ (42 ∉ content -> 10 ∉ content -> text_html content = content).
Proof.
  split; [apply replace_newlines_none|].
  assert (42 ∉ content -> replace_em (replace_strong content) = content) as H.
  { intros Hs. unfold replace_em, replace_strong.
    change (js "**") with (42 :: js "*"). change (js "*") with [42].
    rewrite (replace_wrapped_plain 42 (js "*")) by (done || lia).
    rewrite (replace_wrapped_plain 42 []) by (done || lia). done. }
  split.
  - intros Hs. unfold text_html. by rewrite H.
  - intros Hs Hn. unfold text_html. rewrite H by done.
    by apply replace_newlines_plain.
Qed.

Lemma text_html_plain_witness :
  text_html (js "<img src=x onerror=alert(1)>")
  = js "<img src=x onerror=alert(1)>".
Proof.
  apply (text_html_plain (js "<img src=x onerror=alert(1)>"));
    vm_compute; intros H;
    repeat (apply elem_of_cons in H as [H|H]; [discriminate|]);
    by apply elem_of_nil in H.
Defined.

Lemma replace_wrapped_miss delim open close c r f :
  delim <> [] -> match_wrapped delim (c :: r) = None ->
  (length (c :: r) < f)%nat ->
  replace_wrapped f delim open close (c :: r)
  = c :: replace_wrapped f delim open close r.
Proof.
  intros Hne Hm Hf. destruct f as [|f]; [lia|].
  assert (replace_wrapped (S f) delim open close (c :: r)
          = c :: replace_wrapped f delim open close r) as ->
    by (cbn [replace_wrapped]; by rewrite Hm).
  f_equal. apply replace_wrapped_fuel; simpl in *; done || lia.
Qed.

Lemma replace_wrapped_hit delim open close s group rest f :
  delim <> [] -> match_wrapped delim s = Some (group, rest) ->
  (length s < f)%nat ->
  replace_wrapped f delim open close s
  = open ++ group ++ close ++ replace_wrapped f delim open close rest.
Proof.
  intros Hne Hm Hf. destruct f as [|f]; [lia|].
  pose proof (match_wrapped_length _ _ _ _ Hne Hm) as Hlen.
  destruct s as [|c r]; [simpl in Hlen; lia|].
  assert (replace_wrapped (S f) delim open close (c :: r)
          = open ++ group ++ close ++ replace_wrapped f delim open close rest)
    as -> by (cbn [replace_wrapped]; by rewrite Hm).
  do 3 f_equal. apply replace_wrapped_fuel; simpl in *; done || lia.
Qed.

Lemma lazy_until_none d delim s : d ∉ s -> lazy_until (d :: delim) s = None.
Proof.
  induction s as [|c s IH]; intros H; [done|].
  apply not_elem_of_cons in H as [Hc Hs].
  cbn [lazy_until startsWith]. rewrite (proj2 (N.eqb_neq d c)) by done.
  cbn [andb]. rewrite IH by done. by destruct (isLineTerminator c).
Qed.

Lemma lazy_until_hit d delim group rest :
  d ∉ group -> Forall (fun c => isLineTerminator c = false) group ->
  lazy_until (d :: delim) (group ++ (d :: delim) ++ rest) = Some (group, rest).
Proof.
  induction group as [|c g IH]; intros Hd Hl.
  - cbn [app]. destruct (delim ++ rest) eqn:Heq.
    + cbn [lazy_until]. change (d :: delim ++ rest) with ((d :: delim) ++ rest) in *.
      rewrite <- Heq. change (d :: delim ++ rest) with ((d :: delim) ++ rest).
      rewrite startsWith_prefix, drop_app_length. done.
    + cbn [lazy_until]. rewrite <- Heq.
      change (d :: delim ++ rest) with ((d :: delim) ++ rest).
      rewrite startsWith_prefix, drop_app_length. done.
  - apply not_elem_of_cons in Hd as [Hc Hd]. inversion_clear Hl as [|?? Hlc Hlg].
    change ((c :: g) ++ (d :: delim) ++ rest)
      with (c :: (g ++ (d :: delim) ++ rest)).
    cbn [lazy_until startsWith]. rewrite (proj2 (N.eqb_neq d c)) by done.
    cbn [andb]. rewrite Hlc, IH by done. done.
Qed.

(** A pair of delimiters around a run without line terminator, in a
    text that has the first character of the delimiter nowhere else. *)
Lemma replace_wrapped_pair d delim open close pre g post f :
  d ∉ pre -> d ∉ g -> d ∉ post ->
  Forall (fun c => isLineTerminator c = false) g ->
  (length (pre ++ (d :: delim) ++ g ++ (d :: delim) ++ post) < f)%nat ->
  replace_wrapped f (d :: delim) open close
    (pre ++ (d :: delim) ++ g ++ (d :: delim) ++ post)
  = pre ++ open ++ g ++ close ++ post.
Proof.
  intros Hpre Hg Hpost Hl Hf.
  rewrite replace_wrapped_copy by done. f_equal.
  rewrite !length_app in Hf.
  rewrite (replace_wrapped_hit _ _ _ _ g post); [|done| |rewrite !length_app; lia].
  - do 3 f_equal. apply replace_wrapped_plain; [done|lia].
  - unfold match_wrapped. rewrite startsWith_prefix, drop_app_length.
    by apply lazy_until_hit.
Qed.

(** The pass for [strong] leaves a text with two asterisks only as it
    is: a match needs four. *)
Lemma replace_strong_two pre g post :
  42 ∉ pre -> 42 ∉ g -> 42 ∉ post ->
  replace_strong (pre ++ [42] ++ g ++ [42] ++ post)
  = pre ++ [42] ++ g ++ [42] ++ post.
Proof.
  intros Hpre Hg Hpost. unfold replace_strong.
  change (js "**") with [42; 42].
  set (s := pre ++ [42] ++ g ++ [42] ++ post).
  assert (length s < S (length s))%nat as Hf by lia.
  generalize dependent (S (length s)). intros f Hf. subst s.
  rewrite !length_app in Hf. cbn [length] in Hf.
  rewrite replace_wrapped_copy by (done || rewrite !length_app; cbn [length]; lia).
  f_equal. cbn [app].
  rewrite replace_wrapped_miss;
    [|done| |cbn [length]; rewrite length_app; cbn [length]; lia].
  2:{ unfold match_wrapped. destruct g as [|x g].
      - cbn [app startsWith]. rewrite N.eqb_refl. cbn [andb drop length].
        by apply lazy_until_none.
      - apply not_elem_of_cons in Hg as [Hx _].
        cbn [app startsWith]. rewrite N.eqb_refl.
        by rewrite (proj2 (N.eqb_neq 42 x)). }
  f_equal.
  rewrite replace_wrapped_copy by (done || rewrite length_app; cbn [length]; lia).
  f_equal.
  rewrite replace_wrapped_miss; [|done| |cbn [length]; lia].
  2:{ unfold match_wrapped. destruct post as [|x post]; [done|].
      apply not_elem_of_cons in Hpost as [Hx _].
      cbn [startsWith]. rewrite N.eqb_refl.
      by rewrite (proj2 (N.eqb_neq 42 x)). }
  f_equal. apply replace_wrapped_plain; [done|lia].
Qed.

Lemma not_elem_of_tags :
  (42 ∉ js "<strong>") /\ (42 ∉ js "</strong>")
  /\ (10 ∉ js "<strong>") /\ (10 ∉ js "</strong>")
  /\ (10 ∉ js "<em>") /\ (10 ∉ js "</em>").
Proof.
  repeat split; vm_compute; intros H;
    repeat (apply elem_of_cons in H as [H|H]; [discriminate|]);
    by apply elem_of_nil in H.
Qed.

Lemma line_feed_not_in g :
  Forall (fun c => isLineTerminator c = false) g -> 10 ∉ g.
Proof.
  intros H Hin. eapply Forall_forall in H; [|exact Hin]. done.
Qed.

(** X17.  A run of characters without asterisk or line terminator,
    between two double asterisks, is shown in [strong]; between two
    single asterisks, in [em] (an empty run included, so two asterisks
    alone are shown as an empty [em]).  This holds in a text that has
    no other asterisk. *)
Theorem text_html_marks (pre g post : jsstring) :
  42 ∉ pre -> 42 ∉ g -> 42 ∉ post ->
  Forall (fun c => isLineTerminator c = false) g ->
  text_html (pre ++ js "**" ++ g ++ js "**" ++ post)
  = replace_newlines pre ++ js "<strong>" ++ g ++ js "</strong>"
    ++ replace_newlines post
  /\ text_html (pre ++ js "*" ++ g ++ js "*" ++ post)
     = replace_newlines pre ++ js "<em>" ++ g ++ js "</em>"
       ++ replace_newlines post.
Proof.
  intros Hpre Hg Hpost Hl.
  destruct not_elem_of_tags as (Hs1 & Hs2 & Hn1 & Hn2 & Hn3 & Hn4).
  pose proof (line_feed_not_in g Hl) as Hgn.
  split.
  - unfold text_html.
    assert (replace_strong (pre ++ js "**" ++ g ++ js "**" ++ post)
            = pre ++ js "<strong>" ++ g ++ js "</strong>" ++ post) as ->.
    { unfold replace_strong. change (js "**") with [42; 42].
      by apply replace_wrapped_pair; [..|lia]. }
    assert (42 ∉ pre ++ js "<strong>" ++ g ++ js "</strong>" ++ post) as Hno
      by (rewrite !elem_of_app; tauto).
    unfold replace_em. change (js "*") with [42].
    rewrite replace_wrapped_plain by (done || lia).
    rewrite !replace_newlines_app.
    by rewrite (replace_newlines_plain (js "<strong>")),
      (replace_newlines_plain g), (replace_newlines_plain (js "</strong>")).
  - unfold text_html. change (js "*") with [42].
    rewrite replace_strong_two by done.
    assert (replace_em (pre ++ [42] ++ g ++ [42] ++ post)
            = pre ++ js "<em>" ++ g ++ js "</em>" ++ post) as ->.
    { unfold replace_em. change (js "*") with [42].
      by apply replace_wrapped_pair; [..|lia]. }
    rewrite !replace_newlines_app.
    by rewrite (replace_newlines_plain (js "<em>")),
      (replace_newlines_plain g), (replace_newlines_plain (js "</em>")).
Qed.

Lemma text_html_marks_witness :
  text_html (js "APR is " ++ js "**" ++ js "5%" ++ js "**" ++ js " fixed")
  = js "APR is <strong>5%</strong> fixed".
Proof.
  refine (proj1 (text_html_marks (js "APR is ") (js "5%") (js " fixed") _ _ _ _)).
  1-3: vm_compute; intros H;
       repeat (apply elem_of_cons in H as [H|H]; [discriminate|]);
       by apply elem_of_nil in H.
  repeat constructor.
Defined.

(** ** HTML blocks *)

Lemma html_match_here_spec s m rest :
  html_match_here s = Some (m, rest) ->
  exists code,
    m = html_open ++ code ++ fence /\ s = m ++ rest
    /\ includes code fence = false.
Proof.
  unfold html_match_here. intros H.
  destruct (startsWith s html_open) eqn:Ho; [|done].
  apply startsWith_app in Ho.
  destruct (until_fence (drop (length html_open) s)) as [[code r]|] eqn:Hu;
    [|done].
  simplify_eq. apply until_fence_spec in Hu as [Hu Hno].
  exists code. split; [done|]. split; [|done].
  rewrite Ho at 1. rewrite Hu. by rewrite <- !app_assoc.
Qed.

Lemma html_matches_spec f s :
  Forall (fun b => exists pre post code,
            s = pre ++ b ++ post /\ b = html_open ++ code ++ fence
            /\ includes code fence = false)
         (html_matches f s).
Proof.
  revert s. induction f as [|f IH]; intros s; [constructor|].
  cbn [html_matches]. destruct s as [|c r]; [constructor|].
  destruct (html_match_here (c :: r)) as [[m rest]|] eqn:Hm.
  - apply html_match_here_spec in Hm as (code & Hb & Hs & Hno).
    constructor.
    + exists [], rest, code. by rewrite Hs.
    + eapply Forall_impl; [apply (IH rest)|].
      intros b (pre & post & k & -> & Hk & Hn). cbn beta.
      exists (m ++ pre), post, k. rewrite Hs. by rewrite <- app_assoc.
  - eapply Forall_impl; [apply (IH r)|].
    intros b (pre & post & k & -> & Hk & Hn). cbn beta.
    by exists (c :: pre), post, k.
Qed.

Lemma remove_first_prefix p r : remove_first p (p ++ r) = r.
Proof.
  destruct (p ++ r) eqn:Hpr.
  - apply app_eq_nil in Hpr as [-> ->]. done.
  - cbn [remove_first]. rewrite <- Hpr, startsWith_prefix.
    by rewrite drop_app_length.
Qed.

Lemma remove_final_fence_app code : remove_final_fence (code ++ fence) = code.
Proof.
  induction code as [|c code IH].
  - cbn [app]. unfold fence at 1. cbn. by rewrite decide_True.
  - cbn [app remove_final_fence]. rewrite decide_False, IH; [done|].
    intros H. apply (f_equal length) in H. revert H.
    cbn [length]. rewrite length_app. cbn. lia.
Qed.

Lemma extract_wrapped code :
  extractHtmlContent (html_open ++ code ++ fence) = code.
Proof.
  unfold extractHtmlContent. by rewrite remove_first_prefix, remove_final_fence_app.
Qed.

Lemma until_fence_finds a b :
  is_Some (until_fence (a ++ fence ++ b)).
Proof.
  induction a as [|c a IH].
  - cbn [app]. destruct (fence ++ b) eqn:Hfb; [done|].
    cbn [until_fence]. rewrite <- Hfb, startsWith_prefix. done.
  - cbn [app until_fence].
    destruct (startsWith (c :: a ++ fence ++ b) fence); [done|].
    destruct IH as [[code rest] ->]. done.
Qed.

Lemma html_match_here_finds code post :
  is_Some (html_match_here (html_open ++ code ++ fence ++ post)).
Proof.
  unfold html_match_here. rewrite startsWith_prefix, drop_app_length.
  destruct (until_fence_finds code post) as [[k r] ->]. done.
Qed.

Lemma html_matches_nonempty f pre x :
  (length (pre ++ x) < f)%nat -> is_Some (html_match_here x) ->
  html_matches f (pre ++ x) <> [].
Proof.
  revert f. induction pre as [|c pre IH]; intros f Hf Hx.
  - destruct f as [|f]; [lia|]. cbn [app html_matches].
    destruct x as [|c r]; [by destruct Hx|].
    destruct Hx as [[m rest] ->]. done.
  - destruct f as [|f]; [lia|]. cbn [app html_matches].
    destruct (html_match_here (c :: pre ++ x)) as [[m rest]|]; [done|].
    apply IH; [|done]. simpl in Hf. lia.
Qed.

(** X18.  Every block that [detectHtmlCode] returns is a piece of the
    text, made of the opening (fence, html, line feed), a content
    without fence, and a closing fence; [extractHtmlContent] applied to
    the block returns that content.  The list returned is never
    empty. *)
Theorem detected_blocks_extract (text : jsstring) (blocks : list jsstring) :
  detectHtmlCode text = Some blocks ->
  blocks <> []
  /\ Forall (fun b =>
       includes text b = true
       /\ b = html_open ++ extractHtmlContent b ++ fence
       /\ includes (extractHtmlContent b) fence = false) blocks.
Proof.
  unfold detectHtmlCode. intros H.
  pose proof (html_matches_spec (S (length text)) text) as Hs.
  destruct (html_matches (S (length text)) text) as [|b l] eqn:Hm; [done|].
  simplify_eq. split; [done|].
  eapply Forall_impl; [exact Hs|].
  intros x (pre & post & code & -> & -> & Hno). cbn beta.
  rewrite extract_wrapped. split; [apply includes_app|done].
Qed.

Lemma detected_blocks_extract_witness :
  detectHtmlCode (js "See ```html" ++ [10] ++ js "<b>hi</b>``` and more")
  = Some [js "```html" ++ [10] ++ js "<b>hi</b>```"]
  /\ Forall (fun b =>
       includes (js "See ```html" ++ [10] ++ js "<b>hi</b>``` and more") b
       = true
       /\ b = html_open ++ extractHtmlContent b ++ fence
       /\ includes (extractHtmlContent b) fence = false)
     [js "```html" ++ [10] ++ js "<b>hi</b>```"].
Proof.
  assert (detectHtmlCode (js "See ```html" ++ [10] ++ js "<b>hi</b>``` and more")
          = Some [js "```html" ++ [10] ++ js "<b>hi</b>```"]) as H
    by (vm_compute; reflexivity).
  split; [exact H|].
  exact (proj2 (detected_blocks_extract _ _ H)).
Defined.

(** X19.  [detectHtmlCode] returns null exactly for the texts in which
    no opening (fence, html, line feed) is followed, at any distance,
    by a fence. *)
Theorem detectHtmlCode_null (text : jsstring) :
  detectHtmlCode text = None
  <-> ~ exists pre code post,
          text = pre ++ html_open ++ code ++ fence ++ post.
Proof.
  unfold detectHtmlCode. split.
  - intros H (pre & code & post & ->).
    pose proof (html_matches_nonempty
                  (S (length (pre ++ html_open ++ code ++ fence ++ post)))
                  pre (html_open ++ code ++ fence ++ post)) as Hne.
    destruct (html_matches _ _); [|done].
    apply Hne; [lia|apply html_match_here_finds|done].
  - intros Hno.
    pose proof (html_matches_spec (S (length text)) text) as Hs.
    destruct (html_matches (S (length text)) text) as [|b l]; [done|].
    apply Forall_inv in Hs as (pre & post & code & -> & -> & _).
    destruct Hno. exists pre, code, post. by rewrite <- !app_assoc.
Qed.

(** ** The connection test and the send button *)

(** X20.  The connection test asks the server that a chat request with
    the same settings would ask: the two URLs are the same endpoint
    followed by [/models] and by [/chat/completions], and the headers of
    the chat request are [Content-Type] and then the headers of the
    test, so both carry the same [Authorization] or none.  The test
    reports success exactly when [fetch] answers with a status from 200
    to 299. *)
Theorem probe_agrees_with_request (cfg : Settings) (history : list message)
    (fetch : probe_request -> fetch_result) :
  (exists endpoint,
     probe_url (probe cfg) = endpoint ++ js "/models"
     /\ url (build_request cfg history) = endpoint ++ js "/chat/completions")
  /\ headers (build_request cfg history)
     = (js "Content-Type", js "application/json") :: probe_headers (probe cfg)
  /\ (testConnection cfg fetch = js "success"
      <-> exists r, fetch (probe cfg) = FetchResponse r
                    /\ 200 <= status r <= 299).
Proof.
  split; [|split].
  - unfold probe, build_request. cbn [probe_url url].
    by destruct (bool_decide (connectionType cfg = js "cloud")); eexists.
  - done.
  - unfold testConnection, ok. split.
    + destruct (fetch (probe cfg)) as [e|r]; [done|].
      destruct ((200 <=? status r) && (status r <=? 299)) eqn:Hok; [|done].
      intros _. exists r. split; [done|].
      apply andb_true_iff in Hok as [H1 H2].
      apply N.leb_le in H1, H2. done.
    + intros (r & -> & H1 & H2).
      by rewrite (proj2 (N.leb_le _ _) H1), (proj2 (N.leb_le _ _) H2).
Qed.

Lemma sendMessage_clears (E : engine) (env : turn_env) (s : app_state) t :
  send_disabled s = false -> sendMessage E env s = Returned t ->
  inputValue (final t) = [] /\ isLoading (final t) = false.
Proof.
  unfold send_disabled, sendMessage. intros Hd.
  apply orb_false_iff in Hd as [-> ->]. cbn [orb].
  destruct (match activeChat s with
            | Some (u :: id) => _ | _ => _ end) as [[chatId updated] act].
  destruct (append_user _ _ _ _) as [[l i]|e]; [|done]. cbn.
  destruct (try_catch _ _) as [n|e]; [|done]. cbn.
  intros ?; by simplify_eq.
Qed.

(** X21.  The send button is disabled in exactly the states in which
    [sendMessage] returns without doing anything.  In every other state
    a call, from the button or from the Enter key, returns with the
    input emptied and the flag cleared; so it never leaves the state as
    it was. *)
Theorem send_button_agrees (E : engine) (env : turn_env) (s : app_state) :
  if send_disabled s
  then sendMessage E env s
       = Returned {| final := s; request := None; deltas := [] |}
  else exists t,
         sendMessage E env s = Returned t
         /\ inputValue (final t) = [] /\ isLoading (final t) = false
         /\ final t <> s.
Proof.
  destruct (send_disabled s) eqn:Hd.
  - unfold send_disabled in Hd. unfold sendMessage.
    rewrite orb_comm in Hd. by rewrite Hd.
  - destruct (sendMessage_shape E env s) as (t & Ht & _). exists t.
    destruct (sendMessage_clears E env s t Hd Ht) as [Hi Hl].
    repeat split; [done..|]. intros Heq. rewrite Heq in Hi.
    unfold send_disabled in Hd. apply orb_false_iff in Hd as [_ Hd].
    apply bool_decide_eq_false_1 in Hd. destruct Hd. by rewrite Hi.
Qed.

(** ** Saved and exported chats *)

Lemma jsval_nested_ind (P : jsval -> Prop) :
  P JNull -> (forall b, P (JBool b)) -> (forall lit, P (JNum lit)) ->
  (forall s, P (JStr s)) ->
  (forall items, Forall P items -> P (JArr items)) ->
  (forall members, Forall (fun kv => P kv.2) members -> P (JObj members)) ->
  forall v, P v.
Proof.
  intros Hnull Hbool Hnum Hstr Harr Hobj.
  fix IH 1. intros [| b | lit | s | items | members].
  - exact Hnull.
  - apply Hbool.
  - apply Hnum.
  - apply Hstr.
  - apply Harr. induction items as [|x items IHl]; constructor.
    + apply IH.
    + exact IHl.
  - apply Hobj. induction members as [|[k x] members IHl]; constructor.
    + apply IH.
    + exact IHl.
Qed.

Lemma skip_ws_app ws s :
  Forall (fun c => isJsonWs c = true) ws -> skip_ws (ws ++ s) = skip_ws s.
Proof. induction 1 as [|c ws Hc _ IH]; [done|]. cbn [app skip_ws]. by rewrite Hc. Qed.

Lemma parse_value_skip f ws s :
  Forall (fun c => isJsonWs c = true) ws ->
  parse_value f (ws ++ s) = parse_value f s.
Proof. intros H. destruct f; [done|]. cbn [parse_value]. by rewrite skip_ws_app. Qed.

Lemma hexval_hexdigit n : n < 16 -> hexval (hexdigit n) = Some n.
Proof.
  intros H. unfold hexdigit, hexval, isDigit.
  destruct (N.ltb_spec n 10).
  - rewrite (proj2 (N.leb_le 48 (48 + n))), (proj2 (N.leb_le (48 + n) 57)) by lia.
    cbn [andb]. f_equal. lia.
  - rewrite (proj2 (N.leb_gt (87 + n) 57)) by lia. rewrite andb_false_r.
    rewrite (proj2 (N.leb_gt (87 + n) 70)) by lia. rewrite andb_false_r.
    rewrite (proj2 (N.leb_le 97 (87 + n))), (proj2 (N.leb_le (87 + n) 102)) by lia.
    cbn [andb]. f_equal. lia.
Qed.

Lemma scan_unicode_escape c r :
  c < 65536 ->
  scan_string (unicode_escape c ++ r) = push_unit c (scan_string r).
Proof.
  intros Hc. unfold unicode_escape. cbn [app scan_string].
  change (92 =? 34) with false. change (92 =? 92) with true.
  change (117 =? 117) with true. cbv iota.
  rewrite !hexval_hexdigit by (apply N.mod_lt; lia).
  f_equal.
  assert (c / 256 = c / 16 / 16) as E1 by (by rewrite N.Div0.div_div).
  assert (c / 4096 = c / 16 / 16 / 16) as E2 by (by rewrite !N.Div0.div_div).
  assert (c / 4096 < 16) as H4 by (apply N.Div0.div_lt_upper_bound; lia).
  rewrite (N.mod_small (c / 4096) 16) by done. rewrite E2, E1.
  pose proof (N.div_mod c 16 ltac:(lia)) as H1.
  pose proof (N.div_mod (c / 16) 16 ltac:(lia)) as H2.
  pose proof (N.div_mod (c / 16 / 16) 16 ltac:(lia)) as H3.
  lia.
Qed.

Lemma scan_plain_unit c r :
  c <> 34 -> c <> 92 -> 32 <= c ->
  scan_string (c :: r) = push_unit c (scan_string r).
Proof.
  intros H1 H2 H3. cbn [scan_string].
  rewrite (proj2 (N.eqb_neq c 34)), (proj2 (N.eqb_neq c 92)) by done.
  by rewrite (proj2 (N.ltb_ge c 32)).
Qed.

Lemma scan_quote_unit c r :
  scan_string (quote_unit c ++ r) = push_unit c (scan_string r).
Proof.
  unfold quote_unit.
  repeat match goal with
    | |- context [?a =? ?b] =>
        destruct (N.eqb_spec a b) as [->|?]; [done|]
    end.
  destruct (N.ltb_spec c 32).
  - apply scan_unicode_escape. lia.
  - by apply scan_plain_unit.
Qed.

Lemma scan_quote_units s r :
  scan_string (quote_units s ++ 34 :: r) = Some (s, r).
Proof.
  remember (length s) as n eqn:Hn. revert s Hn.
  induction n as [n IH] using lt_wf_ind. intros s ->.
  destruct s as [|c s]; [done|]. cbn [quote_units].
  destruct (isHighSurrogate c) eqn:Hh.
  - unfold isHighSurrogate in Hh. apply andb_true_iff in Hh as [Hh1 Hh2].
    apply N.leb_le in Hh1, Hh2.
    destruct s as [|d s].
    + rewrite scan_unicode_escape by lia. done.
    + destruct (isLowSurrogate d) eqn:Hl.
      * unfold isLowSurrogate in Hl. apply andb_true_iff in Hl as [Hl1 Hl2].
        apply N.leb_le in Hl1, Hl2.
        cbn [app]. rewrite !scan_plain_unit by lia.
        rewrite (IH (length s)); [done|simpl; lia|done].
      * rewrite <- app_assoc, scan_unicode_escape by lia.
        rewrite (IH (length (d :: s))); [done|simpl; lia|done].
  - destruct (isLowSurrogate c) eqn:Hl.
    + unfold isLowSurrogate in Hl. apply andb_true_iff in Hl as [Hl1 Hl2].
      apply N.leb_le in Hl1, Hl2.
      rewrite <- app_assoc, scan_unicode_escape by lia.
      rewrite (IH (length s)); [done|simpl; lia|done].
    + rewrite <- app_assoc, scan_quote_unit.
      rewrite (IH (length s)); [done|simpl; lia|done].
Qed.

Lemma scan_QuoteJSONString s r :
  exists q, QuoteJSONString s ++ r = 34 :: q /\ scan_string q = Some (s, r)
            /\ (length q < length (QuoteJSONString s ++ r))%nat.
Proof.
  exists (quote_units s ++ 34 :: r). unfold QuoteJSONString.
  split; [by rewrite <- app_comm_cons, <- app_assoc|].
  split; [apply scan_quote_units|].
  cbn [app length]. rewrite !length_app. simpl. lia.
Qed.

Lemma parse_value_array f r c r' :
  skip_ws r = c :: r' -> c <> 93 ->
  parse_value (S f) (91 :: r) = parse_elements f (c :: r') [].
Proof.
  intros H Hc. cbn [parse_value skip_ws]. change (isJsonWs 91) with false.
  cbv iota. change (91 =? 123) with false. change (91 =? 91) with true.
  cbv iota. rewrite H. by rewrite (proj2 (N.eqb_neq c 93)).
Qed.

Lemma parse_value_object f r c r' :
  skip_ws r = c :: r' -> c <> 125 ->
  parse_value (S f) (123 :: r) = parse_members f (c :: r') [].
Proof.
  intros H Hc. cbn [parse_value skip_ws]. change (isJsonWs 123) with false.
  cbv iota. change (123 =? 123) with true.
  cbv iota. rewrite H. by rewrite (proj2 (N.eqb_neq c 125)).
Qed.

Lemma parse_value_string f q s r :
  scan_string q = Some (s, r) -> parse_value (S f) (34 :: q) = Some (JStr s, r).
Proof.
  intros H. cbn [parse_value skip_ws]. change (isJsonWs 34) with false.
  cbv iota. change (34 =? 123) with false. change (34 =? 91) with false.
  change (34 =? 34) with true. cbv iota. by rewrite H.
Qed.

Lemma parse_elements_step f s acc v r c r' :
  parse_value f s = Some (v, r) -> skip_ws r = c :: r' ->
  parse_elements (S f) s acc
  = if c =? 44 then parse_elements f r' (v :: acc)
    else if c =? 93 then Some (JArr (rev (v :: acc)), r') else None.
Proof. intros H1 H2. cbn [parse_elements]. by rewrite H1, H2. Qed.

Lemma parse_members_step f s acc q k r1 r2 v r3 c r4 :
  skip_ws s = 34 :: q -> scan_string q = Some (k, r1) ->
  skip_ws r1 = 58 :: r2 -> parse_value f r2 = Some (v, r3) ->
  skip_ws r3 = c :: r4 ->
  parse_members (S f) s acc
  = if c =? 44 then parse_members f r4 ((k, v) :: acc)
    else if c =? 125 then Some (JObj (rev ((k, v) :: acc)), r4) else None.
Proof.
  intros H1 H2 H3 H4 H5. cbn [parse_members]. rewrite H1.
  change (34 =? 34) with true. cbv iota. rewrite H2, H3.
  change (58 =? 58) with true. cbv iota. by rewrite H4, H5.
Qed.

Local Ltac lens :=
  repeat (progress (rewrite ?length_app in *; cbn [length app] in * )); try lia.

Section Round_trip.

Variable E : engine.
Variable gap : jsstring.
Hypothesis gap_ws : Forall (fun c => isJsonWs c = true) gap.

Local Abbreviation Ser := (SerializeJSONProperty E gap).
Local Abbreviation lb := (line_break gap).
Local Abbreviation sp := (colon_space gap).

Lemma wrap_cons open close stepback x partial :
  wrap gap open close stepback (x :: partial)
  = open :: lb (stepback ++ gap)
    ++ join_with (44 :: lb (stepback ++ gap)) (x :: partial)
    ++ lb stepback ++ [close].
Proof. unfold wrap, line_break. by destruct gap. Qed.

Lemma lb_ws indent :
  Forall (fun c => isJsonWs c = true) indent ->
  Forall (fun c => isJsonWs c = true) (lb indent).
Proof. intros H. unfold line_break. destruct gap; [done|]. by constructor. Qed.

Lemma sp_ws : Forall (fun c => isJsonWs c = true) sp.
Proof. unfold colon_space. destruct gap; [done|]. by constructor. Qed.

Lemma Ser_head indent v :
  number_free v = true ->
  exists c r, Ser indent v = c :: r /\ isJsonWs c = false /\ c <> 93.
Proof.
  intros H. destruct v as [| [|] | lit | s | [|x items] | [|[k x] members]];
    try discriminate; try (by eexists _, _).
  - cbn [SerializeJSONProperty map]. rewrite wrap_cons.
    by eexists _, _.
  - cbn [SerializeJSONProperty map]. rewrite wrap_cons.
    by eexists _, _.
Qed.

Lemma join_with_cons separator x y partial :
  join_with separator (x :: y :: partial)
  = x ++ separator ++ join_with separator (y :: partial).
Proof. done. Qed.

Lemma join_with_length separator partial :
  (length (join_with separator partial)
   <= length (concat partial) + length partial * length separator)%nat.
Proof.
  induction partial as [|x [|y partial] IH]; [done|simpl; rewrite app_nil_r; lia|].
  rewrite join_with_cons. cbn [concat length] in *.
  rewrite !length_app in *. lia.
Qed.

Lemma elements_parse items :
  Forall (parses_back E gap) items -> forallb number_free items = true -> items <> [] ->
  forall indent stepback ws acc rest f,
    Forall (fun c => isJsonWs c = true) indent ->
    Forall (fun c => isJsonWs c = true) stepback ->
    Forall (fun c => isJsonWs c = true) ws ->
    (2 * length (ws ++ join_with (44 :: lb indent) (map (Ser indent) items)
                 ++ lb stepback ++ 93 :: rest)%N + 2 <= f)%nat ->
    parse_elements f
      (ws ++ join_with (44 :: lb indent) (map (Ser indent) items)
       ++ lb stepback ++ 93 :: rest) acc
    = Some (JArr (rev acc ++ items), rest).
Proof.
  induction 1 as [|x items Hx Hitems IH]; [done|].
  intros Hfree _ indent stepback ws acc rest f Hi Hs Hw Hf.
  cbn [forallb] in Hfree. apply andb_true_iff in Hfree as [Hfx Hfree].
  destruct f as [|f]; [lia|].
  destruct items as [|y items].
  - cbn [map join_with] in *.
    erewrite parse_elements_step; cycle 1.
    + rewrite parse_value_skip by done.
      apply Hx; [done..|]. lens.
    + rewrite skip_ws_app by by apply lb_ws. cbn [skip_ws].
      change (isJsonWs 93) with false. done.
    + change (93 =? 44) with false. change (93 =? 93) with true. cbv iota.
      cbn [rev]. done.
  - cbn [map] in *. rewrite join_with_cons in *.
    erewrite parse_elements_step; cycle 1.
    + rewrite parse_value_skip by done. rewrite <- !app_assoc.
      apply Hx; [done..|]. lens.
    + cbn [app skip_ws]. change (isJsonWs 44) with false. done.
    + change (44 =? 44) with true. cbv iota.
      rewrite (IH Hfree ltac:(done) indent stepback (lb indent) (x :: acc) rest f);
        [|done|done|by apply lb_ws|].
      * cbn [rev]. by rewrite <- app_assoc.
      * lens.
Qed.


Lemma members_parse members :
  Forall (fun kv => parses_back E gap kv.2) members ->
  forallb (fun '(_, x) => number_free x) members = true -> members <> [] ->
  forall indent stepback ws acc rest f,
    Forall (fun c => isJsonWs c = true) indent ->
    Forall (fun c => isJsonWs c = true) stepback ->
    Forall (fun c => isJsonWs c = true) ws ->
    (2 * length (ws ++ join_with (44 :: lb indent)
                         (map (member_text E gap indent) members)
                 ++ lb stepback ++ 125 :: rest)%N + 2 <= f)%nat ->
    parse_members f
      (ws ++ join_with (44 :: lb indent) (map (member_text E gap indent) members)
       ++ lb stepback ++ 125 :: rest) acc
    = Some (JObj (rev acc ++ members), rest).
Proof.
  induction 1 as [|[k x] members Hx Hmembers IH]; [done|].
  intros Hfree _ indent stepback ws acc rest f Hi Hs Hw Hf.
  cbn [forallb] in Hfree. apply andb_true_iff in Hfree as [Hfx Hfree].
  cbn [snd] in Hx.
  destruct f as [|f]; [lia|].
  destruct members as [|y members].
  - cbn [map join_with member_text] in *.
    destruct (scan_QuoteJSONString k
                ([58] ++ sp ++ Ser indent x ++ lb stepback ++ 125 :: rest))
      as (q & Hq & Hscan & _).
    pose proof (f_equal length Hq) as Hql.
    repeat (progress (rewrite ?length_app in Hql; cbn [length app] in Hql)).
    rewrite <- !app_assoc in *. rewrite Hq in *.
    erewrite (parse_members_step f _ acc q k _ (sp ++ Ser indent x ++ lb stepback ++ 125 :: rest)
               x (lb stepback ++ 125 :: rest) 125 rest).
    + change (125 =? 44) with false. change (125 =? 125) with true. done.
    + rewrite skip_ws_app by done. cbn [skip_ws].
      by change (isJsonWs 34) with false.
    + exact Hscan.
    + cbn [app skip_ws]. by change (isJsonWs 58) with false.
    + rewrite parse_value_skip by apply sp_ws. apply Hx; [done..|]. lens.
    + rewrite skip_ws_app by by apply lb_ws. cbn [skip_ws].
      by change (isJsonWs 125) with false.
  - cbn [map] in *. rewrite join_with_cons in *.
    change (member_text E gap indent (k, x))
      with (QuoteJSONString k ++ [58] ++ sp ++ Ser indent x) in *.
    set (tail := lb indent ++ join_with (44 :: lb indent)
                   (map (member_text E gap indent) (y :: members))
                 ++ lb stepback ++ 125 :: rest) in *.
    destruct (scan_QuoteJSONString k
                ([58] ++ sp ++ Ser indent x ++ 44 :: tail))
      as (q & Hq & Hscan & _).
    pose proof (f_equal length Hq) as Hql.
    repeat (progress (rewrite ?length_app in Hql; cbn [length app] in Hql)).
    assert (ws ++ ((QuoteJSONString k ++ [58] ++ sp ++ Ser indent x)
                   ++ (44 :: lb indent)
                   ++ join_with (44 :: lb indent)
                        (map (member_text E gap indent) (y :: members)))
                  ++ lb stepback ++ 125 :: rest
            = ws ++ 34 :: q) as Heq.
    { rewrite <- Hq. subst tail. by rewrite <- !app_assoc. }
    cbn [map] in Heq. rewrite Heq in *.
    erewrite (parse_members_step f _ acc q k _ (sp ++ Ser indent x ++ 44 :: tail)
               x (44 :: tail) 44 tail).
    + change (44 =? 44) with true. cbv iota. subst tail. cbn [map].
      rewrite (IH Hfree ltac:(done) indent stepback (lb indent)
                 ((k, x) :: acc) rest f); [|done|done|by apply lb_ws|].
      * cbn [rev]. by rewrite <- app_assoc.
      * cbn [map] in *. lens.
    + rewrite skip_ws_app by done. cbn [skip_ws].
      by change (isJsonWs 34) with false.
    + exact Hscan.
    + cbn [app skip_ws]. by change (isJsonWs 58) with false.
    + rewrite parse_value_skip by apply sp_ws. apply Hx; [done..|]. lens.
    + cbn [skip_ws]. by change (isJsonWs 44) with false.
Qed.

Lemma join_with_head separator c r partial :
  exists r', join_with separator ((c :: r) :: partial) = c :: r'.
Proof. destruct partial; cbn [join_with app]; by eexists. Qed.

Lemma value_parses v : parses_back E gap v.
Proof.
  induction v as [| b | lit | s | items IH | members IH] using jsval_nested_ind;
    intros Hfree indent rest f Hi Hf.
  - destruct f as [|f]; [lia|]. done.
  - destruct f as [|f]; [lia|]. by destruct b.
  - done.
  - destruct f as [|f]; [lia|]. cbn [SerializeJSONProperty].
    destruct (scan_QuoteJSONString s rest) as (q & -> & Hscan & _).
    by apply parse_value_string.
  - destruct f as [|f]; [lia|]. cbn [number_free] in Hfree.
    destruct items as [|x items]; [done|].
    cbn [SerializeJSONProperty] in Hf |- *.
    cbn [map] in Hf |- *. rewrite wrap_cons in Hf |- *.
    change (Ser (indent ++ gap) x :: map (Ser (indent ++ gap)) items)
      with (map (Ser (indent ++ gap)) (x :: items)) in Hf |- *.
    set (body := join_with (44 :: lb (indent ++ gap))
                   (map (Ser (indent ++ gap)) (x :: items))
                 ++ lb indent ++ 93 :: rest).
    assert (Forall (fun c => isJsonWs c = true) (indent ++ gap)) as Hi'
      by by apply Forall_app.
    assert (exists c r, body = c :: r /\ isJsonWs c = false /\ c <> 93)
      as (c & r & Hbody & Hc & Hc').
    { apply andb_true_iff in Hfree as [Hx _].
      destruct (Ser_head (indent ++ gap) x Hx) as (c & r & Hs & ? & ?).
      subst body. cbn [map]. rewrite Hs.
      destruct (join_with_head (44 :: lb (indent ++ gap)) c r
                  (map (Ser (indent ++ gap)) items)) as [r' ->].
      by eexists _, _. }
    cbn [app].
    rewrite (parse_value_array f _ c r); [| |done].
    + rewrite <- Hbody. subst body.
      apply (elements_parse (x :: items) IH Hfree ltac:(done)
               (indent ++ gap) indent [] [] rest f); [done..|].
      cbn [app]. lens.
    + rewrite <- !app_assoc. rewrite skip_ws_app by by apply lb_ws.
      cbn [app]. fold body. rewrite Hbody. cbn [skip_ws]. by rewrite Hc.
  - destruct f as [|f]; [lia|]. cbn [number_free] in Hfree.
    destruct members as [|[k x] members]; [done|].
    cbn [SerializeJSONProperty] in Hf |- *.
    cbn [map] in Hf |- *. rewrite wrap_cons in Hf |- *.
    fold (colon_space gap) in Hf |- *.
    change (QuoteJSONString k ++ [58] ++ sp ++ Ser (indent ++ gap) x)
      with (member_text E gap (indent ++ gap) (k, x)) in Hf |- *.
    change (map _ members)
      with (map (member_text E gap (indent ++ gap)) members) in Hf |- *.
    change (member_text E gap (indent ++ gap) (k, x)
            :: map (member_text E gap (indent ++ gap)) members)
      with (map (member_text E gap (indent ++ gap)) ((k, x) :: members)) in Hf |- *.
    set (body := join_with (44 :: lb (indent ++ gap))
                   (map (member_text E gap (indent ++ gap)) ((k, x) :: members))
                 ++ lb indent ++ 125 :: rest).
    assert (Forall (fun c => isJsonWs c = true) (indent ++ gap)) as Hi'
      by by apply Forall_app.
    assert (exists r, body = 34 :: r) as (r & Hbody).
    { subst body. cbn [map member_text]. unfold QuoteJSONString. cbn [app].
      destruct (join_with_head (44 :: lb (indent ++ gap)) 34
                  (quote_units k ++ [34] ++ 58 :: sp ++ Ser (indent ++ gap) x)
                  (map (member_text E gap (indent ++ gap)) members)) as [r' Hr].
      rewrite <- !app_assoc in *. cbn [app] in *. rewrite Hr. by eexists. }
    cbn [app].
    rewrite (parse_value_object f _ 34 r); [| |done].
    + rewrite <- Hbody. subst body.
      apply (members_parse ((k, x) :: members) IH Hfree ltac:(done)
               (indent ++ gap) indent [] [] rest f); [done..|].
      cbn [app]. lens.
    + rewrite <- !app_assoc. rewrite skip_ws_app by by apply lb_ws.
      cbn [app]. fold body. rewrite Hbody. cbn [skip_ws].
      by change (isJsonWs 34) with false.
Qed.

End Round_trip.

Lemma stringify_parses (E : engine) (gap : jsstring) (v : jsval) :
  Forall (fun c => isJsonWs c = true) gap -> number_free v = true ->
  JSON_parse (SerializeJSONProperty E gap [] v) = Some v.
Proof.
  intros Hgap Hfree. unfold JSON_parse.
  pose proof (value_parses E gap Hgap v Hfree [] []
                (2 * length (SerializeJSONProperty E gap [] v) + 2)%nat) as H.
  rewrite app_nil_r in H. rewrite H; [done|done|lia].
Qed.

Lemma number_free_chat_value c :
  number_free_chat c -> number_free (chat_value c) = true.
Proof.
  intros H. cbn. rewrite andb_true_r.
  induction H as [|m l Hm _ IH]; [done|].
  cbn [map forallb]. rewrite IH, andb_true_r.
  cbn. by rewrite Hm.
Qed.

Lemma number_free_chats l :
  Forall number_free_chat l -> number_free (JArr (map chat_value l)) = true.
Proof.
  intros H. cbn [number_free].
  induction H as [|c l Hc _ IH]; [done|].
  cbn [map forallb]. by rewrite number_free_chat_value, IH.
Qed.

Lemma all_text_number_free l : all_text l -> Forall number_free_chat l.
Proof.
  intros H. eapply Forall_impl; [exact H|]. intros c Hc.
  eapply Forall_impl; [exact Hc|]. by intros m [t ->].
Qed.

(** X22.  The text that the save effect stores for the chats parses
    back, with [JSON.parse] as the load effect calls it, to the array
    of the same chats: same order, same ids, titles, messages and
    dates.  This holds when no message content holds a number (the
    content of a message is a string, unless an endpoint answered
    without streaming with something else). *)
Theorem saved_chats_restore (E : engine) (l : list chat) :
  Forall number_free_chat l ->
  JSON_parse (saved_chats E l) = Some (JArr (map chat_value l)).
Proof.
  intros H. apply stringify_parses; [constructor|].
  by apply number_free_chats.
Qed.

Lemma saved_chats_restore_witness :
  JSON_parse (saved_chats plain_engine [sample_chat; sample_chat])
  = Some (JArr (map chat_value [sample_chat; sample_chat])).
Proof.
  apply (saved_chats_restore plain_engine [sample_chat; sample_chat]).
  repeat constructor.
Defined.

(** X23.  The JSON file of the export, indented by two spaces, parses
    back to the chat that was exported, under the same condition. *)
Theorem exported_chat_parses (E : engine) (c : chat) :
  number_free_chat c ->
  JSON_parse (exportAsJson E c) = Some (chat_value c).
Proof.
  intros H. apply stringify_parses; [by repeat constructor|].
  by apply number_free_chat_value.
Qed.

Lemma exported_chat_parses_witness :
  JSON_parse (exportAsJson plain_engine sample_chat)
  = Some (chat_value sample_chat).
Proof.
  apply (exported_chat_parses plain_engine sample_chat).
  repeat constructor.
Defined.

(** ** Contents in streaming mode *)

Section Text.

Variable E : engine.

Lemma append_user_text l chatId m input l' i :
  all_text l -> is_text m ->
  append_user l chatId m input = Returned (l', i) -> all_text l'.
Proof.
  unfold append_user. intros Hl Hm H.
  destruct (findIndex chatId l) as [j|]; [|by simplify_eq].
  destruct (l !! j) as [c|] eqn:Hc; simplify_eq; [|done].
  apply Forall_insert; [done|]. cbn [update_chat messages].
  apply Forall_app. split; [|by constructor].
  by eapply (Forall_lookup_1 (fun c => Forall is_text (messages c))).
Qed.

Lemma append_reply_text l chatId m l' :
  all_text l -> is_text m ->
  append_reply l chatId m = Returned l' -> all_text l'.
Proof.
  unfold append_reply. intros Hl Hm H.
  destruct (findIndex chatId l) as [j|]; [|by simplify_eq].
  destruct (l !! j) as [c|] eqn:Hc; simplify_eq; [|done].
  apply Forall_insert; [done|]. cbn [update_chat messages].
  apply Forall_app. split; [|by constructor].
  by eapply (Forall_lookup_1 (fun c => Forall is_text (messages c))).
Qed.

Lemma append_reply_total l chatId m :
  exists l', append_reply l chatId m = Returned l'.
Proof.
  unfold append_reply. destruct (findIndex chatId l) as [j|]; [|by eexists].
  destruct (l !! j); by eexists.
Qed.

Lemma complete_text env cfg l i v :
  streaming cfg = true ->
  result (complete E env cfg l i) = Returned v -> exists t, v = JStr t.
Proof.
  intros Hs. unfold complete.
  destruct (i ≫= (l !!.)) as [c|]; [|done].
  destruct (network env _) as [e|r]; [done|].
  unfold receive. rewrite Hs.
  destruct (negb (ok r)); [done|].
  destruct (stream r) as [b|]; [|done].
  destruct (read_stream E start b) as [st [e|]]; cbn; [done|].
  intros ?; simplify_eq. by eexists.
Qed.

Lemma sendMessage_text env s t :
  streaming (settings s) = true -> all_text (chats s) ->
  sendMessage E env s = Returned t ->
  all_text (chats (final t)) /\ settings (final t) = settings s.
Proof.
  intros Hs Hl. unfold sendMessage.
  destruct (bool_decide (trim (inputValue s) = []) || isLoading s);
    [by intros ?; simplify_eq|].
  set (new := {| chat_id := new_chat_id env; title := title_of (inputValue s);
                 messages := []; createdAt := new_chat_time env |}).
  assert (all_text (new :: chats s)) as Hnew by (by constructor).
  set (start_of := match activeChat s with
                   | Some (u :: id) => _ | _ => _ end).
  assert (all_text start_of.1.2) as Hst.
  { subst start_of. by destruct (activeChat s) as [[|??]|]. }
  destruct start_of as [[chatId updated] act]. cbn [fst snd] in Hst.
  destruct (append_user _ _ _ _) as [[l i]|e] eqn:Hu; [|done].
  apply append_user_text in Hu; [|done|by eexists].
  cbn [mbind outcome_bind].
  destruct (complete E env (settings s) l i) as [se sh [v|e]] eqn:Hc;
    cbn [result try_catch mbind outcome_bind].
  - pose proof (complete_text env (settings s) l i v Hs) as Hv.
    rewrite Hc in Hv. destruct (Hv eq_refl) as [tx ->].
    match goal with
    | |- context [try_catch (append_reply ?a ?b ?c) _] =>
        destruct (append_reply_total a b c) as [n Hr]; rewrite Hr
    end.
    apply append_reply_text in Hr; [|done|by eexists].
    cbn [try_catch mbind outcome_bind]. intros ?; by simplify_eq.
  - match goal with
    | |- context [append_reply ?a ?b ?c] =>
        destruct (append_reply_total a b c) as [n Hr]; rewrite Hr
    end.
    apply append_reply_text in Hr; [|done|by eexists].
    cbn [try_catch mbind outcome_bind]. intros ?; by simplify_eq.
Qed.

Lemma step_text s a s' :
  streaming (settings s) = true -> all_text (chats s) ->
  step E s a = Returned s' ->
  all_text (chats s') /\ settings s' = settings s.
Proof.
  intros Hs Hl. destruct a as [[id now|chatId]|i|text|env]; simpl; intros H.
  - simplify_eq. split; [|done]. by constructor.
  - simplify_eq. split; [|done]. cbn [deleteChat chats].
    apply Forall_forall. intros c [_ Hc]%list_elem_of_filter.
    by eapply (Forall_forall (fun c => Forall is_text (messages c))) in Hl.
  - simplify_eq. unfold select. by destruct (chats s !! i).
  - by simplify_eq.
  - destruct (sendMessage E env s) as [t|e] eqn:Ht; [|done].
    simpl in H. simplify_eq. by eapply sendMessage_text.
Qed.

Lemma run_text l s s' :
  streaming (settings s) = true -> all_text (chats s) ->
  run E s l = Returned s' -> all_text (chats s').
Proof.
  revert s. induction l as [|a l IH]; intros s Hs Hl H; simpl in H.
  - by simplify_eq.
  - destruct (step E s a) as [s1|e] eqn:Hstep; [|done]. simpl in H.
    destruct (step_text _ _ _ Hs Hl Hstep) as [Hl1 Hs1].
    eapply IH; [|exact Hl1|exact H]. by rewrite Hs1.
Qed.

End Text.

(** X24.  In a session with streaming on, from the start and whatever
    the user does (new chat, delete, select, type, send) and whatever
    the network answers, the content of every message is a string: the
    text typed, the text streamed, or the warning.  So the chats that
    the save effect stores always parse back to the same chats. *)
Theorem streaming_contents_text (E : engine) (cfg : Settings)
    (actions : list action) :
  streaming cfg = true ->
  exists s,
    run E (initial cfg) actions = Returned s
    /\ (forall c m, c ∈ chats s -> m ∈ messages c ->
          exists t, content m = JStr t)
    /\ JSON_parse (saved_chats E (chats s)) = Some (JArr (map chat_value (chats s))).
Proof.
  intros Hs. destruct (run_returns E actions (initial cfg)) as [s Hrun].
  exists s. split; [done|].
  assert (all_text (chats s)) as Hall.
  { eapply (run_text E actions (initial cfg)); [exact Hs| |exact Hrun].
    constructor. }
  split.
  - intros c m Hc Hm.
    eapply (Forall_forall (fun c => Forall is_text (messages c))) in Hall;
      [|exact Hc].
    by eapply (Forall_forall is_text) in Hall.
  - apply stringify_parses; [constructor|].
    by apply number_free_chats, all_text_number_free.
Qed.

Lemma streaming_contents_text_witness :
  exists s,
    run plain_engine (initial cloud_settings)
      [Input (js "hi"); Send (answering {| status := 200; stream := Some one_chunk |})]
    = Returned s
    /\ (forall c m, c ∈ chats s -> m ∈ messages c ->
          exists t, content m = JStr t)
    /\ JSON_parse (saved_chats plain_engine (chats s))
       = Some (JArr (map chat_value (chats s))).
Proof.
  apply (streaming_contents_text plain_engine cloud_settings). reflexivity.
Defined.

(** ** Answers without streaming *)

(** X25.  Without streaming the body is read whole and parsed once.
    When it is JSON other than null, the reply committed is the content
    of the message of the first choice, as it is and of whatever type,
    when that value is truthy, and the default text otherwise (no
    choices, no message, no content, or a content that is empty, null,
    false or zero).  No snapshot is shown. *)
Theorem plain_answer_committed (E : engine) (env : turn_env) (s : app_state)
    (r : response) (b : body) (data : jsval) :
  accepted s ->
  (forall req, network env req = FetchResponse r) ->
  ok r = true -> streaming (settings s) = false ->
  stream r = Some b -> failure b = None ->
  JSON_parse (TextDecoder_decode (concat (chunks b))) = Some data ->
  data <> JNull ->
  exists t c,
    sendMessage E env s = Returned t
    /\ currentChat (final t) = Some c
    /\ last (messages c)
       = Some {| msg_id := reply_msg_id env; msg_role := assistant;
                 content :=
                   or_else E
                     (optional (get_named (js "content"))
                        (optional (get_named (js "message"))
                           (optional get_index0
                              (get_named (js "choices") data))))
                     (JStr (js "No response received."));
                 timestamp := reply_msg_time env |}
    /\ deltas t = [].
Proof.
  intros Hacc Hnet Hok Hs Hb Hf Hdata Hnull.
  destruct (turn_reply E env s Hacc) as (t & c & Ht & Hc & Hm & _ & Hd).
  unfold answer, receive, response_json in *.
  rewrite Hnet, Hok, Hs, Hb, Hf, Hdata in *.
  cbn [negb fst snd mbind outcome_bind] in *.
  exists t, c. split; [done|]. split; [done|].
  rewrite Hm, Hd, last_app. cbn [last].
  by destruct data.
Qed.

Lemma plain_answer_committed_witness :
  exists t c,
    sendMessage plain_engine
      (answering
         {| status := 200;
            stream := Some {| chunks := [dq "{'choices':[{'mess";
                                         dq "age':{'content':'Hello'}}]}"];
                              failure := None |} |})
      (setInputValue (js "What is APR?") (initial plain_settings)) = Returned t
    /\ currentChat (final t) = Some c
    /\ content <$> last (messages c) = Some (JStr (js "Hello")).
Proof.
  destruct (plain_answer_committed plain_engine
      (answering
         {| status := 200;
            stream := Some {| chunks := [dq "{'choices':[{'mess";
                                         dq "age':{'content':'Hello'}}]}"];
                              failure := None |} |})
      (setInputValue (js "What is APR?") (initial plain_settings))
      {| status := 200;
         stream := Some {| chunks := [dq "{'choices':[{'mess";
                                      dq "age':{'content':'Hello'}}]}"];
                           failure := None |} |}
      {| chunks := [dq "{'choices':[{'mess"; dq "age':{'content':'Hello'}}]}"];
         failure := None |}
      (JObj [(js "choices",
              JArr [JObj [(js "message",
                           JObj [(js "content", JStr (js "Hello"))])]])]))
    as (t & c & Ht & Hc & Hl & _).
  - apply accepted_typed. vm_compute. discriminate.
  - reflexivity.
  - reflexivity.
  - reflexivity.
  - reflexivity.
  - reflexivity.
  - vm_compute. reflexivity.
  - discriminate.
  - exists t, c. split; [exact Ht|]. split; [exact Hc|].
    rewrite Hl. vm_compute. reflexivity.
Defined.

(** X26.  Without streaming, an answer with a good status whose body
    cannot be read, or is not JSON, or is the JSON null, does not give
    the default text: the turn commits the warning text, with the
    reason of the failed read, the message of the syntax error, or the
    message of the type error raised by reading [choices] of null. *)
Theorem plain_bad_body_turn (E : engine) (env : turn_env) (s : app_state)
    (r : response) (b : body) :
  accepted s ->
  (forall req, network env req = FetchResponse r) ->
  ok r = true -> streaming (settings s) = false ->
  stream r = Some b ->
  failure b <> None
  \/ JSON_parse (TextDecoder_decode (concat (chunks b))) = None
  \/ JSON_parse (TextDecoder_decode (concat (chunks b))) = Some JNull ->
  exists t c,
    sendMessage E env s = Returned t
    /\ currentChat (final t) = Some c
    /\ content <$> last (messages c)
       = Some (JStr (error_text
            match failure b with
            | Some e => error_message E e
            | None =>
                match JSON_parse (TextDecoder_decode (concat (chunks b))) with
                | None => fault_message E JsonSyntax
                | Some _ => fault_message E ReadOfNull
                end
            end))
    /\ deltas t = [].
Proof.
  intros Hacc Hnet Hok Hs Hb Hbad.
  destruct (turn_reply E env s Hacc) as (t & c & Ht & Hc & Hm & _ & Hd).
  unfold answer, receive, response_json in *.
  rewrite Hnet, Hok, Hs, Hb in *. cbn [negb fst snd] in *.
  exists t, c. split; [done|]. split; [done|]. split; [|done].
  rewrite Hm, last_app. cbn [last fmap option_fmap option_map].
  destruct (failure b) as [e|]; [done|].
  destruct Hbad as [?|[Hp|Hp]]; [done| |]; by rewrite Hp.
Qed.

Lemma plain_bad_body_turn_witness :
  exists t c,
    sendMessage plain_engine
      (answering {| status := 200;
                    stream := Some {| chunks := [js "<html>Bad gateway</html>"];
                                      failure := None |} |})
      (setInputValue (js "What is APR?") (initial plain_settings)) = Returned t
    /\ currentChat (final t) = Some c
    /\ content <$> last (messages c)
       = Some (JStr (error_text (js "TypeError")))
    /\ deltas t = [].
Proof.
  apply (plain_bad_body_turn plain_engine
      (answering {| status := 200;
                    stream := Some {| chunks := [js "<html>Bad gateway</html>"];
                                      failure := None |} |})
      (setInputValue (js "What is APR?") (initial plain_settings))
      {| status := 200;
         stream := Some {| chunks := [js "<html>Bad gateway</html>"];
                           failure := None |} |}
      {| chunks := [js "<html>Bad gateway</html>"]; failure := None |}).
  - apply accepted_typed. vm_compute. discriminate.
  - reflexivity.
  - reflexivity.
  - reflexivity.
  - reflexivity.
  - right. left. vm_compute. reflexivity.
Defined.
